(** * Step recording and playback of the sorting visualisations

    A shallow embedding of [src/algorithms/base_algorithm.py],
    [quicksort.py], [mergesort.py] and [selectionsort.py]: the three
    instrumented sort engines, the step recorder they share, and the
    playback controller that walks the recorded steps.

    Python integers are unbounded, so values and indices are [Z].  A Python
    list is a [list]; reads and writes go through [getitem] and [setitem],
    which follow Python's rules (a negative index counts from the end, an
    index outside the list raises [IndexError]).  The working array and
    [self.steps] are the two mutable objects an engine touches; they are the
    two fields of the [store] that the engine monad threads. *)

From stdpp Require Import base list strings pretty sorting gmap.
From Stdlib Require Import ZArith Lia.

Open Scope Z_scope.

(** ** Results and the engine monad *)

Inductive error : Type :=
| IndexError       (* list index out of range *)
| RecursionError   (* the recursion went deeper than the subrange allows *)
| LoopDiverged.    (* a while loop ran longer than its bound *)

Inductive result (R : Type) : Type :=
| Ok (r : R)
| Raise (e : error).
Arguments Ok {R} r.
Arguments Raise {R} e.

(** The store: the list object bound to [arr] (aliased by every recursive
    call) and the list bound to [self.steps]. *)
Record store (A T : Type) : Type := Store {
  arr : list A;
  steps : list T
}.
Arguments Store {A T} arr steps.
Arguments arr {A T} s.
Arguments steps {A T} s.

Definition M (A T R : Type) : Type := store A T → result (R * store A T).

Section monad.
Context {A T : Type}.

Definition ret {R} (r : R) : M A T R := λ s, Ok (r, s).

Definition bind {R R'} (m : M A T R) (k : R → M A T R') : M A T R' :=
  λ s, match m s with
       | Ok (r, s') => k r s'
       | Raise e => Raise e
       end.

Definition raise {R} (e : error) : M A T R := λ _, Raise e.
End monad.

Declare Scope eng_scope.
Delimit Scope eng_scope with eng.
Notation "x <- m ;; k" := (bind m (λ x, k))
  (at level 100, m at next level, right associativity) : eng_scope.
Notation "m ;; k" := (bind m (λ _, k))
  (at level 100, right associativity) : eng_scope.
Open Scope eng_scope.

(** ** Python list primitives *)

(** [range(lo, hi)] *)
Definition range (lo hi : Z) : list Z := seqZ lo (hi - lo).

(** Index normalisation of [list.__getitem__] / [__setitem__]. *)
Definition norm_index (n : nat) (i : Z) : option nat :=
  let n := Z.of_nat n in
  if bool_decide (0 ≤ i < n) then Some (Z.to_nat i)
  else if bool_decide (- n ≤ i < 0) then Some (Z.to_nat (n + i))
  else None.

(** Bound normalisation of a slice [l[a:b]]. *)
Definition norm_bound (n : nat) (i : Z) : nat :=
  let n := Z.of_nat n in
  if bool_decide (i < 0) then Z.to_nat (Z.max 0 (n + i))
  else Z.to_nat (Z.min n i).

(** [l[a:b]] *)
Definition py_slice {A} (l : list A) (a b : Z) : list A :=
  let a' := norm_bound (length l) a in
  let b' := norm_bound (length l) b in
  take (b' - a')%nat (drop a' l).

Section prims.
Context {A T : Type}.

(** [len(arr)] *)
Definition len : M A T Z := λ s, Ok (Z.of_nat (length (arr s)), s).

(** [arr[i]] *)
Definition getitem (i : Z) : M A T A := λ s,
  match norm_index (length (arr s)) i ≫= (λ n, arr s !! n) with
  | Some x => Ok (x, s)
  | None => Raise IndexError
  end.

(** [arr[i] = x] *)
Definition setitem (i : Z) (x : A) : M A T unit := λ s,
  match norm_index (length (arr s)) i with
  | Some n => Ok (tt, Store (<[n:=x]> (arr s)) (steps s))
  | None => Raise IndexError
  end.

(** [arr[i], arr[j] = arr[j], arr[i]]: the right-hand side is evaluated
    first ([arr[j]], then [arr[i]]), then the targets are assigned left to
    right. *)
Definition swap (i j : Z) : M A T unit :=
  y <- getitem j;;
  x <- getitem i;;
  setitem i y;;
  setitem j x.

(** [arr[a:b]] *)
Definition slice (a b : Z) : M A T (list A) := λ s, Ok (py_slice (arr s) a b, s).

(** [self.steps.append(step_data)] where [step_data] holds [array.copy()]
    next to the metadata: [mk] builds the record from the snapshot. *)
Definition record_step (mk : list A → T) : M A T unit := λ s,
  Ok (tt, Store (arr s) (steps s ++ [mk (arr s)])).

(** [for x in xs: body(x, acc)] with the loop-carried variables in [acc]. *)
Fixpoint for_each {X R} (xs : list X) (body : X → R → M A T R) (acc : R) : M A T R :=
  match xs with
  | [] => ret acc
  | x :: xs' => acc' <- body x acc;; for_each xs' body acc'
  end.

(** [while cond(acc): acc = body(acc)]; [bound] is an upper bound on the
    number of iterations. *)
Fixpoint while_loop {R} (bound : nat) (cond : R → bool) (body : R → M A T R)
    (acc : R) : M A T R :=
  if cond acc then
    match bound with
    | O => raise LoopDiverged
    | S bound => acc' <- body acc;; while_loop bound cond body acc'
    end
  else ret acc.

(** [l[i]] for a list [l] held in a local variable. *)
Definition item (l : list A) (i : Z) : M A T A := λ s,
  match norm_index (length l) i ≫= (λ n, l !! n) with
  | Some x => Ok (x, s)
  | None => Raise IndexError
  end.
End prims.

(** Python's [str] of an int and of a list. *)
Definition str_list {A} (show : A → string) (l : list A) : string :=
  "[" +:+ String.concat ", " (show <$> l) +:+ "]".

(** ** Colours ([get_color_scheme] of [base_algorithm.py]) *)

Definition get_color_scheme : gmap string string :=
  list_to_map [
    ("default", "#3498db"); ("comparing", "#f39c12"); ("pivot", "#e74c3c");
    ("sorted", "#2ecc71"); ("current", "#9b59b6"); ("left_part", "#27ae60");
    ("right_part", "#8e44ad"); ("minimum", "#e67e22") ].

(** [self.colors[key]]; the drawing code only uses keys of the scheme. *)
Definition color (key : string) : string := get_color_scheme !!! key.

(** The part of [draw_array] that decides the bar colours works on the
    local list [colors]: it is engine-monad code whose store holds that
    list (and records nothing). *)
Definition Draw := M string unit.

(** [colors = [self.colors['default']] * len(self.array)], then the
    colouring [paint], then the list handed to the bar chart.  With an empty
    [self.array] the method returns before any of it. *)
Definition bar_colors {X} (array : list X) (paint : Draw unit) : result (list string) :=
  match array with
  | [] => Ok []
  | _ :: _ =>
    match paint (Store (replicate (length array) (color "default")) []) with
    | Ok (_, Store colors _) => Ok colors
    | Raise e => Raise e
    end
  end.


(** ** Quick sort engine ([quicksort.py]) *)

Module QuickSort.

Record step : Type := Step {
  array : list Z;
  pivot_idx : Z;
  comparing_indices : list Z;
  left_part : option (Z * Z);
  right_part : option (Z * Z);
  description : string
}.

Definition E := M Z step.

(** [add_step(arr, pivot_idx=-1, comparing_indices=None, left_part=None,
    right_part=None, description="")] *)
Definition add_step (pivot_idx : Z) (comparing_indices : list Z)
    (left_part right_part : option (Z * Z)) (description : string) : E unit :=
  record_step (λ a, Step a pivot_idx comparing_indices left_part right_part description).

(** Body of [for j in range(low, high)] in [partition]; [i] is carried. *)
Definition partition_body (pivot pivot_idx : Z) (j i : Z) : E Z :=
  aj <- getitem j;;
  add_step pivot_idx [j] None None
    ("Comparing: " +:+ pretty aj +:+ " <= " +:+ pretty pivot +:+ "?");;
  aj <- getitem j;;
  if bool_decide (aj ≤ pivot) then
    let i := i + 1 in
    if bool_decide (i ≠ j) then
      ai <- getitem i;;
      aj <- getitem j;;
      add_step pivot_idx [i; j] None None
        ("Swapping: " +:+ pretty ai +:+ " <-> " +:+ pretty aj);;
      swap i j;;
      add_step pivot_idx [] None None "Swap completed";;
      ret i
    else ret i
  else ret i.

Definition partition (low high : Z) : E Z :=
  pivot <- getitem high;;
  let pivot_idx := high in
  add_step pivot_idx [] None None
    ("Pivot selected: " +:+ pretty pivot +:+ " (index: " +:+ pretty pivot_idx +:+ ")");;
  i <- for_each (range low high) (partition_body pivot pivot_idx) (low - 1);;
  (if bool_decide (i + 1 ≠ high) then
     add_step pivot_idx [i + 1] None None "Place pivot in correct position";;
     swap (i + 1) high
   else ret tt);;
  add_step (i + 1) []
    (if bool_decide (i >= low) then Some (low, i) else None)
    (if bool_decide (i + 2 ≤ high) then Some (i + 2, high) else None)
    ("Partition completed. Pivot position: " +:+ pretty (i + 1));;
  ret (i + 1).

(** [quicksort(arr, low, high)]; [depth] bounds the nesting of the
    recursive calls, which never exceeds [high - low]. *)
Fixpoint quicksort_rec (depth : nat) (low high : Z) : E unit :=
  if bool_decide (low < high) then
    match depth with
    | O => raise RecursionError
    | S depth =>
      add_step (-1) [] None None
        ("Quick Sort - Range: [" +:+ pretty low +:+ ", " +:+ pretty high +:+ "]");;
      pi <- partition low high;;
      (if bool_decide (low < pi - 1) then
         add_step (-1) [] (Some (low, pi - 1)) None
           ("Sort left side: [" +:+ pretty low +:+ ", " +:+ pretty (pi - 1) +:+ "]");;
         quicksort_rec depth low (pi - 1)
       else ret tt);;
      (if bool_decide (pi + 1 < high) then
         add_step (-1) [] None (Some (pi + 1, high))
           ("Sort right side: [" +:+ pretty (pi + 1) +:+ ", " +:+ pretty high +:+ "]");;
         quicksort_rec depth (pi + 1) high
       else ret tt)
    end
  else ret tt.

Definition quicksort (low high : Z) : E unit :=
  quicksort_rec (Z.to_nat (high - low)) low high.

Definition sort_algorithm : E unit :=
  add_step (-1) [] None None "Initial state - Quick Sort algorithm starting";;
  n <- len;;
  quicksort 0 (n - 1);;
  add_step (-1) [] None None "Sorting completed!".


(** [for i in range(start, min(end + 1, len(colors))):
       if colors[i] == self.colors['default']: colors[i] = c] *)
Definition paint_part (part : option (Z * Z)) (c : string) : Draw unit :=
  match part with
  | None => ret tt
  | Some (start, end_) =>
    n <- len;;
    for_each (range start (Z.min (end_ + 1) n))
      (λ i _, ci <- getitem i;;
              if bool_decide (ci = color "default") then setitem i c else ret tt) tt
  end.

(** The colouring of [draw_array(step_data)]. *)
Definition paint (step_data : option step) : Draw unit :=
  match step_data with
  | None => ret tt
  | Some sd =>
    (if bool_decide (pivot_idx sd >= 0) then setitem (pivot_idx sd) (color "pivot")
     else ret tt);;
    for_each (comparing_indices sd)
      (λ idx _, if bool_decide (idx ≠ pivot_idx sd) then setitem idx (color "comparing")
                else ret tt) tt;;
    paint_part (left_part sd) (color "left_part");;
    paint_part (right_part sd) (color "right_part")
  end.

(** The bar colours [draw_array] computes when [self.array] is [array]. *)
Definition draw_array (array : list Z) (step_data : option step) : result (list string) :=
  bar_colors array (paint step_data).


End QuickSort.

(** ** Merge sort engine ([mergesort.py])

    The engine only ever compares elements with [<=] and prints them, so it
    is written over any element type [A] with a sort key [key] and a printer
    [show]; the visualiser runs it on integers ([key] the identity, [show]
    Python's [str]).  Elements with equal keys can then be told apart, which
    is what stability is about. *)

Module MergeSort.

Record step (A : Type) : Type := Step {
  array : list A;
  left_subarray : option (Z * Z);
  right_subarray : option (Z * Z);
  merging_range : option (Z * Z);
  comparing_indices : list Z;
  description : string
}.
Arguments Step {A}.
Arguments array {A}.
Arguments left_subarray {A}.
Arguments right_subarray {A}.
Arguments merging_range {A}.
Arguments comparing_indices {A}.
Arguments description {A}.

Section engine.
Context {A : Type} (key : A → Z) (show : A → string).

Definition E := M A (step A).

(** [add_step(arr, left_subarray=None, right_subarray=None,
    merging_range=None, comparing_indices=None, description="")] *)
Definition add_step (left_subarray right_subarray merging_range : option (Z * Z))
    (comparing_indices : list Z) (description : string) : E unit :=
  record_step (λ a, Step a left_subarray right_subarray merging_range
                      comparing_indices description).

(** Body of [while i < len(left_arr) and j < len(right_arr)]. *)
Definition merge_body (left mid right : Z) (left_arr right_arr : list A)
    (ijk : Z * Z * Z) : E (Z * Z * Z) :=
  let '(i, j, k) := ijk in
  li <- item left_arr i;;
  rj <- item right_arr j;;
  add_step None None (Some (left, right)) [left + i; mid + 1 + j]
    ("Comparing: " +:+ show li +:+ " vs " +:+ show rj +:+ " at positions "
       +:+ pretty (left + i) +:+ " and " +:+ pretty (mid + 1 + j));;
  li <- item left_arr i;;
  rj <- item right_arr j;;
  if bool_decide (key li ≤ key rj) then
    li <- item left_arr i;;
    setitem k li;;
    li <- item left_arr i;;
    add_step None None (Some (left, right)) []
      ("Placed " +:+ show li +:+ " at position " +:+ pretty k);;
    ret (i + 1, j, k + 1)
  else
    rj <- item right_arr j;;
    setitem k rj;;
    rj <- item right_arr j;;
    add_step None None (Some (left, right)) []
      ("Placed " +:+ show rj +:+ " at position " +:+ pretty k);;
    ret (i, j + 1, k + 1).

(** Body of [while i < len(left_arr)]. *)
Definition copy_left_body (left right : Z) (left_arr : list A)
    (ijk : Z * Z * Z) : E (Z * Z * Z) :=
  let '(i, j, k) := ijk in
  li <- item left_arr i;;
  setitem k li;;
  li <- item left_arr i;;
  add_step None None (Some (left, right)) []
    ("Copying remaining left element: " +:+ show li +:+ " to position " +:+ pretty k);;
  ret (i + 1, j, k + 1).

(** Body of [while j < len(right_arr)]. *)
Definition copy_right_body (left right : Z) (right_arr : list A)
    (ijk : Z * Z * Z) : E (Z * Z * Z) :=
  let '(i, j, k) := ijk in
  rj <- item right_arr j;;
  setitem k rj;;
  rj <- item right_arr j;;
  add_step None None (Some (left, right)) []
    ("Copying remaining right element: " +:+ show rj +:+ " to position " +:+ pretty k);;
  ret (i, j + 1, k + 1).

Definition merge (left mid right : Z) : E unit :=
  left_arr <- slice left (mid + 1);;
  right_arr <- slice (mid + 1) (right + 1);;
  add_step (Some (left, mid)) (Some (mid + 1, right)) None []
    ("Created temp arrays: Left" +:+ str_list show left_arr
       +:+ ", Right" +:+ str_list show right_arr);;
  let nl := Z.of_nat (length left_arr) in
  let nr := Z.of_nat (length right_arr) in
  ijk <- while_loop (length left_arr + length right_arr)
           (λ '(i, j, _), bool_decide (i < nl) && bool_decide (j < nr))
           (merge_body left mid right left_arr right_arr) (0, 0, left);;
  ijk <- while_loop (length left_arr)
           (λ '(i, _, _), bool_decide (i < nl))
           (copy_left_body left right left_arr) ijk;;
  ijk <- while_loop (length right_arr)
           (λ '(_, j, _), bool_decide (j < nr))
           (copy_right_body left right right_arr) ijk;;
  add_step None None (Some (left, right)) []
    ("Merge completed for range [" +:+ pretty left +:+ ":" +:+ pretty right +:+ "]").

(** [merge_sort_recursive(arr, left, right)]; [depth] bounds the nesting
    of the recursive calls, which never exceeds [right - left]. *)
Fixpoint merge_sort_rec (depth : nat) (left right : Z) : E unit :=
  if bool_decide (left < right) then
    match depth with
    | O => raise RecursionError
    | S depth =>
      let mid := (left + right) `div` 2 in
      add_step (Some (left, mid)) (Some (mid + 1, right)) None []
        ("Dividing array: Left[" +:+ pretty left +:+ ":" +:+ pretty mid
           +:+ "], Right[" +:+ pretty (mid + 1) +:+ ":" +:+ pretty right +:+ "]");;
      add_step (Some (left, mid)) None None []
        ("Sorting left subarray: [" +:+ pretty left +:+ ":" +:+ pretty mid +:+ "]");;
      merge_sort_rec depth left mid;;
      add_step None (Some (mid + 1, right)) None []
        ("Sorting right subarray: [" +:+ pretty (mid + 1) +:+ ":" +:+ pretty right +:+ "]");;
      merge_sort_rec depth (mid + 1) right;;
      add_step (Some (left, mid)) (Some (mid + 1, right)) None []
        ("Merging sorted subarrays: [" +:+ pretty left +:+ ":" +:+ pretty mid
           +:+ "] and [" +:+ pretty (mid + 1) +:+ ":" +:+ pretty right +:+ "]");;
      merge left mid right
    end
  else ret tt.

Definition merge_sort_recursive (left right : Z) : E unit :=
  merge_sort_rec (Z.to_nat (right - left)) left right.

Definition sort_algorithm : E unit :=
  add_step None None None [] "Initial state - Merge Sort algorithm starting";;
  n <- len;;
  merge_sort_recursive 0 (n - 1);;
  add_step None None None [] "Merge Sort completed! Array is now fully sorted".
End engine.


(** [for i in range(start, min(end + 1, len(colors))): colors[i] = c] *)
Definition paint_range (part : option (Z * Z)) (c : string) : Draw unit :=
  match part with
  | None => ret tt
  | Some (start, end_) =>
    n <- len;;
    for_each (range start (Z.min (end_ + 1) n)) (λ i _, setitem i c) tt
  end.

(** The colouring of [draw_array(step_data)]. *)
Definition paint {A} (step_data : option (step A)) : Draw unit :=
  match step_data with
  | None => ret tt
  | Some sd =>
    paint_range (left_subarray sd) (color "left_part");;
    paint_range (right_subarray sd) (color "right_part");;
    paint_range (merging_range sd) (color "sorted");;
    for_each (comparing_indices sd)
      (λ idx _, n <- len;;
                if bool_decide (0 ≤ idx < n) then setitem idx (color "comparing")
                else ret tt) tt
  end.

(** The bar colours [draw_array] computes when [self.array] is [array]. *)
Definition draw_array {A} (array : list A) (step_data : option (step A)) :
    result (list string) :=
  bar_colors array (paint step_data).


End MergeSort.

(** ** Selection sort engine ([selectionsort.py]) *)

Module SelectionSort.

Record step : Type := Step {
  array : list Z;
  current_position : Z;
  minimum_index : Z;
  comparing_index : Z;
  sorted_indices : list Z;
  description : string
}.

Definition E := M Z step.

(** [add_step(arr, current_position=-1, minimum_index=-1,
    comparing_index=-1, sorted_indices=None, description="")] *)
Definition add_step (current_position minimum_index comparing_index : Z)
    (sorted_indices : list Z) (description : string) : E unit :=
  record_step (λ a, Step a current_position minimum_index comparing_index
                      sorted_indices description).

(** Body of [for j in range(i + 1, n)]; [min_idx] is carried. *)
Definition scan_body (i : Z) (sorted_indices : list Z) (j min_idx : Z) : E Z :=
  aj <- getitem j;;
  am <- getitem min_idx;;
  add_step i min_idx j sorted_indices
    ("Comparing: " +:+ pretty aj +:+ " (position " +:+ pretty j
       +:+ ") with current minimum " +:+ pretty am);;
  aj <- getitem j;;
  am <- getitem min_idx;;
  if bool_decide (aj < am) then
    let min_idx := j in
    aj <- getitem j;;
    add_step i min_idx j sorted_indices
      ("New minimum found! " +:+ pretty aj +:+ " at position " +:+ pretty j);;
    ret min_idx
  else ret min_idx.

(** Body of [for i in range(n)]; [sorted_indices] is carried. *)
Definition round_body (n : Z) (i : Z) (sorted_indices : list Z) : E (list Z) :=
  let min_idx := i in
  add_step i min_idx (-1) sorted_indices
    ("Round " +:+ pretty (i + 1) +:+ ": Looking for minimum in unsorted part [position "
       +:+ pretty i +:+ " to " +:+ pretty (n - 1) +:+ "]");;
  ai <- getitem i;;
  add_step i min_idx (-1) sorted_indices
    ("Assume element at position " +:+ pretty i +:+ " (" +:+ pretty ai +:+ ") is minimum");;
  min_idx <- for_each (range (i + 1) n) (scan_body i sorted_indices) min_idx;;
  (if bool_decide (min_idx ≠ i) then
     ai <- getitem i;;
     am <- getitem min_idx;;
     add_step i min_idx (-1) sorted_indices
       ("Swapping: " +:+ pretty ai +:+ " (position " +:+ pretty i +:+ ") with "
          +:+ pretty am +:+ " (position " +:+ pretty min_idx +:+ ")");;
     swap i min_idx;;
     ai <- getitem i;;
     add_step i (-1) (-1) sorted_indices
       ("Swap completed: " +:+ pretty ai +:+ " is now in position " +:+ pretty i)
   else
     ai <- getitem i;;
     add_step i (-1) (-1) sorted_indices
       ("No swap needed: " +:+ pretty ai +:+ " is already the minimum"));;
  let sorted_indices := sorted_indices ++ [i] in
  ai <- getitem i;;
  add_step (-1) (-1) (-1) sorted_indices
    ("Position " +:+ pretty i +:+ " is now sorted. Element " +:+ pretty ai
       +:+ " is in correct place");;
  ret sorted_indices.

Definition sort_algorithm : E unit :=
  n <- len;;
  add_step (-1) (-1) (-1) [] "Initial state - Selection Sort algorithm starting";;
  for_each (range 0 n) (round_body n) [];;
  add_step (-1) (-1) (-1) (range 0 n)
    "Selection Sort completed! All elements are now sorted".


(** [if 0 <= idx < len(colors) and colors[idx] != self.colors['sorted']:
       colors[idx] = c] *)
Definition paint_role (idx : Z) (c : string) : Draw unit :=
  n <- len;;
  if bool_decide (0 ≤ idx < n) then
    ci <- getitem idx;;
    if bool_decide (ci ≠ color "sorted") then setitem idx c else ret tt
  else ret tt.

(** The colouring of [draw_array(step_data)]. *)
Definition paint (step_data : option step) : Draw unit :=
  match step_data with
  | None => ret tt
  | Some sd =>
    for_each (sorted_indices sd)
      (λ idx _, n <- len;;
                if bool_decide (0 ≤ idx < n) then setitem idx (color "sorted")
                else ret tt) tt;;
    paint_role (current_position sd) (color "current");;
    paint_role (minimum_index sd) (color "minimum");;
    paint_role (comparing_index sd) (color "comparing")
  end.

(** The bar colours [draw_array] computes when [self.array] is [array]. *)
Definition draw_array (array : list Z) (step_data : option step) : result (list string) :=
  bar_colors array (paint step_data).


End SelectionSort.

(** ** The engine interface ([SortingAlgorithmBase]'s abstract methods) *)

Class Engine (T : Type) : Type := {
  snapshot : T → list Z;          (* [step_data['array']] *)
  caption : T → string;           (* [step_data['description']] *)
  sort_algorithm : M Z T unit     (* [sort_algorithm(arr)] *)
}.

#[export] Instance quick_sort : Engine QuickSort.step := {|
  snapshot := QuickSort.array;
  caption := QuickSort.description;
  sort_algorithm := QuickSort.sort_algorithm
|}.

#[export] Instance merge_sort : Engine (MergeSort.step Z) := {|
  snapshot := MergeSort.array;
  caption := MergeSort.description;
  sort_algorithm := MergeSort.sort_algorithm id pretty
|}.

#[export] Instance selection_sort : Engine SelectionSort.step := {|
  snapshot := SelectionSort.array;
  caption := SelectionSort.description;
  sort_algorithm := SelectionSort.sort_algorithm
|}.

(** One sort run, as [generate_steps] starts it: a fresh [self.steps] and
    the engine applied to a copy of the array.  The result is the sorted
    copy and the recorded steps. *)
Definition run_engine `{Engine T} (a : list Z) : result (list Z * list T) :=
  match sort_algorithm (Store a []) with
  | Ok (_, Store a' st) => Ok (a', st)
  | Raise e => Raise e
  end.

(** ** Playback controller ([base_algorithm.py] with the overrides that the
    three visualisers share)

    The handlers are given here as they run when the
    [parent_frame.update()] at the end of [log_message] finds nothing to
    dispatch, so that each handler runs from its start to its end without
    another one in between.  [Reentrant] below models that call. *)

Module Playback.

(** The fields of a visualiser that playback reads and writes.
    [original_speed] is [None] when the attribute is absent;
    [scheduled] counts the [parent_frame.after] callbacks of
    [animate_sorting] that have not fired yet. *)
Record visualizer (T : Type) : Type := Visualizer {
  array : list Z;
  original_array : list Z;
  steps : list T;
  current_step : Z;
  is_sorting : bool;
  is_playing : bool;
  animation_speed : Z;
  original_speed : option Z;
  scheduled : nat
}.
Arguments Visualizer {T}.
Arguments array {T}.
Arguments original_array {T}.
Arguments steps {T}.
Arguments current_step {T}.
Arguments is_sorting {T}.
Arguments is_playing {T}.
Arguments animation_speed {T}.
Arguments original_speed {T}.
Arguments scheduled {T}.

Inductive command : Type :=
| Start | FastStart | Pause | Reset | StepForward | StepBackward
| Tick.  (* a scheduled [animate_sorting] callback fires *)

Section controller.
Context {T : Type} `{!Engine T}.
Abbreviation V := (visualizer T).

Definition set_array (a : list Z) (v : V) : V :=
  Visualizer a (original_array v) (steps v) (current_step v) (is_sorting v)
    (is_playing v) (animation_speed v) (original_speed v) (scheduled v).
Definition set_steps (st : list T) (v : V) : V :=
  Visualizer (array v) (original_array v) st (current_step v) (is_sorting v)
    (is_playing v) (animation_speed v) (original_speed v) (scheduled v).
Definition set_current_step (c : Z) (v : V) : V :=
  Visualizer (array v) (original_array v) (steps v) c (is_sorting v)
    (is_playing v) (animation_speed v) (original_speed v) (scheduled v).
Definition set_is_sorting (b : bool) (v : V) : V :=
  Visualizer (array v) (original_array v) (steps v) (current_step v) b
    (is_playing v) (animation_speed v) (original_speed v) (scheduled v).
Definition set_is_playing (b : bool) (v : V) : V :=
  Visualizer (array v) (original_array v) (steps v) (current_step v) (is_sorting v)
    b (animation_speed v) (original_speed v) (scheduled v).
Definition set_speeds (speed : Z) (saved : option Z) (v : V) : V :=
  Visualizer (array v) (original_array v) (steps v) (current_step v) (is_sorting v)
    (is_playing v) speed saved (scheduled v).
Definition set_scheduled (n : nat) (v : V) : V :=
  Visualizer (array v) (original_array v) (steps v) (current_step v) (is_sorting v)
    (is_playing v) (animation_speed v) (original_speed v) n.

(** [__init__], before an array is installed. *)
Definition new : V := Visualizer [] [] [] 0 false false 1000 None O.

Definition set_manual_array (a : list Z) (v : V) : V :=
  Visualizer a a [] 0 (is_sorting v) (is_playing v) (animation_speed v)
    (original_speed v) (scheduled v).

Definition generate_steps (v : V) : result V :=
  match array v with
  | [] => Ok v
  | _ :: _ =>
    match run_engine (array v) with
    | Ok (temp_array, st) => Ok (set_array temp_array (set_steps st v))
    | Raise e => Raise e
    end
  end.

(** [if not self.steps: self.generate_steps()] *)
Definition ensure_steps (v : V) : result V :=
  match steps v with
  | [] => generate_steps v
  | _ :: _ => Ok v
  end.

(** The state change of [show_current_step]; drawing is left out, and the
    [log_message] at its end dispatches nothing
    ([Reentrant.show_current_step] has the call). *)
Definition show_current_step (v : V) : V :=
  match steps v with
  | [] => v
  | _ :: _ =>
    if bool_decide (0 ≤ current_step v < Z.of_nat (length (steps v))) then
      match steps v !! Z.to_nat (current_step v) with
      | Some step_data => set_array (snapshot step_data) v
      | None => v
      end
    else v
  end.

(** [if hasattr(self, 'original_speed'): ...; delattr(...)] *)
Definition restore_speed (v : V) : V :=
  match original_speed v with
  | Some speed => set_speeds speed None v
  | None => v
  end.

Definition animate_sorting (v : V) : V :=
  if negb (is_playing v) || bool_decide (current_step v >= Z.of_nat (length (steps v))) then
    if bool_decide (current_step v >= Z.of_nat (length (steps v))) then
      restore_speed (set_is_sorting false v)
    else v
  else
    let v := show_current_step v in
    let v := set_current_step (current_step v + 1) v in
    if is_playing v then set_scheduled (S (scheduled v)) v else v.

Definition start_sorting (v : V) : result V :=
  if is_sorting v then Ok v
  else
    match ensure_steps v with
    | Ok v => Ok (animate_sorting (set_is_playing true (set_is_sorting true v)))
    | Raise e => Raise e
    end.

Definition fast_sort (v : V) : result V :=
  if is_sorting v then Ok v
  else
    match array v with
    | [] => Ok v
    | _ :: _ =>
      match ensure_steps v with
      | Ok v =>
        let v := set_is_playing true (set_is_sorting true v) in
        let v := set_speeds 50 (Some (animation_speed v)) v in
        Ok (animate_sorting v)
      | Raise e => Raise e
      end
    end.

Definition pause_sorting (v : V) : V :=
  restore_speed (set_is_playing false v).

Definition reset_sorting (v : V) : V :=
  let v := set_is_sorting false v in
  let v := set_is_playing false v in
  let v := set_current_step 0 v in
  let v := set_steps [] v in
  let v := set_array (original_array v) v in
  restore_speed v.

Definition step_forward (v : V) : result V :=
  match ensure_steps v with
  | Ok v =>
    if bool_decide (current_step v < Z.of_nat (length (steps v)) - 1) then
      Ok (show_current_step (set_current_step (current_step v + 1) v))
    else Ok v
  | Raise e => Raise e
  end.

Definition step_backward (v : V) : V :=
  if bool_decide (current_step v > 0) then
    show_current_step (set_current_step (current_step v - 1) v)
  else v.

(** [on_speed_change]: [name] is the value of the speed combobox. *)
Definition speed_map : gmap string Z :=
  list_to_map [("Very Slow", 2000); ("Slow", 1500); ("Medium", 1000);
               ("Fast", 500); ("Very Fast", 200)].

Definition on_speed_change (name : string) (v : V) : V :=
  set_speeds (default 1000 (speed_map !! name)) (original_speed v) v.

(** [update_progress]: the numbers of the label [f"Step: {current}/{total_steps}"]
    (the percentage of the progress bar is left out). *)
Definition update_progress (v : V) : Z * Z :=
  let total_steps := match steps v with [] => 0 | _ :: _ => Z.of_nat (length (steps v)) end in
  let current := Z.min (current_step v + 1) total_steps in
  (current, total_steps).

Definition progress_label (v : V) : string :=
  let '(current, total_steps) := update_progress v in
  "Step: " +:+ pretty current +:+ "/" +:+ pretty total_steps.


(** The event loop delivers one command, and nothing is dispatched while
    its handler runs ([Reentrant.handle] is the general case). *)
Definition exec (c : command) (v : V) : result V :=
  match c with
  | Start => start_sorting v
  | FastStart => fast_sort v
  | Pause => Ok (pause_sorting v)
  | Reset => Ok (reset_sorting v)
  | StepForward => step_forward v
  | StepBackward => Ok (step_backward v)
  | Tick =>
    match scheduled v with
    | O => Ok v
    | S n => Ok (animate_sorting (set_scheduled n v))
    end
  end.

Fixpoint exec_all (cs : list command) (v : V) : result V :=
  match cs with
  | [] => Ok v
  | c :: cs =>
    match exec c v with
    | Ok v => exec_all cs v
    | Raise e => Raise e
    end
  end.
End controller.

End Playback.

(** ** Handlers that run inside one another

    [log_message] ends with [self.parent_frame.update()], and Tk's [update]
    runs what the event queue holds before it returns: the handlers of
    buttons clicked in the meantime and the [after] callbacks that are due.
    A handler of the controller can therefore run in the middle of another
    one, at each [log_message] of the latter.  [Playback] above gives the
    handlers for the case that every such call finds the queue empty; here
    the calls are modelled, and a handler is given what each of them
    dispatches. *)

Module Reentrant.
Import Playback.

(** An event of the Tk event loop: the command whose handler runs and, for
    each [update()] that the handler reaches, in the order in which it
    reaches them, the events which that call dispatches, each with its own
    nested events.  A call beyond the end of the list dispatches nothing. *)
#[warnings="-register-all"] Inductive event : Type := Event (c : command) (inner : list (list event)).

(** The event during which [update()] dispatches nothing. *)
Definition atomic (c : command) : event := Event c [].

(** [every ok e]: every command of [e], at whatever depth, satisfies [ok]. *)
Fixpoint every (ok : command → bool) (e : event) : bool :=
  match e with
  | Event c inner => ok c && forallb (forallb (every ok)) inner
  end.




Section controller.
Context {T : Type} `{!Engine T}.
Abbreviation V := (visualizer T).

(** What one [update()] does: the handlers it dispatches, run to their end. *)
Definition pump : Type := V → result V.

(** A handler is given the [update()] calls it may reach and returns those
    it has not reached. *)
Definition handler : Type := list pump → V → result (V * list pump).

Definition update : handler := λ pumps v,
  match pumps with
  | [] => Ok (v, [])
  | u :: pumps =>
    match u v with
    | Ok v => Ok (v, pumps)
    | Raise err => Raise err
    end
  end.

(** [log_message]: the status text is not modelled, the [update()] is. *)
Definition log_message : handler := update.

(** [show_current_step] logs, and so calls [update()], only for a record
    with a description that is not empty. *)
Definition show_current_step : handler := λ pumps v,
  match steps v with
  | [] => Ok (v, pumps)
  | _ :: _ =>
    if bool_decide (0 ≤ current_step v < Z.of_nat (length (steps v))) then
      match steps v !! Z.to_nat (current_step v) with
      | Some step_data =>
        let v := set_array (snapshot step_data) v in
        if bool_decide (caption step_data ≠ EmptyString) then log_message pumps v
        else Ok (v, pumps)
      | None => Ok (v, pumps)
      end
    else Ok (v, pumps)
  end.

(** The cursor is advanced after [show_current_step] has returned, so after
    whatever its [update()] has dispatched. *)
Definition animate_sorting : handler := λ pumps v,
  if negb (is_playing v) || bool_decide (current_step v >= Z.of_nat (length (steps v))) then
    if bool_decide (current_step v >= Z.of_nat (length (steps v))) then
      log_message pumps (restore_speed (set_is_sorting false v))
    else Ok (v, pumps)
  else
    match show_current_step pumps v with
    | Ok (v, pumps) =>
      let v := set_current_step (current_step v + 1) v in
      Ok (if is_playing v then set_scheduled (S (scheduled v)) v else v, pumps)
    | Raise err => Raise err
    end.

Definition start_sorting : handler := λ pumps v,
  if is_sorting v then Ok (v, pumps)
  else
    match ensure_steps v with
    | Ok v =>
      match log_message pumps (set_is_playing true (set_is_sorting true v)) with
      | Ok (v, pumps) => animate_sorting pumps v
      | Raise err => Raise err
      end
    | Raise err => Raise err
    end.

(** [fast_sort] logs before it generates the steps, sets [is_sorting] and
    saves the speed. *)
Definition fast_sort : handler := λ pumps v,
  if is_sorting v then Ok (v, pumps)
  else
    match array v with
    | [] => Ok (v, pumps)
    | _ :: _ =>
      match log_message pumps v with
      | Ok (v, pumps) =>
        match ensure_steps v with
        | Ok v =>
          let v := set_is_playing true (set_is_sorting true v) in
          let v := set_speeds 50 (Some (animation_speed v)) v in
          animate_sorting pumps v
        | Raise err => Raise err
        end
      | Raise err => Raise err
      end
    end.

Definition pause_sorting : handler := λ pumps v,
  log_message pumps (Playback.pause_sorting v).

Definition reset_sorting : handler := λ pumps v,
  log_message pumps (Playback.reset_sorting v).

Definition step_forward : handler := λ pumps v,
  match ensure_steps v with
  | Ok v =>
    if bool_decide (current_step v < Z.of_nat (length (steps v)) - 1) then
      show_current_step pumps (set_current_step (current_step v + 1) v)
    else Ok (v, pumps)
  | Raise err => Raise err
  end.

Definition step_backward : handler := λ pumps v,
  if bool_decide (current_step v > 0) then
    show_current_step pumps (set_current_step (current_step v - 1) v)
  else Ok (v, pumps).

(** The handler of a command; a tick is a pending [animate_sorting]
    callback that fires. *)
Definition run (c : command) : handler :=
  match c with
  | Start => start_sorting
  | FastStart => fast_sort
  | Pause => pause_sorting
  | Reset => reset_sorting
  | StepForward => step_forward
  | StepBackward => step_backward
  | Tick => λ pumps v,
    match scheduled v with
    | O => Ok (v, pumps)
    | S n => animate_sorting pumps (set_scheduled n v)
    end
  end.

(** One [update()]: the dispatched handlers run one after the other. *)
Fixpoint dispatch (hs : list pump) : pump := λ v,
  match hs with
  | [] => Ok v
  | h :: hs =>
    match h v with
    | Ok v => dispatch hs v
    | Raise err => Raise err
    end
  end.

Fixpoint handle (e : event) : pump :=
  match e with
  | Event c inner => λ v,
    match run c (map (λ es, dispatch (map handle es)) inner) v with
    | Ok (v, _) => Ok v
    | Raise err => Raise err
    end
  end.

(** The event loop delivers the events of [es] in turn. *)
Definition handle_all (es : list event) : pump := dispatch (map handle es).
End controller.

End Reentrant.

(** * Verification *)

(** ** Reasoning about engine code

    [wp m s Q]: from store [s] the computation [m] returns normally, with a
    result and a final store related by [Q], and it has only appended to the
    recorded steps. *)

Definition wp {A T R} (m : M A T R) (s : store A T) (Q : R → store A T → Prop) : Prop :=
  match m s with
  | Ok (r, s') => Q r s' ∧ steps s `prefix_of` steps s'
  | Raise _ => False
  end.

Section wp_rules.
Context {A T : Type}.
Implicit Types (s : store A T) (a l : list A).

Lemma wp_elim {R} (m : M A T R) s Q :
  wp m s Q → ∃ r s', m s = Ok (r, s') ∧ Q r s' ∧ steps s `prefix_of` steps s'.
Proof.
  unfold wp. destruct (m s) as [[r s']|e]; [|done]. intros [HQ Hp]. eauto.
Qed.

Lemma wp_intro {R} (m : M A T R) s Q r s' :
  m s = Ok (r, s') → Q r s' → steps s `prefix_of` steps s' → wp m s Q.
Proof. unfold wp. intros -> ??. done. Qed.

Lemma wp_mono {R} (m : M A T R) s (Q Q' : R → store A T → Prop) :
  wp m s Q → (∀ r s', steps s `prefix_of` steps s' → Q r s' → Q' r s') → wp m s Q'.
Proof.
  unfold wp. destruct (m s) as [[r s']|e]; [|done]. intros [HQ Hp] HQQ. split; auto.
Qed.

Lemma wp_ret {R} (r : R) s Q : Q r s → wp (ret r) s Q.
Proof. intros HQ. by split. Qed.

Lemma wp_bind {R R'} (m : M A T R) (k : R → M A T R') s Q :
  wp m s (λ r s', wp (k r) s' Q) → wp (bind m k) s Q.
Proof.
  unfold wp, bind. destruct (m s) as [[r s']|e]; [|done].
  intros [Hk Hp]. destruct (k r s') as [[r' s'']|e]; [|done].
  destruct Hk as [HQ Hp']. split; [done|]. by etrans.
Qed.

Lemma wp_len s Q : Q (Z.of_nat (length (arr s))) s → wp len s Q.
Proof. intros HQ. by split. Qed.

Lemma norm_index_nonneg (n : nat) (i : Z) :
  0 ≤ i < Z.of_nat n → norm_index n i = Some (Z.to_nat i).
Proof. intros Hi. unfold norm_index. by rewrite bool_decide_eq_true_2. Qed.

Lemma wp_getitem i x s Q :
  0 ≤ i → arr s !! Z.to_nat i = Some x → Q x s → wp (getitem i) s Q.
Proof.
  intros Hi Hx HQ. unfold wp, getitem.
  rewrite norm_index_nonneg; [|apply lookup_lt_Some in Hx; lia].
  simpl. rewrite Hx. by split.
Qed.

Lemma wp_item l i x s Q :
  0 ≤ i → l !! Z.to_nat i = Some x → Q x s → wp (item l i) s Q.
Proof.
  intros Hi Hx HQ. unfold wp, item.
  rewrite norm_index_nonneg; [|apply lookup_lt_Some in Hx; lia].
  simpl. rewrite Hx. by split.
Qed.

Lemma wp_setitem i x s Q :
  0 ≤ i < Z.of_nat (length (arr s)) →
  Q tt (Store (<[Z.to_nat i:=x]> (arr s)) (steps s)) → wp (setitem i x) s Q.
Proof.
  intros Hi HQ. unfold wp, setitem. rewrite norm_index_nonneg; [|done]. by split.
Qed.

Lemma wp_swap i j x y s Q :
  0 ≤ i → 0 ≤ j → arr s !! Z.to_nat i = Some x → arr s !! Z.to_nat j = Some y →
  Q tt (Store (<[Z.to_nat j:=x]> (<[Z.to_nat i:=y]> (arr s))) (steps s)) →
  wp (swap i j) s Q.
Proof.
  intros Hi Hj Hx Hy HQ. unfold swap.
  apply wp_bind, (wp_getitem _ y); [done..|].
  apply wp_bind, (wp_getitem _ x); [done..|].
  pose proof (lookup_lt_Some _ _ _ Hx). pose proof (lookup_lt_Some _ _ _ Hy).
  apply wp_bind, wp_setitem; [lia|].
  apply wp_setitem; [simpl; rewrite length_insert; lia|]. done.
Qed.

Lemma wp_slice b e s Q : Q (py_slice (arr s) b e) s → wp (slice b e) s Q.
Proof. intros HQ. by split. Qed.

Lemma wp_record_step (mk : list A → T) s Q :
  Q tt (Store (arr s) (steps s ++ [mk (arr s)])) → wp (record_step mk) s Q.
Proof. intros HQ. split; [done|]. by apply prefix_app_r. Qed.

(** A [for] loop over [range(lo, hi)] with invariant [I j acc]. *)
Lemma wp_for_range {R} (I : Z → R → store A T → Prop) lo hi
    (body : Z → R → M A T R) acc s Q :
  lo ≤ hi →
  I lo acc s →
  (∀ j acc s, lo ≤ j < hi → I j acc s →
     wp (body j acc) s (λ acc' s', I (j + 1) acc' s')) →
  (∀ acc s', steps s `prefix_of` steps s' → I hi acc s' → Q acc s') →
  wp (for_each (range lo hi) body acc) s Q.
Proof.
  intros Hle HI Hbody HQ. unfold range.
  remember (Z.to_nat (hi - lo)) as n eqn:Hn.
  revert lo acc s Hle HI Hbody HQ Hn. induction n as [|n IH]; intros.
  - assert (hi = lo) as -> by lia. rewrite Z.sub_diag. simpl.
    apply wp_ret. by apply HQ.
  - assert (hi - lo = Z.succ (Z.of_nat n)) as -> by lia.
    rewrite seqZ_cons by lia. rewrite Z.pred_succ, <- Z.add_1_r. simpl.
    apply wp_bind. eapply wp_mono; [apply Hbody; [lia|done]|].
    intros acc' s' Hp HI'. simpl in HI'.
    assert (Z.of_nat n = hi - (lo + 1)) as -> by lia.
    apply IH; [lia|done| |intros; apply HQ; [by etrans|done]|lia].
    intros. apply Hbody; [lia|done].
Qed.

(** A [while] loop with invariant [I] and a measure that each iteration
    decreases; the measure at entry must fit the loop's bound. *)
Lemma wp_while {R} (I : R → store A T → Prop) (measure : R → nat) bound
    (cond : R → bool) (body : R → M A T R) acc s Q :
  I acc s →
  (measure acc ≤ bound)%nat →
  (∀ acc s, I acc s → cond acc = true →
     wp (body acc) s (λ acc' s', I acc' s' ∧ (measure acc' < measure acc)%nat)) →
  (∀ acc s', steps s `prefix_of` steps s' → I acc s' → cond acc = false → Q acc s') →
  wp (while_loop bound cond body acc) s Q.
Proof.
  intros HI Hm Hbody HQ.
  revert acc s HI Hm HQ. induction bound as [|bound IH]; intros; simpl.
  - destruct (cond acc) eqn:Hc.
    + specialize (Hbody _ _ HI Hc). apply wp_elim in Hbody as (?&?&_&[_ ?]&_). lia.
    + apply wp_ret. by apply HQ.
  - destruct (cond acc) eqn:Hc.
    + apply wp_bind. eapply wp_mono; [by apply Hbody|].
      intros acc' s' Hp [HI' Hlt]. simpl.
      apply IH; [done|lia|]. intros. apply HQ; [by etrans|done..].
    + apply wp_ret. by apply HQ.
Qed.
End wp_rules.

(** ** Arrays: in-place changes confined to an index range

    [frame_perm low high a a']: [a'] is [a] with the elements at the
    (inclusive) positions [low..high] permuted and every other position
    untouched. *)

Section arrays.
Context {A : Type}.
Implicit Types (a : list A) (low high k : Z).

Definition frame_perm low high a a' : Prop :=
  ∃ pre seg seg' post,
    a = pre ++ seg ++ post ∧ a' = pre ++ seg' ++ post ∧
    Z.of_nat (length pre) = low ∧ Z.of_nat (length seg) = high + 1 - low ∧
    seg ≡ₚ seg'.

Lemma frame_perm_refl low high a :
  0 ≤ low → low ≤ high + 1 → high < Z.of_nat (length a) → frame_perm low high a a.
Proof.
  intros H0 H1 H2.
  exists (take (Z.to_nat low) a),
         (take (Z.to_nat (high + 1 - low)) (drop (Z.to_nat low) a)),
         (take (Z.to_nat (high + 1 - low)) (drop (Z.to_nat low) a)),
         (drop (Z.to_nat (high + 1 - low)) (drop (Z.to_nat low) a)).
  rewrite !take_drop. repeat split; try done.
  - rewrite length_take. lia.
  - rewrite length_take, length_drop. lia.
Qed.

Lemma frame_perm_length low high a a' :
  frame_perm low high a a' → length a' = length a.
Proof.
  intros (pre&seg&seg'&post&->&->&_&_&Hp).
  rewrite !length_app. by rewrite (Permutation_length Hp).
Qed.

Lemma frame_perm_Permutation low high a a' :
  frame_perm low high a a' → a ≡ₚ a'.
Proof. intros (pre&seg&seg'&post&->&->&_&_&Hp). by rewrite Hp. Qed.

Lemma frame_perm_bounds low high a a' :
  frame_perm low high a a' → 0 ≤ low ∧ low ≤ high + 1 ∧ high < Z.of_nat (length a).
Proof.
  intros (pre&seg&seg'&post&->&->&Hl&Hs&_). rewrite !length_app. lia.
Qed.

Lemma frame_perm_outside low high a a' k :
  frame_perm low high a a' → 0 ≤ k → k < low ∨ high < k →
  a' !! Z.to_nat k = a !! Z.to_nat k.
Proof.
  intros (pre&seg&seg'&post&->&->&Hl&Hs&Hp) Hk [Hlt|Hgt].
  - rewrite !lookup_app_l by lia. done.
  - pose proof (Permutation_length Hp) as Hlen.
    rewrite !(lookup_app_r pre) by lia.
    rewrite !lookup_app_r by lia. by rewrite Hlen.
Qed.

Lemma frame_perm_trans low high a a' a'' :
  frame_perm low high a a' → frame_perm low high a' a'' → frame_perm low high a a''.
Proof.
  intros (pre&seg&seg'&post&->&->&Hl&Hs&Hp) (pre2&seg2&seg2'&post2&Heq&->&Hl2&Hs2&Hp2).
  apply app_inj_1 in Heq as [<- Heq]; [|lia].
  apply app_inj_1 in Heq as [<- <-]; [|rewrite <- (Permutation_length Hp); lia].
  exists pre, seg, seg2', post. repeat split; try done. by etrans.
Qed.

Lemma frame_perm_widen low high low' high' a a' :
  0 ≤ low' → low' ≤ low → high ≤ high' → high' < Z.of_nat (length a) →
  frame_perm low high a a' → frame_perm low' high' a a'.
Proof.
  intros H0 H1 H2 H3 (pre&seg&seg'&post&->&->&Hl&Hs&Hp).
  rewrite !length_app in H3.
  exists (take (Z.to_nat low') pre),
         (drop (Z.to_nat low') pre ++ seg ++ take (Z.to_nat (high' - high)) post),
         (drop (Z.to_nat low') pre ++ seg' ++ take (Z.to_nat (high' - high)) post),
         (drop (Z.to_nat (high' - high)) post).
  split; [|split; [|split; [|split]]].
  - rewrite <- !(assoc_L (++)), take_drop.
    by rewrite (assoc_L (++) (take _ pre)), take_drop.
  - rewrite <- !(assoc_L (++)), take_drop.
    by rewrite (assoc_L (++) (take _ pre)), take_drop.
  - rewrite length_take. lia.
  - rewrite !length_app, length_take, length_drop. lia.
  - by rewrite Hp.
Qed.

Lemma frame_perm_swap low high a i j x y :
  low ≤ i ≤ high → low ≤ j ≤ high → 0 ≤ low → high < Z.of_nat (length a) →
  a !! Z.to_nat i = Some x → a !! Z.to_nat j = Some y →
  frame_perm low high a (<[Z.to_nat j:=x]> (<[Z.to_nat i:=y]> a)).
Proof.
  intros Hi Hj H0 Hlen Hx Hy.
  destruct (frame_perm_refl low high a) as (pre&seg&?&post&Ha&_&Hl&Hs&_); [lia..|].
  exists pre, seg,
    (<[(Z.to_nat j - length pre)%nat:=x]> (<[(Z.to_nat i - length pre)%nat:=y]> seg)), post.
  split; [done|]. split; [|split; [done|split; [done|]]].
  - rewrite Ha at 1.
    rewrite (insert_app_r_alt pre) by lia.
    rewrite (insert_app_l seg) by lia.
    rewrite (insert_app_r_alt pre) by lia.
    rewrite insert_app_l by (rewrite length_insert; lia). done.
  - symmetry. apply Permutation_insert_swap.
    + rewrite Ha in Hx. rewrite lookup_app_r, lookup_app_l in Hx by lia. done.
    + rewrite Ha in Hy. rewrite lookup_app_r, lookup_app_l in Hy by lia. done.
Qed.

(** A property of every element of the range survives the permutation. *)
Lemma frame_perm_all (P : A → Prop) low high a a' :
  frame_perm low high a a' →
  (∀ k x, low ≤ k ≤ high → a !! Z.to_nat k = Some x → P x) →
  ∀ k x, low ≤ k ≤ high → a' !! Z.to_nat k = Some x → P x.
Proof.
  intros (pre&seg&seg'&post&->&->&Hl&Hs&Hp) HP k x Hk Hx.
  pose proof (Permutation_length Hp) as Hlen.
  rewrite lookup_app_r, lookup_app_l in Hx by lia.
  apply list_elem_of_lookup_2 in Hx. rewrite <- Hp in Hx.
  apply list_elem_of_lookup_1 in Hx as [n Hn].
  pose proof (lookup_lt_Some _ _ _ Hn).
  apply (HP (Z.of_nat (length pre + n))); [lia|].
  rewrite lookup_app_r, lookup_app_l by lia.
  rewrite <- Hn. f_equal. lia.
Qed.
End arrays.

(** Sortedness of the positions [low..high] of an integer array. *)
Definition sorted_range (low high : Z) (a : list Z) : Prop :=
  ∀ k1 k2 x y, low ≤ k1 → k1 ≤ k2 → k2 ≤ high →
    a !! Z.to_nat k1 = Some x → a !! Z.to_nat k2 = Some y → x ≤ y.

Lemma sorted_range_Sorted (a : list Z) :
  sorted_range 0 (Z.of_nat (length a) - 1) a → Sorted Z.le a.
Proof.
  intros Hs. apply StronglySorted_Sorted.
  induction a as [|x a IH]; [constructor|].
  constructor.
  - apply IH. intros k1 k2 y1 y2 ??? H1 H2.
    apply (Hs (k1 + 1) (k2 + 1)); [lia|lia|simpl length; lia|..].
    + replace (Z.to_nat (k1 + 1)) with (S (Z.to_nat k1)) by lia. done.
    + replace (Z.to_nat (k2 + 1)) with (S (Z.to_nat k2)) by lia. done.
  - apply Forall_forall. intros y Hy.
    apply list_elem_of_lookup_1 in Hy as [n Hn].
    pose proof (lookup_lt_Some _ _ _ Hn).
    apply (Hs 0 (Z.of_nat (S n))); [lia|lia|simpl length; lia|done|].
    rewrite Nat2Z.id. done.
Qed.

Lemma lookup_swap {A} (a : list A) (i j k : nat) (x y z : A) :
  a !! i = Some x → a !! j = Some y →
  <[j:=x]> (<[i:=y]> a) !! k = Some z →
  (k = j ∧ z = x) ∨ (k ≠ j ∧ k = i ∧ z = y) ∨ (k ≠ i ∧ k ≠ j ∧ a !! k = Some z).
Proof.
  intros Hx Hy Hz.
  pose proof (lookup_lt_Some _ _ _ Hx). pose proof (lookup_lt_Some _ _ _ Hy).
  destruct (decide (k = j)) as [->|Hkj].
  - rewrite list_lookup_insert_eq in Hz by (rewrite length_insert; lia).
    left. split; congruence.
  - rewrite list_lookup_insert_ne in Hz by done.
    destruct (decide (k = i)) as [->|Hki].
    + rewrite list_lookup_insert_eq in Hz by lia. right; left. repeat split; congruence.
    + rewrite list_lookup_insert_ne in Hz by done. right; right. done.
Qed.

(** ** Quick sort: the partition and the recursion *)

Section quicksort_correct.
Import QuickSort.
Implicit Types (s : store Z step) (low high : Z).

(** Invariant of the scan in [partition], before the iteration for [j]:
    positions [low..i] hold values [<= pivot], positions [i+1..j-1] hold
    values [> pivot], and the pivot still sits at [high]. *)
Definition scan_inv (a0 : list Z) low high (pivot : Z) (j i : Z) s : Prop :=
  low - 1 ≤ i ∧ i < j ∧
  frame_perm low high a0 (arr s) ∧
  arr s !! Z.to_nat high = Some pivot ∧
  (∀ k x, low ≤ k ≤ i → arr s !! Z.to_nat k = Some x → x ≤ pivot) ∧
  (∀ k x, i < k < j → arr s !! Z.to_nat k = Some x → pivot < x).

Lemma partition_body_spec a0 low high pivot j i s :
  low ≤ j < high →
  scan_inv a0 low high pivot j i s →
  wp (partition_body pivot high j i) s
     (λ i' s', scan_inv a0 low high pivot (j + 1) i' s').
Proof.
  intros Hj (Hi1 & Hi2 & Hf & Hpv & Hle & Hgt).
  pose proof (frame_perm_bounds _ _ _ _ Hf) as (H0 & _ & Hhi).
  pose proof (frame_perm_length _ _ _ _ Hf) as Hlen.
  destruct (lookup_lt_is_Some_2 (arr s) (Z.to_nat j)) as [aj Haj]; [lia|].
  unfold partition_body.
  apply wp_bind, (wp_getitem _ aj); [lia|done|].
  apply wp_bind, wp_record_step.
  apply wp_bind, (wp_getitem _ aj); [lia|done|].
  case_bool_decide as Hcmp.
  - case_bool_decide as Hij.
    + destruct (lookup_lt_is_Some_2 (arr s) (Z.to_nat (i + 1))) as [ai Hai]; [lia|].
      apply wp_bind, (wp_getitem _ ai); [lia|done|].
      apply wp_bind, (wp_getitem _ aj); [lia|done|].
      apply wp_bind, wp_record_step.
      apply wp_bind, (wp_swap _ _ ai aj); [lia|lia|done|done|].
      apply wp_bind, wp_record_step. apply wp_ret; unfold scan_inv; simpl.
      assert (pivot < ai) as Hbig by (apply (Hgt (i + 1)); [lia|done]).
      split; [lia|]. split; [lia|]. split; [|split; [|split]].
      * eapply frame_perm_trans; [done|].
        apply frame_perm_swap; [lia|lia|lia|lia|done|done].
      * rewrite !list_lookup_insert_ne by lia. done.
      * intros k x Hk Hx.
        destruct (lookup_swap _ _ _ _ _ _ _ Hai Haj Hx) as [[? ->]|[(?&?&->)|(?&?&?)]];
          [lia|done|]. apply (Hle k); [lia|done].
      * intros k x Hk Hx.
        destruct (lookup_swap _ _ _ _ _ _ _ Hai Haj Hx) as [[? ->]|[(?&?&->)|(?&?&?)]];
          [done|lia|]. apply (Hgt k); [lia|done].
    + apply wp_ret; unfold scan_inv; simpl.
      split; [lia|]. split; [lia|]. split; [done|]. split; [done|]. split.
      * intros k x Hk Hx. destruct (decide (k = j)) as [->|].
        -- assert (x = aj) as -> by congruence. done.
        -- apply (Hle k); [lia|done].
      * intros k x Hk Hx. lia.
  - apply wp_ret; unfold scan_inv; simpl.
    split; [lia|]. split; [lia|]. split; [done|]. split; [done|]. split; [done|].
    intros k x Hk Hx. destruct (decide (k = j)) as [->|].
    + assert (x = aj) as -> by congruence. lia.
    + apply (Hgt k); [lia|done].
Qed.

(** The "partition completed" record for a scan that ended with boundary [i]. *)
Definition partition_completed (low high i : Z) (a : list Z) : step :=
  Step a (i + 1) []
    (if bool_decide (i >= low) then Some (low, i) else None)
    (if bool_decide (i + 2 ≤ high) then Some (i + 2, high) else None)
    ("Partition completed. Pivot position: " +:+ pretty (i + 1)).

Lemma partition_spec low high s :
  0 ≤ low → low ≤ high → high < Z.of_nat (length (arr s)) →
  wp (partition low high) s (λ p s',
    low ≤ p ≤ high ∧
    frame_perm low high (arr s) (arr s') ∧
    (∃ pivot, arr s' !! Z.to_nat p = Some pivot ∧
       (∀ k x, low ≤ k < p → arr s' !! Z.to_nat k = Some x → x ≤ pivot) ∧
       (∀ k x, p < k ≤ high → arr s' !! Z.to_nat k = Some x → pivot < x)) ∧
    last (steps s') = Some (partition_completed low high (p - 1) (arr s')) ∧
    arr s' !! Z.to_nat p = arr s !! Z.to_nat high).
Proof.
  intros H0 Hlh Hhi.
  destruct (lookup_lt_is_Some_2 (arr s) (Z.to_nat high)) as [pivot Hpv]; [lia|].
  unfold partition.
  apply wp_bind, (wp_getitem _ pivot); [lia|done|].
  apply wp_bind, wp_record_step.
  apply wp_bind.
  apply (wp_for_range (scan_inv (arr s) low high pivot)); [done| | |].
  - unfold scan_inv; simpl.
    split; [lia|]. split; [lia|]. split; [apply frame_perm_refl; lia|].
    split; [done|]. split; intros; lia.
  - intros j i s1 Hj Hinv. by apply partition_body_spec.
  - intros i s1 _ (Hi1 & Hi2 & Hf & Hpv1 & Hle & Hgt).
    pose proof (frame_perm_length _ _ _ _ Hf) as Hlen.
    case_bool_decide as Hne.
    + destruct (lookup_lt_is_Some_2 (arr s1) (Z.to_nat (i + 1))) as [ai Hai]; [lia|].
      assert (pivot < ai) as Hbig by (apply (Hgt (i + 1)); [lia|done]).
      apply wp_bind, wp_bind, wp_record_step.
      apply (wp_swap _ _ ai pivot); [lia|lia|done|done|].
      apply wp_bind, wp_record_step. apply wp_ret. simpl.
      split; [lia|]. split; [|split].
      * eapply frame_perm_trans; [done|].
        apply frame_perm_swap; [lia|lia|lia|lia|done|done].
      * exists pivot. split; [|split].
        -- rewrite list_lookup_insert_ne by lia.
           apply list_lookup_insert_eq. apply lookup_lt_Some in Hai. done.
        -- intros k x Hk Hx.
           destruct (lookup_swap _ _ _ _ _ _ _ Hai Hpv1 Hx) as [[? ->]|[(?&?&->)|(?&?&?)]];
             [lia|lia|]. apply (Hle k); [lia|done].
        -- intros k x Hk Hx.
           destruct (lookup_swap _ _ _ _ _ _ _ Hai Hpv1 Hx) as [[? ->]|[(?&?&->)|(?&?&?)]];
             [done|lia|]. apply (Hgt k); [lia|done].
      * rewrite last_snoc. unfold partition_completed.
        split; [by replace (i + 1 - 1) with i by lia|].
        rewrite Hpv. rewrite list_lookup_insert_ne by lia.
        apply list_lookup_insert_eq. apply lookup_lt_Some in Hai. done.
    + apply wp_bind, wp_ret. apply wp_bind, wp_record_step. apply wp_ret. simpl.
      split; [lia|]. split; [done|]. split.
      * exists pivot. split; [by rewrite Hne|]. split.
        -- intros k x Hk Hx. apply (Hle k); [lia|done].
        -- intros k x Hk Hx. lia.
      * rewrite last_snoc. unfold partition_completed.
        split; [by replace (i + 1 - 1) with i by lia|].
        by rewrite Hpv, Hne.
Qed.

Lemma sorted_range_small low high (a : list Z) :
  high ≤ low → 0 ≤ low → sorted_range low high a.
Proof.
  intros Hle H0 k1 k2 x y ??? Hx Hy.
  assert (k1 = k2) as -> by lia. assert (x = y) as -> by congruence. done.
Qed.

(** What the two recursive calls add up to, given the partition. *)
Lemma quicksort_combine low high p pivot (a1 a2 a3 : list Z) :
  0 ≤ low → low ≤ p ≤ high → high < Z.of_nat (length a1) →
  a1 !! Z.to_nat p = Some pivot →
  (∀ k x, low ≤ k < p → a1 !! Z.to_nat k = Some x → x ≤ pivot) →
  (∀ k x, p < k ≤ high → a1 !! Z.to_nat k = Some x → pivot < x) →
  frame_perm low (p - 1) a1 a2 → sorted_range low (p - 1) a2 →
  frame_perm (p + 1) high a2 a3 → sorted_range (p + 1) high a3 →
  frame_perm low high a1 a3 ∧ sorted_range low high a3.
Proof.
  intros H0 Hp Hhi Hpv Hle Hgt Hf1 Hs1 Hf2 Hs2.
  pose proof (frame_perm_length _ _ _ _ Hf1) as Hlen1.
  assert (∀ k x, low ≤ k < p → a3 !! Z.to_nat k = Some x → x ≤ pivot) as Hle3.
  { intros k x Hk Hx.
    rewrite (frame_perm_outside _ _ _ _ _ Hf2) in Hx by lia.
    apply (frame_perm_all (λ x, x ≤ pivot) _ _ _ _ Hf1) with k; [|lia|done].
    intros k' x' ??. apply (Hle k'); [lia|done]. }
  assert (a3 !! Z.to_nat p = Some pivot) as Hpv3.
  { rewrite (frame_perm_outside _ _ _ _ _ Hf2) by lia.
    rewrite (frame_perm_outside _ _ _ _ _ Hf1) by lia. done. }
  assert (∀ k x, p < k ≤ high → a3 !! Z.to_nat k = Some x → pivot < x) as Hgt3.
  { intros k x Hk Hx.
    apply (frame_perm_all (λ x, pivot < x) _ _ _ _ Hf2) with k; [|lia|done].
    intros k' x' ? Hx'. rewrite (frame_perm_outside _ _ _ _ _ Hf1) in Hx' by lia.
    apply (Hgt k'); [lia|done]. }
  split.
  - eapply frame_perm_trans.
    + apply (frame_perm_widen low (p - 1)); [lia..|done].
    + apply (frame_perm_widen (p + 1) high); [lia..|done].
  - intros k1 k2 x y Hk1 Hk12 Hk2 Hx Hy.
    destruct (Z.lt_trichotomy k2 p) as [?|[->|?]].
    + rewrite (frame_perm_outside _ _ _ _ _ Hf2) in Hx by lia.
      rewrite (frame_perm_outside _ _ _ _ _ Hf2) in Hy by lia.
      apply (Hs1 k1 k2); [lia..|done|done].
    + destruct (decide (k1 = p)) as [->|].
      * assert (x = y) as -> by congruence. done.
      * assert (y = pivot) as -> by congruence. apply (Hle3 k1); [lia|done].
    + destruct (Z.lt_trichotomy k1 p) as [?|[->|?]].
      * pose proof (Hle3 k1 x ltac:(lia) Hx).
        pose proof (Hgt3 k2 y ltac:(lia) Hy). lia.
      * assert (x = pivot) as -> by congruence.
        pose proof (Hgt3 k2 y ltac:(lia) Hy). lia.
      * apply (Hs2 k1 k2); [lia..|done|done].
Qed.

Lemma quicksort_rec_spec depth : ∀ low high s,
  0 ≤ low → low ≤ high + 1 → high < Z.of_nat (length (arr s)) →
  high - low ≤ Z.of_nat depth →
  wp (quicksort_rec depth low high) s (λ _ s',
    frame_perm low high (arr s) (arr s') ∧ sorted_range low high (arr s')).
Proof.
  induction depth as [|depth IH]; intros low high s H0 Hlh Hhi Hd; simpl.
  - rewrite bool_decide_eq_false_2 by lia. apply wp_ret.
    split; [by apply frame_perm_refl|]. apply sorted_range_small; lia.
  - case_bool_decide as Hlt; cycle 1.
    { apply wp_ret. split; [by apply frame_perm_refl|]. apply sorted_range_small; lia. }
    apply wp_bind, wp_record_step. apply wp_bind.
    eapply wp_mono; [apply partition_spec; simpl; lia|].
    intros p s1 _ (Hp & Hf & (pivot & Hpv & Hle & Hgt) & _). simpl in Hf.
    pose proof (frame_perm_length _ _ _ _ Hf) as Hlen.
    apply wp_bind.
    apply wp_mono with (Q := λ _ s2,
      frame_perm low (p - 1) (arr s1) (arr s2) ∧ sorted_range low (p - 1) (arr s2)).
    { case_bool_decide.
      - apply wp_bind, wp_record_step.
        eapply wp_mono; [apply IH; simpl; lia|]. by simpl.
      - apply wp_ret. split; [apply frame_perm_refl; lia|].
        apply sorted_range_small; lia. }
    intros _ s2 _ [Hf1 Hs1].
    pose proof (frame_perm_length _ _ _ _ Hf1) as Hlen1.
    apply wp_mono with (Q := λ _ s3,
      frame_perm (p + 1) high (arr s2) (arr s3) ∧ sorted_range (p + 1) high (arr s3)).
    { case_bool_decide.
      - apply wp_bind, wp_record_step.
        eapply wp_mono; [apply IH; simpl; lia|]. by simpl.
      - apply wp_ret. split; [apply frame_perm_refl; lia|].
        apply sorted_range_small; lia. }
    intros _ s3 _ [Hf2 Hs2].
    destruct (quicksort_combine low high p pivot (arr s1) (arr s2) (arr s3))
      as [Hf3 Hs3]; [lia|done|lia|done..|].
    split; [|done]. by eapply frame_perm_trans.
Qed.

Lemma quicksort_spec low high s :
  0 ≤ low → low ≤ high + 1 → high < Z.of_nat (length (arr s)) →
  wp (quicksort low high) s (λ _ s',
    frame_perm low high (arr s) (arr s') ∧ sorted_range low high (arr s')).
Proof. intros. apply quicksort_rec_spec; lia. Qed.
End quicksort_correct.

(** ** What every engine owes the controller

    One run on [a] returns normally; the first record holds [a] itself, the
    last record holds the final array, and that array is a sorted
    rearrangement of [a]. *)

Definition sort_run_ok {T} `{!Engine T} (a : list Z) : Prop :=
  ∃ a' st first final,
    run_engine a = Ok (a', st) ∧
    head st = Some first ∧ snapshot first = a ∧
    last st = Some final ∧ snapshot final = a' ∧
    a' ≡ₚ a ∧ Sorted Z.le a'.

(** The shape shared by the three [sort_algorithm]s: an initial record, the
    sort proper, a final record. *)
Lemma sort_run_ok_intro {T} `{!Engine T} (a : list Z) :
  wp sort_algorithm (Store a []) (λ _ s',
    (∃ first, head (steps s') = Some first ∧ snapshot first = a) ∧
    (∃ final, last (steps s') = Some final ∧ snapshot final = arr s') ∧
    arr s' ≡ₚ a ∧ Sorted Z.le (arr s')) →
  sort_run_ok a.
Proof.
  intros Hwp. apply wp_elim in Hwp as (r & [a' st] & Hrun & Hpost & _).
  destruct Hpost as ((first & Hh & Hs) & (final & Hl & Hf) & Hperm & Hsorted).
  exists a', st, first, final. unfold run_engine. rewrite Hrun. done.
Qed.

Lemma quick_sort_run_ok (a : list Z) : sort_run_ok (T := QuickSort.step) a.
Proof.
  apply sort_run_ok_intro. simpl. unfold QuickSort.sort_algorithm.
  apply wp_bind, wp_record_step. apply wp_bind, wp_len. apply wp_bind.
  eapply wp_mono; [apply quicksort_spec; simpl; lia|].
  intros _ s1 [k Hk] [Hf Hs]. simpl in *.
  apply wp_record_step. simpl. split; [|split; [|split]].
  - eexists. rewrite Hk. simpl. done.
  - eexists. rewrite last_snoc. done.
  - symmetry. by eapply frame_perm_Permutation.
  - apply sorted_range_Sorted.
    by rewrite (frame_perm_length _ _ _ _ Hf).
Qed.

(** ** Selection sort: the scan for the minimum and the rounds *)

Section selectionsort_correct.
Import SelectionSort.
Implicit Types (s : store Z step) (a : list Z).

(** Invariant of the inner scan before the iteration for [j]: the array
    is untouched and [min_idx] points at a least value of [i..j-1]. *)
Definition min_inv a (i j min_idx : Z) s : Prop :=
  arr s = a ∧ i ≤ min_idx ∧ min_idx < j ∧
  ∃ am, a !! Z.to_nat min_idx = Some am ∧
    ∀ k x, i ≤ k < j → a !! Z.to_nat k = Some x → am ≤ x.

Lemma scan_body_spec a i sorted_indices j min_idx s :
  0 ≤ i → i < j < Z.of_nat (length a) →
  min_inv a i j min_idx s →
  wp (scan_body i sorted_indices j min_idx) s
     (λ min_idx' s', min_inv a i (j + 1) min_idx' s').
Proof.
  intros H0 Hj (Ha & Hm1 & Hm2 & am & Ham & Hmin).
  destruct (lookup_lt_is_Some_2 a (Z.to_nat j)) as [aj Haj]; [lia|].
  unfold scan_body. rewrite <- Ha in Haj, Ham.
  apply wp_bind, (wp_getitem _ aj); [lia|done|].
  apply wp_bind, (wp_getitem _ am); [lia|done|].
  apply wp_bind, wp_record_step.
  apply wp_bind, (wp_getitem _ aj); [lia|done|].
  apply wp_bind, (wp_getitem _ am); [lia|done|].
  rewrite Ha in Haj, Ham.
  case_bool_decide as Hlt.
  - apply wp_bind, (wp_getitem _ aj); [lia|simpl; by rewrite Ha|].
    apply wp_bind, wp_record_step. apply wp_ret; unfold min_inv; simpl.
    split; [done|]. split; [lia|]. split; [lia|].
    exists aj. split; [done|]. intros k x Hk Hx.
    destruct (decide (k = j)) as [->|].
    + assert (x = aj) as -> by congruence. done.
    + pose proof (Hmin k x ltac:(lia) Hx). lia.
  - apply wp_ret; unfold min_inv; simpl.
    split; [done|]. split; [lia|]. split; [lia|].
    exists am. split; [done|]. intros k x Hk Hx.
    destruct (decide (k = j)) as [->|].
    + assert (x = aj) as -> by congruence. lia.
    + apply (Hmin k); [lia|done].
Qed.

(** Invariant of the rounds before round [i]: positions [0..i-1] are
    sorted and hold values no larger than any value further right. *)
Definition round_inv (a0 : list Z) (i : Z) a : Prop :=
  frame_perm 0 (Z.of_nat (length a0) - 1) a0 a ∧
  sorted_range 0 (i - 1) a ∧
  (∀ k1 k2 x y, 0 ≤ k1 < i → i ≤ k2 < Z.of_nat (length a0) →
     a !! Z.to_nat k1 = Some x → a !! Z.to_nat k2 = Some y → x ≤ y).

(** The effect of one round: the minimum found at [m] trades places with
    position [i] (a no-op when [m = i]). *)
Lemma round_inv_step a0 i m a ai am :
  0 ≤ i → i ≤ m < Z.of_nat (length a0) →
  a !! Z.to_nat i = Some ai → a !! Z.to_nat m = Some am →
  (∀ k x, i ≤ k < Z.of_nat (length a0) → a !! Z.to_nat k = Some x → am ≤ x) →
  round_inv a0 i a →
  round_inv a0 (i + 1) (<[Z.to_nat m:=ai]> (<[Z.to_nat i:=am]> a)).
Proof.
  intros H0 Hm Hai Ham Hmin (Hf & Hs & Hc).
  pose proof (frame_perm_length _ _ _ _ Hf) as Hlen.
  split; [|split].
  - eapply frame_perm_trans; [done|].
    apply frame_perm_swap; [lia|lia|lia|lia|done|done].
  - intros k1 k2 x y Hk1 Hk12 Hk2 Hx Hy.
    destruct (decide (k1 = k2)) as [->|Hne].
    { assert (x = y) as -> by congruence. done. }
    destruct (lookup_swap _ _ _ _ _ _ _ Hai Ham Hx) as [[? ->]|[(?&?&->)|(?&?&Hx')]];
    destruct (lookup_swap _ _ _ _ _ _ _ Hai Ham Hy) as [[? ->]|[(?&?&->)|(?&?&Hy')]];
      first [ lia
            | apply (Hc k1 i); [lia|lia|done|done]
            | apply (Hc k1 m); [lia|lia|done|done]
            | apply (Hs k1 k2); [lia..|done|done] ].
  - intros k1 k2 x y Hk1 Hk2 Hx Hy.
    destruct (lookup_swap _ _ _ _ _ _ _ Hai Ham Hx) as [[? ->]|[(?&?&->)|(?&?&Hx')]];
    destruct (lookup_swap _ _ _ _ _ _ _ Hai Ham Hy) as [[? ->]|[(?&?&->)|(?&?&Hy')]];
      first [ lia
            | apply (Hmin i); [lia|done]
            | apply (Hmin k2); [lia|done]
            | apply (Hc k1 i); [lia|lia|done|done]
            | apply (Hc k1 k2); [lia|lia|done|done]
            | idtac ].
    assert (m = i) as -> by lia. assert (ai = am) as -> by congruence.
    apply (Hmin k2); [lia|done].
Qed.

Lemma round_body_spec a0 i sorted_indices s :
  0 ≤ i < Z.of_nat (length a0) →
  round_inv a0 i (arr s) →
  wp (round_body (Z.of_nat (length a0)) i sorted_indices) s
     (λ _ s', round_inv a0 (i + 1) (arr s')).
Proof.
  intros Hi Hinv. pose proof Hinv as (Hf & _ & _).
  pose proof (frame_perm_length _ _ _ _ Hf) as Hlen.
  destruct (lookup_lt_is_Some_2 (arr s) (Z.to_nat i)) as [ai Hai]; [lia|].
  unfold round_body.
  apply wp_bind, wp_record_step.
  apply wp_bind, (wp_getitem _ ai); [lia|done|].
  apply wp_bind, wp_record_step. apply wp_bind.
  apply (wp_for_range (min_inv (arr s) i)); [lia| | |].
  - unfold min_inv; simpl. split; [done|]. split; [lia|]. split; [lia|].
    exists ai. split; [done|]. intros k x Hk Hx.
    assert (k = i) as -> by lia. assert (x = ai) as -> by congruence. done.
  - intros j m s1 Hj Hmin. apply scan_body_spec; [lia|lia|done].
  - intros m s1 _ (Ha & Hm1 & Hm2 & am & Ham & Hmin).
    rewrite <- Ha in Ham, Hai.
    assert (round_inv a0 (i + 1)
              (<[Z.to_nat m:=ai]> (<[Z.to_nat i:=am]> (arr s1)))) as Hnext.
    { apply round_inv_step; [lia|lia|done|done| |by rewrite Ha].
      intros k x Hk Hx. rewrite Ha in Hx. apply (Hmin k); [lia|done]. }
    pose proof Hnext as (Hf' & _ & _).
    pose proof (frame_perm_length _ _ _ _ Hf') as Hlen'.
    destruct (lookup_lt_is_Some_2 (<[Z.to_nat m:=ai]> (<[Z.to_nat i:=am]> (arr s1)))
                (Z.to_nat i)) as [ai' Hai']; [lia|].
    case_bool_decide as Hne.
    + apply wp_bind, wp_bind, (wp_getitem _ ai); [lia|done|].
      apply wp_bind, (wp_getitem _ am); [lia|done|].
      apply wp_bind, wp_record_step.
      apply wp_bind, (wp_swap _ _ ai am); [lia|lia|done|done|].
      apply wp_bind, (wp_getitem _ ai'); [lia|done|].
      apply wp_record_step.
      apply wp_bind, (wp_getitem _ ai'); [lia|done|].
      apply wp_bind, wp_record_step. apply wp_ret. done.
    + subst m. assert (am = ai) as -> by congruence.
      rewrite !(list_insert_id (arr s1)) in Hnext, Hai' by done.
      apply wp_bind, wp_bind, (wp_getitem _ ai); [lia|done|].
      apply wp_record_step.
      apply wp_bind, (wp_getitem _ ai); [lia|done|].
      apply wp_bind, wp_record_step. apply wp_ret. done.
Qed.
End selectionsort_correct.

Lemma selection_sort_run_ok (a : list Z) : sort_run_ok (T := SelectionSort.step) a.
Proof.
  apply sort_run_ok_intro. simpl. unfold SelectionSort.sort_algorithm.
  apply wp_bind, wp_len. apply wp_bind, wp_record_step. apply wp_bind. simpl.
  apply (wp_for_range (λ i _ s, round_inv a i (arr s))); [lia| | |].
  - simpl. split; [apply frame_perm_refl; lia|].
    split; [apply sorted_range_small; lia|]. intros; lia.
  - intros i acc s Hi Hinv. by apply round_body_spec.
  - intros _ s1 [k Hk] (Hf & Hs & _). simpl in *.
    apply wp_record_step. simpl. split; [|split; [|split]].
    + eexists. rewrite Hk. simpl. done.
    + eexists. rewrite last_snoc. done.
    + symmetry. by eapply frame_perm_Permutation.
    + apply sorted_range_Sorted.
      by rewrite (frame_perm_length _ _ _ _ Hf).
Qed.

(** ** Merge sort: stable merging of lists *)

Section stable_merge.
Context {A : Type} (key : A → Z).

(** The order the engine sorts by, and the elements of one key. *)
Definition key_le (x y : A) : Prop := key x ≤ key y.
Definition same_key (v : Z) (x : A) : Prop := key x = v.

#[export] Instance key_le_dec : RelDecision key_le.
Proof. intros x y. unfold key_le. apply _. Defined.
#[export] Instance same_key_dec v x : Decision (same_key v x).
Proof. unfold same_key. apply _. Defined.
#[export] Instance key_le_total : Total key_le.
Proof. intros x y. unfold key_le. lia. Qed.
#[export] Instance key_le_trans : Transitive key_le.
Proof. intros x y z. unfold key_le. lia. Qed.

(** [l'] is a stable sort of [l]: sorted by key, and for every key the
    elements carrying it appear in [l'] in the order they have in [l]. *)
Definition stable_sort_of (l l' : list A) : Prop :=
  l' ≡ₚ l ∧ Sorted key_le l' ∧
  ∀ v, filter (same_key v) l' = filter (same_key v) l.

Lemma filter_none (P : A → Prop) `{!∀ x, Decision (P x)} (l : list A) :
  Forall (λ x, ¬ P x) l → filter P l = [].
Proof.
  induction 1 as [|x l Hx _ IH]; [done|]. by rewrite filter_cons_False.
Qed.

(** Merging with preference for the left list keeps the elements of each
    key in order: first those of the left list, then those of the right. *)
Lemma list_merge_stable v (l1 : list A) : ∀ l2,
  Sorted key_le l1 →
  filter (same_key v) (list_merge key_le l1 l2)
  = filter (same_key v) l1 ++ filter (same_key v) l2.
Proof.
  induction l1 as [|x l1 IH]; intros l2 Hs.
  { by rewrite list_merge_nil_l. }
  induction l2 as [|y l2 IH2].
  { by rewrite list_merge_nil_r, filter_nil, app_nil_r. }
  rewrite list_merge_cons. destruct (decide (key_le x y)) as [Hxy|Hxy].
  - rewrite !(filter_cons _ x), IH by (by eapply Sorted_inv).
    by destruct (decide (same_key v x)).
  - rewrite !(filter_cons _ y), IH2.
    destruct (decide (same_key v y)) as [Hv|Hv]; [|done].
    rewrite (filter_none _ (x :: l1)); [done|].
    apply (Sorted_StronglySorted _) in Hs.
    apply StronglySorted_inv in Hs as [_ Hall].
    constructor.
    + unfold same_key, key_le in *. lia.
    + eapply Forall_impl; [exact Hall|]. intros z Hz.
      unfold same_key, key_le in *. lia.
Qed.

Lemma stable_sort_of_short (l : list A) : (length l ≤ 1)%nat → stable_sort_of l l.
Proof.
  intros Hl. split; [done|]. split; [|done].
  destruct l as [|x [|y l]]; [constructor|repeat constructor|simpl in Hl; lia].
Qed.

Lemma stable_sort_of_merge (sl sr sl' sr' : list A) :
  stable_sort_of sl sl' → stable_sort_of sr sr' →
  stable_sort_of (sl ++ sr) (list_merge key_le sl' sr').
Proof.
  intros (Hp1 & Hs1 & Hf1) (Hp2 & Hs2 & Hf2). split; [|split].
  - by rewrite merge_Permutation, Hp1, Hp2.
  - by apply (Sorted_list_merge _).
  - intros v. by rewrite list_merge_stable, filter_app, Hf1, Hf2.
Qed.
End stable_merge.

Lemma py_slice_inside {A} (l : list A) (b e : Z) :
  0 ≤ b → b ≤ e → e ≤ Z.of_nat (length l) →
  py_slice l b e = take (Z.to_nat (e - b)) (drop (Z.to_nat b) l).
Proof.
  intros Hb Hbe He. unfold py_slice, norm_bound.
  rewrite !bool_decide_eq_false_2 by lia. f_equal; [lia|f_equal; lia].
Qed.

(** ** Merge sort: the in-place merge and the recursion *)

Section mergesort_correct.
Import MergeSort.
Context {A : Type} (key : A → Z) (show : A → string).
Implicit Types (s : store A (step A)) (a pre post L Rr : list A).

Abbreviation merged := (list_merge (key_le key)).

Lemma merged_take_left L Rr (i j : nat) x y :
  L !! i = Some x → Rr !! j = Some y → key x ≤ key y →
  merged (drop i L) (drop j Rr) = x :: merged (drop (S i) L) (drop j Rr).
Proof.
  intros Hx Hy Hle. rewrite (drop_S L x i), (drop_S Rr y j) by done.
  rewrite list_merge_cons. by rewrite decide_True.
Qed.

Lemma merged_take_right L Rr (i j : nat) x y :
  L !! i = Some x → Rr !! j = Some y → ¬ key x ≤ key y →
  merged (drop i L) (drop j Rr) = y :: merged (drop i L) (drop (S j) Rr).
Proof.
  intros Hx Hy Hle. rewrite (drop_S L x i), (drop_S Rr y j) by done.
  rewrite list_merge_cons. by rewrite decide_False.
Qed.

Lemma merged_rest_left L Rr (i j : nat) x :
  L !! i = Some x → (length Rr ≤ j)%nat →
  merged (drop i L) (drop j Rr) = x :: merged (drop (S i) L) (drop j Rr).
Proof.
  intros Hx Hj. rewrite (drop_ge Rr j), !list_merge_nil_r by done.
  by apply drop_S.
Qed.

Lemma merged_rest_right L Rr (i j : nat) y :
  (length L ≤ i)%nat → Rr !! j = Some y →
  merged (drop i L) (drop j Rr) = y :: merged (drop i L) (drop (S j) Rr).
Proof.
  intros Hi Hy. rewrite (drop_ge L i), !list_merge_nil_l by done.
  by apply drop_S.
Qed.

(** Invariant of the three loops of [merge]: [arr[left..k-1]] holds what the
    merge of the two buffers has produced so far, and the rest of the
    merge is what the unread parts of the buffers still give. *)
Definition merge_inv pre post L Rr (ijk : Z * Z * Z) a : Prop :=
  let '(i, j, k) := ijk in
  0 ≤ i ≤ Z.of_nat (length L) ∧ 0 ≤ j ≤ Z.of_nat (length Rr) ∧
  k = Z.of_nat (length pre) + i + j ∧
  ∃ placed rest,
    a = pre ++ placed ++ rest ++ post ∧
    Z.of_nat (length placed) = i + j ∧
    Z.of_nat (length rest) = Z.of_nat (length L) + Z.of_nat (length Rr) - i - j ∧
    placed ++ merged (drop (Z.to_nat i) L) (drop (Z.to_nat j) Rr) = merged L Rr.

(** Writing the next element of the merge at [k]. *)
Lemma merge_inv_place pre post L Rr i j k i' j' x a :
  merge_inv pre post L Rr (i, j, k) a →
  i ≤ i' ≤ Z.of_nat (length L) → j ≤ j' ≤ Z.of_nat (length Rr) →
  i' + j' = i + j + 1 →
  merged (drop (Z.to_nat i) L) (drop (Z.to_nat j) Rr)
    = x :: merged (drop (Z.to_nat i') L) (drop (Z.to_nat j') Rr) →
  0 ≤ k < Z.of_nat (length a) ∧
  merge_inv pre post L Rr (i', j', k + 1) (<[Z.to_nat k:=x]> a).
Proof.
  intros (Hi & Hj & -> & placed & rest & -> & Hp & Hr & Hm) Hi' Hj' Hsum Hx.
  destruct rest as [|r rest]; [simpl in Hr; lia|].
  split. { rewrite !length_app. simpl. lia. }
  split; [lia|]. split; [lia|]. split; [lia|].
  exists (placed ++ [x]), rest. split; [|split; [|split]].
  - rewrite insert_app_r_alt by lia. rewrite insert_app_r_alt by lia.
    replace (Z.to_nat (Z.of_nat (length pre) + i + j) - length pre - length placed)%nat
      with 0%nat by lia.
    simpl. by rewrite <- !(assoc_L (++)).
  - rewrite length_app. simpl. lia.
  - simpl in Hr. lia.
  - rewrite <- Hm, Hx, <- (assoc_L (++)). done.
Qed.

(** What one iteration of any of the three loops achieves. *)
Definition merge_progress pre post L Rr (i j k : Z) (ijk' : Z * Z * Z) s' : Prop :=
  merge_inv pre post L Rr ijk' (arr s') ∧
  ∃ i' j', ijk' = (i', j', k + 1) ∧ i ≤ i' ∧ j ≤ j' ∧ i' + j' = i + j + 1.

Lemma merge_body_spec pre post L Rr left mid right i j k s :
  merge_inv pre post L Rr (i, j, k) (arr s) →
  i < Z.of_nat (length L) → j < Z.of_nat (length Rr) →
  wp (merge_body key show left mid right L Rr (i, j, k)) s
     (merge_progress pre post L Rr i j k).
Proof.
  intros Hinv Hi Hj. pose proof Hinv as (Hi0 & Hj0 & _).
  destruct (lookup_lt_is_Some_2 L (Z.to_nat i)) as [li Hli]; [lia|].
  destruct (lookup_lt_is_Some_2 Rr (Z.to_nat j)) as [rj Hrj]; [lia|].
  unfold merge_body.
  apply wp_bind, (wp_item _ _ li); [lia|done|].
  apply wp_bind, (wp_item _ _ rj); [lia|done|].
  apply wp_bind, wp_record_step.
  apply wp_bind, (wp_item _ _ li); [lia|done|].
  apply wp_bind, (wp_item _ _ rj); [lia|done|].
  case_bool_decide as Hcmp.
  - destruct (merge_inv_place pre post L Rr i j k (i + 1) j li (arr s))
      as [Hk Hnext]; [done|lia|lia|lia| |].
    { replace (Z.to_nat (i + 1)) with (S (Z.to_nat i)) by lia.
      by eapply merged_take_left. }
    apply wp_bind, (wp_item _ _ li); [lia|done|].
    apply wp_bind, wp_setitem; [done|].
    apply wp_bind, (wp_item _ _ li); [lia|done|].
    apply wp_bind, wp_record_step. apply wp_ret.
    split; [done|]. exists (i + 1), j. split; [done|]. lia.
  - destruct (merge_inv_place pre post L Rr i j k i (j + 1) rj (arr s))
      as [Hk Hnext]; [done|lia|lia|lia| |].
    { replace (Z.to_nat (j + 1)) with (S (Z.to_nat j)) by lia.
      by eapply merged_take_right. }
    apply wp_bind, (wp_item _ _ rj); [lia|done|].
    apply wp_bind, wp_setitem; [done|].
    apply wp_bind, (wp_item _ _ rj); [lia|done|].
    apply wp_bind, wp_record_step. apply wp_ret.
    split; [done|]. exists i, (j + 1). split; [done|]. lia.
Qed.

Lemma copy_left_body_spec pre post L Rr left right i j k s :
  merge_inv pre post L Rr (i, j, k) (arr s) →
  i < Z.of_nat (length L) → j = Z.of_nat (length Rr) →
  wp (copy_left_body show left right L (i, j, k)) s
     (merge_progress pre post L Rr i j k).
Proof.
  intros Hinv Hi Hj. pose proof Hinv as (Hi0 & Hj0 & _).
  destruct (lookup_lt_is_Some_2 L (Z.to_nat i)) as [li Hli]; [lia|].
  destruct (merge_inv_place pre post L Rr i j k (i + 1) j li (arr s))
    as [Hk Hnext]; [done|lia|lia|lia| |].
  { replace (Z.to_nat (i + 1)) with (S (Z.to_nat i)) by lia.
    apply merged_rest_left; [done|lia]. }
  unfold copy_left_body.
  apply wp_bind, (wp_item _ _ li); [lia|done|].
  apply wp_bind, wp_setitem; [done|].
  apply wp_bind, (wp_item _ _ li); [lia|done|].
  apply wp_bind, wp_record_step. apply wp_ret.
  split; [done|]. exists (i + 1), j. split; [done|]. lia.
Qed.

Lemma copy_right_body_spec pre post L Rr left right i j k s :
  merge_inv pre post L Rr (i, j, k) (arr s) →
  i = Z.of_nat (length L) → j < Z.of_nat (length Rr) →
  wp (copy_right_body show left right Rr (i, j, k)) s
     (merge_progress pre post L Rr i j k).
Proof.
  intros Hinv Hi Hj. pose proof Hinv as (Hi0 & Hj0 & _).
  destruct (lookup_lt_is_Some_2 Rr (Z.to_nat j)) as [rj Hrj]; [lia|].
  destruct (merge_inv_place pre post L Rr i j k i (j + 1) rj (arr s))
    as [Hk Hnext]; [done|lia|lia|lia| |].
  { replace (Z.to_nat (j + 1)) with (S (Z.to_nat j)) by lia.
    apply merged_rest_right; [lia|done]. }
  unfold copy_right_body.
  apply wp_bind, (wp_item _ _ rj); [lia|done|].
  apply wp_bind, wp_setitem; [done|].
  apply wp_bind, (wp_item _ _ rj); [lia|done|].
  apply wp_bind, wp_record_step. apply wp_ret.
  split; [done|]. exists i, (j + 1). split; [done|]. lia.
Qed.

Lemma merge_spec pre L Rr post left mid right s :
  arr s = pre ++ L ++ Rr ++ post →
  left = Z.of_nat (length pre) →
  mid + 1 = left + Z.of_nat (length L) →
  right + 1 = mid + 1 + Z.of_nat (length Rr) →
  wp (merge key show left mid right) s
     (λ _ s', arr s' = pre ++ merged L Rr ++ post).
Proof.
  intros Ha Hleft Hmid Hright.
  assert (py_slice (arr s) left (mid + 1) = L) as HL.
  { rewrite Ha, py_slice_inside by (rewrite ?length_app; lia).
    rewrite drop_app_length' by lia. apply take_app_length'. lia. }
  assert (py_slice (arr s) (mid + 1) (right + 1) = Rr) as HR.
  { rewrite Ha, py_slice_inside by (rewrite ?length_app; lia).
    rewrite (assoc_L (++) pre L), drop_app_length' by (rewrite length_app; lia).
    apply take_app_length'. lia. }
  unfold merge.
  apply wp_bind, wp_slice. rewrite HL.
  apply wp_bind, wp_slice. rewrite HR.
  apply wp_bind, wp_record_step. apply wp_bind.
  apply (wp_while (λ ijk s, merge_inv pre post L Rr ijk (arr s))
           (λ '(i, j, _), (Z.to_nat (Z.of_nat (length L) - i)
                           + Z.to_nat (Z.of_nat (length Rr) - j))%nat)).
  { simpl. split; [lia|]. split; [lia|]. split; [lia|].
    exists [], (L ++ Rr). rewrite Ha, <- !(assoc_L (++)), length_app.
    split; [done|]. split; [done|]. split; [lia|done]. }
  { lia. }
  { intros [[i j] k] s1 Hinv Hcond. apply andb_true_iff in Hcond as [Hi Hj].
    apply bool_decide_eq_true_1 in Hi, Hj.
    eapply wp_mono; [by apply merge_body_spec|].
    intros ijk' s' _ [Hinv' (i' & j' & -> & ? & ? & ?)]. split; [done|].
    destruct Hinv' as (? & ? & _). lia. }
  intros [[i j] k] s1 _ Hinv Hcond. apply andb_false_iff in Hcond.
  assert (i = Z.of_nat (length L) ∨ j = Z.of_nat (length Rr)) as Hend.
  { destruct Hinv as (? & ? & _).
    destruct Hcond as [Hc|Hc]; apply bool_decide_eq_false_1 in Hc; lia. }
  clear Hcond. apply wp_bind.
  apply (wp_while
           (λ '(i, j, k) s, merge_inv pre post L Rr (i, j, k) (arr s) ∧
              (i = Z.of_nat (length L) ∨ j = Z.of_nat (length Rr)))
           (λ '(i, _, _), Z.to_nat (Z.of_nat (length L) - i))).
  { done. }
  { destruct Hinv as (? & _). lia. }
  { intros [[i2 j2] k2] s2 [Hinv2 Hend2] Hcond.
    apply bool_decide_eq_true_1 in Hcond.
    eapply wp_mono; [apply copy_left_body_spec; [done|done|lia]|].
    intros ijk' s' _ [Hinv' (i' & j' & -> & ? & ? & ?)].
    pose proof Hinv' as (? & ? & _). split; [|lia]. split; [done|]. lia. }
  intros [[i2 j2] k2] s2 _ [Hinv2 Hend2] Hcond.
  apply bool_decide_eq_false_1 in Hcond.
  assert (i2 = Z.of_nat (length L)) as -> by (destruct Hinv2 as (? & _); lia).
  clear Hend2 Hcond. apply wp_bind.
  apply (wp_while
           (λ '(i, j, k) s, merge_inv pre post L Rr (i, j, k) (arr s) ∧
              i = Z.of_nat (length L))
           (λ '(_, j, _), Z.to_nat (Z.of_nat (length Rr) - j))).
  { done. }
  { destruct Hinv2 as (_ & ? & _). lia. }
  { intros [[i3 j3] k3] s3 [Hinv3 ->] Hcond.
    apply bool_decide_eq_true_1 in Hcond.
    eapply wp_mono; [by apply copy_right_body_spec|].
    intros ijk' s' _ [Hinv' (i' & j' & -> & ? & ? & ?)].
    pose proof Hinv' as (? & ? & _). split; [|lia]. split; [done|]. lia. }
  intros [[i3 j3] k3] s3 _ [Hinv3 ->] Hcond.
  apply bool_decide_eq_false_1 in Hcond.
  apply wp_record_step. simpl.
  destruct Hinv3 as (_ & Hj3 & _ & placed & rest & -> & Hp & Hr & Hm).
  assert (j3 = Z.of_nat (length Rr)) as -> by lia.
  destruct rest; [|simpl in Hr; lia].
  rewrite !Nat2Z.id, !drop_all, list_merge_nil_l, app_nil_r in Hm.
  by rewrite Hm.
Qed.

Lemma merge_sort_rec_spec depth : ∀ left right s pre seg post,
  arr s = pre ++ seg ++ post →
  left = Z.of_nat (length pre) →
  right + 1 = left + Z.of_nat (length seg) →
  right - left ≤ Z.of_nat depth →
  wp (merge_sort_rec key show depth left right) s
     (λ _ s', ∃ seg', arr s' = pre ++ seg' ++ post ∧ stable_sort_of key seg seg').
Proof.
  induction depth as [|depth IH]; intros left right s pre seg post Ha Hl Hr Hd; simpl.
  { rewrite bool_decide_eq_false_2 by lia. apply wp_ret.
    exists seg. split; [done|]. apply stable_sort_of_short. lia. }
  case_bool_decide as Hlt; cycle 1.
  { apply wp_ret. exists seg. split; [done|]. apply stable_sort_of_short. lia. }
  set (mid := (left + right) `div` 2).
  assert (left ≤ mid < right) as Hmid
    by (subst mid; Z.div_mod_to_equations; lia).
  clearbody mid.
  set (n := Z.to_nat (mid + 1 - left)).
  assert (seg = take n seg ++ drop n seg) as Hseg by (by rewrite take_drop).
  assert (length (take n seg) = n) as Hnl by (rewrite length_take; lia).
  assert (length (drop n seg) = (length seg - n)%nat) as Hnr by apply length_drop.
  revert Hseg Hnl Hnr. generalize (take n seg) (drop n seg). intros sl sr -> Hsl Hsr.
  rewrite length_app in Hr.
  apply wp_bind, wp_record_step. apply wp_bind, wp_record_step. apply wp_bind.
  eapply wp_mono.
  { apply (IH left mid _ pre sl (sr ++ post)); simpl; [|lia..].
    by rewrite Ha, <- !(assoc_L (++)). }
  intros _ s1 _ (sl' & Ha1 & Hst1).
  pose proof (Permutation_length (proj1 Hst1)) as Hlen1.
  apply wp_bind, wp_record_step. apply wp_bind.
  eapply wp_mono.
  { apply (IH (mid + 1) right _ (pre ++ sl') sr post); simpl;
      [|rewrite ?length_app; lia..].
    by rewrite Ha1, <- !(assoc_L (++)). }
  intros _ s2 _ (sr' & Ha2 & Hst2).
  pose proof (Permutation_length (proj1 Hst2)) as Hlen2.
  apply wp_bind, wp_record_step.
  eapply wp_mono.
  { apply (merge_spec pre sl' sr' post left mid right); simpl; [|lia..].
    by rewrite Ha2, <- !(assoc_L (++)). }
  intros [] s3 _ Ha3. simpl in Ha3. exists (merged sl' sr'). split; [done|].
  by apply stable_sort_of_merge.
Qed.

Lemma merge_sort_algorithm_spec (a : list A) :
  wp (sort_algorithm key show) (Store a []) (λ _ s',
    (∃ first, head (steps s') = Some first ∧ array first = a) ∧
    (∃ final, last (steps s') = Some final ∧ array final = arr s') ∧
    stable_sort_of key a (arr s')).
Proof.
  unfold sort_algorithm, merge_sort_recursive.
  apply wp_bind, wp_record_step. apply wp_bind, wp_len. apply wp_bind.
  eapply wp_mono.
  { apply (merge_sort_rec_spec _ _ _ _ [] a []); simpl; [|lia..].
    by rewrite app_nil_r. }
  intros _ s1 [k Hk] (seg' & Ha1 & Hst). simpl in *. rewrite app_nil_r in Ha1.
  apply wp_record_step. simpl. split; [|split].
  - eexists. rewrite Hk. simpl. done.
  - eexists. rewrite last_snoc. done.
  - by rewrite Ha1.
Qed.
End mergesort_correct.

Lemma merge_sort_run_ok (a : list Z) : sort_run_ok (T := MergeSort.step Z) a.
Proof.
  apply sort_run_ok_intro. simpl.
  eapply wp_mono; [apply merge_sort_algorithm_spec|].
  intros _ s' _ (Hfirst & Hfinal & Hperm & Hsorted & _). simpl.
  split; [done|]. split; [done|]. split; [done|]. exact Hsorted.
Qed.

(** ** The three visualisers

    [main_gui.py] offers the algorithm classes it finds; these three are the
    ones the repository ships. *)

Inductive algorithm : Type :=
| QuickSortAlgorithm
| MergeSortAlgorithm
| SelectionSortAlgorithm.

Definition step_of (al : algorithm) : Type :=
  match al with
  | QuickSortAlgorithm => QuickSort.step
  | MergeSortAlgorithm => MergeSort.step Z
  | SelectionSortAlgorithm => SelectionSort.step
  end.

#[export] Instance engine_of (al : algorithm) : Engine (step_of al) | 100 :=
  match al with
  | QuickSortAlgorithm => quick_sort
  | MergeSortAlgorithm => merge_sort
  | SelectionSortAlgorithm => selection_sort
  end.

Lemma every_sort_run_ok (al : algorithm) (a : list Z) :
  sort_run_ok (T := step_of al) a.
Proof.
  destruct al; [apply quick_sort_run_ok|apply merge_sort_run_ok|apply selection_sort_run_ok].
Qed.

(** ** Playback: what the commands preserve *)

Section playback_correct.
Import Playback.
Context {T : Type} `{!Engine T}.
Hypothesis engine_ok : ∀ a : list Z, sort_run_ok (T := T) a.
Implicit Types v : visualizer T.

(** The cursor never leaves [0..N], [N] the number of recorded steps. *)
Definition cursor_ok v : Prop :=
  0 ≤ current_step v ≤ Z.of_nat (length (steps v)).

(** [kept v v']: the captured original array is the same and the cursor
    is still within [0..N] if it was. *)
Definition kept v v' : Prop :=
  original_array v' = original_array v ∧ (cursor_ok v → cursor_ok v').

Lemma kept_refl v : kept v v.
Proof. by split. Qed.

Lemma kept_trans v1 v2 v3 : kept v1 v2 → kept v2 v3 → kept v1 v3.
Proof. intros [H1 H2] [H3 H4]. split; [congruence|auto]. Qed.

Lemma show_current_step_fields v :
  steps (show_current_step v) = steps v ∧
  current_step (show_current_step v) = current_step v ∧
  original_array (show_current_step v) = original_array v ∧
  is_playing (show_current_step v) = is_playing v ∧
  scheduled (show_current_step v) = scheduled v.
Proof.
  unfold show_current_step. destruct (steps v) eqn:Hst; [done|].
  case_bool_decide; [|done]. rewrite <- Hst. by destruct (steps v !! _).
Qed.

Lemma restore_speed_fields v :
  steps (restore_speed v) = steps v ∧
  current_step (restore_speed v) = current_step v ∧
  original_array (restore_speed v) = original_array v ∧
  array (restore_speed v) = array v.
Proof. unfold restore_speed. by destruct (original_speed v). Qed.

Lemma show_current_step_kept v : kept v (show_current_step v).
Proof.
  destruct (show_current_step_fields v) as (Hs & Hc & Ho & _).
  split; [done|]. unfold cursor_ok. by rewrite Hs, Hc.
Qed.

Lemma restore_speed_kept v : kept v (restore_speed v).
Proof.
  destruct (restore_speed_fields v) as (Hs & Hc & Ho & _).
  split; [done|]. unfold cursor_ok. by rewrite Hs, Hc.
Qed.

Lemma animate_sorting_kept v : kept v (animate_sorting v).
Proof.
  unfold animate_sorting.
  destruct (negb (is_playing v) || bool_decide (current_step v >= _)) eqn:Hstop.
  - case_bool_decide; [|apply kept_refl].
    eapply kept_trans; [|apply restore_speed_kept]. by split.
  - apply orb_false_iff in Hstop as [_ Hlt]. apply bool_decide_eq_false_1 in Hlt.
    destruct (show_current_step_fields v) as (Hs & Hc & Ho & Hp & _).
    assert (kept v (set_current_step (current_step (show_current_step v) + 1)
                      (show_current_step v))) as Hk.
    { split; simpl; [done|]. unfold cursor_ok. simpl. rewrite Hs, Hc. lia. }
    simpl. destruct (is_playing (show_current_step v)); [|done].
    eapply kept_trans; [exact Hk|]. by split.
Qed.

(** [generate_steps] returns normally; when the array is not empty it
    installs the result of one full sort run. *)
Lemma generate_steps_spec v :
  ∃ v', generate_steps v = Ok v' ∧
    original_array v' = original_array v ∧
    current_step v' = current_step v ∧
    match array v with
    | [] => v' = v
    | _ :: _ => ∃ a' st, run_engine (array v) = Ok (a', st) ∧
                         v' = set_array a' (set_steps st v)
    end.
Proof.
  unfold generate_steps. destruct (array v) as [|x a] eqn:Ha; [by exists v|].
  destruct (engine_ok (x :: a)) as (a' & st & ? & ? & Hrun & _).
  rewrite Hrun. exists (set_array a' (set_steps st v)).
  split; [done|]. split; [done|]. split; [done|]. by exists a', st.
Qed.

Lemma ensure_steps_kept v : ∃ v', ensure_steps v = Ok v' ∧ kept v v'.
Proof.
  unfold ensure_steps. destruct (steps v) as [|x st] eqn:Hst.
  - destruct (generate_steps_spec v) as (v' & -> & Ho & Hc & Hv).
    exists v'. split; [done|]. split; [done|].
    unfold cursor_ok. rewrite Hc, Hst. simpl. lia.
  - exists v. split; [done|]. apply kept_refl.
Qed.

Lemma exec_kept c v : ∃ v', exec c v = Ok v' ∧ kept v v'.
Proof.
  destruct c; simpl.
  - unfold start_sorting. destruct (is_sorting v); [by exists v|].
    destruct (ensure_steps_kept v) as (v1 & -> & Hk). eexists. split; [done|].
    eapply kept_trans; [exact Hk|].
    eapply kept_trans; [|apply animate_sorting_kept]. by split.
  - unfold fast_sort. destruct (is_sorting v); [by exists v|].
    destruct (array v); [by exists v|].
    destruct (ensure_steps_kept v) as (v1 & -> & Hk). eexists. split; [done|].
    eapply kept_trans; [exact Hk|].
    eapply kept_trans; [|apply animate_sorting_kept]. by split.
  - eexists. split; [done|]. unfold pause_sorting.
    eapply kept_trans; [|apply restore_speed_kept]. by split.
  - eexists. split; [done|]. unfold reset_sorting.
    eapply kept_trans; [|apply restore_speed_kept]. split; [done|].
    intros _. unfold cursor_ok. simpl. lia.
  - unfold step_forward.
    destruct (ensure_steps_kept v) as (v1 & -> & Hk).
    case_bool_decide as Hlt; [|by exists v1].
    eexists. split; [done|]. eapply kept_trans; [exact Hk|].
    eapply kept_trans; [|apply show_current_step_kept]. split; [done|].
    unfold cursor_ok. simpl. lia.
  - eexists. split; [done|]. unfold step_backward.
    case_bool_decide as Hgt; [|apply kept_refl].
    eapply kept_trans; [|apply show_current_step_kept]. split; [done|].
    unfold cursor_ok. simpl. lia.
  - destruct (scheduled v) eqn:Hs; [by exists v|].
    eexists. split; [done|].
    eapply kept_trans; [|apply animate_sorting_kept]. by split.
Qed.

Lemma exec_all_kept cs : ∀ v, ∃ v', exec_all cs v = Ok v' ∧ kept v v'.
Proof.
  induction cs as [|c cs IH]; intros v; simpl.
  - exists v. split; [done|]. apply kept_refl.
  - destruct (exec_kept c v) as (v1 & -> & Hk1).
    destruct (IH v1) as (v2 & -> & Hk2).
    exists v2. split; [done|]. by eapply kept_trans.
Qed.
End playback_correct.

(** The final place of the pivot is fixed by the input: it lands [n] places
    after [low], [n] the number of elements of [a[low..high-1]] that are
    [<= pivot]. *)
Lemma filter_le_all (pivot : Z) (l : list Z) :
  Forall (λ x, x ≤ pivot) l → filter (λ x, x ≤ pivot) l = l.
Proof.
  induction 1 as [|x l Hx _ IH]; [done|].
  rewrite filter_cons_True by done. by rewrite IH.
Qed.

Lemma filter_le_none (pivot : Z) (l : list Z) :
  Forall (λ x, pivot < x) l → filter (λ x, x ≤ pivot) l = [].
Proof.
  induction 1 as [|x l Hx _ IH]; [done|].
  rewrite filter_cons_False by lia. done.
Qed.

Lemma partition_boundary low high a a' p pivot :
  0 ≤ low → low ≤ p ≤ high →
  frame_perm low high a a' →
  a !! Z.to_nat high = Some pivot →
  a' !! Z.to_nat p = Some pivot →
  (∀ k x, low ≤ k < p → a' !! Z.to_nat k = Some x → x ≤ pivot) →
  (∀ k x, p < k ≤ high → a' !! Z.to_nat k = Some x → pivot < x) →
  p - low = Z.of_nat (length (filter (λ x, x ≤ pivot)
                        (take (Z.to_nat (high - low)) (drop (Z.to_nat low) a)))).
Proof.
  intros H0 Hp (pre & seg & seg' & post & -> & -> & Hpre & Hseg & Hperm) Hhi Hpv Hle Hgt.
  pose proof (Permutation_length Hperm) as Hlen.
  replace (Z.to_nat low) with (length pre) by lia.
  rewrite drop_app_length. rewrite take_app_le by lia.
  assert (seg !! Z.to_nat (high - low) = Some pivot) as Hs.
  { rewrite lookup_app_r in Hhi by lia. rewrite lookup_app_l in Hhi by lia.
    rewrite <- Hhi. f_equal. lia. }
  assert (seg' !! Z.to_nat (p - low) = Some pivot) as Hs'.
  { rewrite lookup_app_r in Hpv by lia. rewrite lookup_app_l in Hpv by lia.
    rewrite <- Hpv. f_equal. lia. }
  assert (∀ i x, seg' !! i = Some x →
            (pre ++ seg' ++ post) !! Z.to_nat (low + Z.of_nat i) = Some x) as Hin.
  { intros i x Hx. pose proof (lookup_lt_Some _ _ _ Hx).
    rewrite lookup_app_r by lia. rewrite lookup_app_l by lia.
    rewrite <- Hx. f_equal. lia. }
  assert (drop (S (Z.to_nat (high - low))) seg = []) as Hd by (apply drop_ge; lia).
  pose proof (take_drop_middle _ _ _ Hs) as Hsplit. rewrite Hd in Hsplit.
  pose proof (take_drop_middle _ _ _ Hs') as Hsplit'.
  assert (length (filter (λ x, x ≤ pivot) seg)
          = S (length (filter (λ x, x ≤ pivot) (take (Z.to_nat (high - low)) seg)))) as Hc.
  { rewrite <- Hsplit at 1. rewrite filter_app, filter_cons_True by lia.
    rewrite length_app. simpl. lia. }
  assert (length (filter (λ x, x ≤ pivot) seg') = S (Z.to_nat (p - low))) as Hc'.
  { rewrite <- Hsplit'. rewrite filter_app, filter_cons_True by lia.
    rewrite filter_le_all, filter_le_none.
    - rewrite length_app, length_take. simpl. lia.
    - apply Forall_lookup. intros i x Hx. rewrite lookup_drop in Hx.
      pose proof (lookup_lt_Some _ _ _ Hx).
      apply Hin in Hx. eapply Hgt; [|exact Hx]. lia.
    - apply Forall_lookup. intros i x Hx.
      apply lookup_take_Some in Hx as [Hx Hi].
      apply Hin in Hx. eapply Hle; [|exact Hx]. lia. }
  assert (length (filter (λ x, x ≤ pivot) seg) = length (filter (λ x, x ≤ pivot) seg')) as He.
  { apply Permutation_length. by rewrite Hperm. }
  lia.
Qed.

(** ** Handlers that run inside one another *)

Lemma event_nested_ind (P : Reentrant.event → Prop) :
  (∀ c inner, Forall (Forall P) inner → P (Reentrant.Event c inner)) →
  ∀ e, P e.
Proof.
  intros Hstep. fix IH 1. intros [c inner]. apply Hstep.
  induction inner as [|es inner IHinner]; constructor; [|done].
  induction es as [|e es IHes]; constructor; [apply IH|done].
Qed.

Section reentrant_correct.
Import Playback.
Context {T : Type} `{!Engine T}.
Hypothesis engine_ok : ∀ a : list Z, sort_run_ok (T := T) a.
Implicit Types v : visualizer T.
Implicit Types pumps : list (Reentrant.pump (T := T)).

(** *** With nothing dispatched the handlers are those of [Playback] *)

Lemma show_current_step_quiet v :
  Reentrant.show_current_step [] v = Ok (show_current_step v, []).
Proof.
  unfold Reentrant.show_current_step, show_current_step.
  destruct (steps v); [done|]. case_bool_decide; [|done].
  destruct (_ !! _); [|done]. by case_bool_decide.
Qed.

Lemma animate_sorting_quiet v :
  Reentrant.animate_sorting [] v = Ok (animate_sorting v, []).
Proof.
  unfold Reentrant.animate_sorting, animate_sorting.
  destruct (negb _ || _); [by case_bool_decide|].
  by rewrite show_current_step_quiet.
Qed.

Lemma run_quiet c v :
  Reentrant.run c [] v
  = match exec c v with Ok v' => Ok (v', []) | Raise err => Raise err end.
Proof.
  destruct c; simpl.
  - unfold Reentrant.start_sorting, start_sorting.
    destruct (is_sorting v); [done|]. destruct (ensure_steps v); [|done].
    simpl. apply animate_sorting_quiet.
  - unfold Reentrant.fast_sort, fast_sort.
    destruct (is_sorting v); [done|]. destruct (array v); [done|]. simpl.
    destruct (ensure_steps v); [|done]. apply animate_sorting_quiet.
  - done.
  - done.
  - unfold Reentrant.step_forward, step_forward.
    destruct (ensure_steps v) as [v1|]; [|done].
    case_bool_decide; [|done]. apply show_current_step_quiet.
  - unfold Reentrant.step_backward, step_backward.
    case_bool_decide; [|done]. apply show_current_step_quiet.
  - destruct (scheduled v); [done|]. apply animate_sorting_quiet.
Qed.

Lemma handle_atomic c v : Reentrant.handle (Reentrant.atomic c) v = exec c v.
Proof. simpl. rewrite run_quiet. by destruct (exec c v). Qed.

(** Events delivered one at a time, none inside another, are the commands
    of [Playback.exec_all]. *)
Lemma handle_all_atomic cs v :
  Reentrant.handle_all (Reentrant.atomic <$> cs) v = exec_all cs v.
Proof.
  unfold Reentrant.handle_all. revert v.
  induction cs as [|c cs IH]; intros v; [done|].
  cbn [fmap list_fmap map Reentrant.dispatch exec_all].
  rewrite handle_atomic. destruct (exec c v); [apply IH|done].
Qed.

(** *** Invariants of nested handlers *)

(** [keeps P u]: from a state with [P], the call [u] returns normally in a
    state with [P]. *)
Definition keeps (P : visualizer T → Prop) (u : Reentrant.pump) : Prop :=
  ∀ v, P v → ∃ v', u v = Ok v' ∧ P v'.

Definition handler_keeps (P : visualizer T → Prop) (h : Reentrant.handler) : Prop :=
  ∀ pumps v, Forall (keeps P) pumps → P v →
    ∃ v' pumps', h pumps v = Ok (v', pumps') ∧ P v' ∧ Forall (keeps P) pumps'.

Lemma update_keeps P : handler_keeps P Reentrant.update.
Proof.
  intros pumps v Hp Hv. destruct Hp as [|u pumps Hu Hp]; simpl.
  - by exists v, [].
  - destruct (Hu v Hv) as (v' & -> & Hv'). by exists v', pumps.
Qed.

Lemma dispatch_keeps P hs : Forall (keeps P) hs → keeps P (Reentrant.dispatch hs).
Proof.
  induction 1 as [|h hs Hh _ IH]; intros v Hv; simpl.
  - by exists v.
  - destruct (Hh v Hv) as (v' & -> & Hv'). by apply IH.
Qed.

(** What holds for the handler of every permitted command holds for every
    event made of permitted commands, however deeply they are nested. *)
Lemma handle_keeps P (ok : command → bool) :
  (∀ c, ok c = true → handler_keeps P (Reentrant.run c)) →
  ∀ e, Reentrant.every ok e = true → keeps P (Reentrant.handle e).
Proof.
  intros Hrun e. induction e as [c inner IH] using event_nested_ind.
  cbn [Reentrant.every]. intros [Hc Hinner]%andb_true_iff v Hv.
  cbn [Reentrant.handle].
  destruct (Hrun c Hc (map (λ es, Reentrant.dispatch (map Reentrant.handle es)) inner) v)
    as (v' & pumps' & -> & Hv' & _); [|done|by exists v'].
  apply Forall_map.
  apply Is_true_true, forallb_True in Hinner.
  rewrite Forall_forall in IH. rewrite Forall_forall in Hinner.
  apply Forall_forall. intros es Hes.
  apply dispatch_keeps, Forall_map.
  specialize (IH es Hes). specialize (Hinner es Hes). apply forallb_True in Hinner.
  rewrite Forall_forall in IH. rewrite Forall_forall in Hinner.
  apply Forall_forall. intros e He. apply IH; [done|].
  apply Is_true_true. by apply Hinner.
Qed.

Lemma handle_all_keeps P (ok : command → bool) es :
  (∀ c, ok c = true → handler_keeps P (Reentrant.run c)) →
  forallb (Reentrant.every ok) es = true → keeps P (Reentrant.handle_all es).
Proof.
  intros Hrun Hes. apply dispatch_keeps, Forall_map.
  apply Is_true_true, forallb_True in Hes. rewrite Forall_forall in Hes.
  apply Forall_forall. intros e He.
  apply (handle_keeps P ok Hrun). apply Is_true_true. by apply Hes.
Qed.

Lemma every_true e : Reentrant.every (λ _, true) e = true.
Proof.
  induction e as [c inner IH] using event_nested_ind. simpl.
  apply Is_true_true, forallb_True, Forall_forall. intros es Hes.
  apply forallb_True, Forall_forall. intros e He.
  rewrite Forall_forall in IH. specialize (IH es Hes).
  rewrite Forall_forall in IH. apply Is_true_true. by apply IH.
Qed.

Lemma show_current_step_keeps P :
  (∀ a v, P v → P (set_array a v)) → handler_keeps P Reentrant.show_current_step.
Proof.
  intros Hset pumps v Hp Hv. unfold Reentrant.show_current_step.
  destruct (steps v); [by exists v, pumps|].
  case_bool_decide; [|by exists v, pumps].
  destruct (_ !! _) as [x|]; [|by exists v, pumps].
  case_bool_decide.
  - apply update_keeps; [done|]. by apply Hset.
  - eexists _, _. split; [done|]. split; [by apply Hset|done].
Qed.

(** *** The cursor never goes below 0 *)

Definition cursor_nonneg v : Prop := 0 ≤ current_step v.

Lemma ensure_steps_cursor v :
  ∃ v', ensure_steps v = Ok v' ∧ current_step v' = current_step v.
Proof.
  unfold ensure_steps. destruct (steps v); [|by exists v].
  destruct (generate_steps_spec engine_ok v) as (v' & -> & _ & Hc & _). by exists v'.
Qed.

Lemma animate_sorting_nonneg : handler_keeps cursor_nonneg Reentrant.animate_sorting.
Proof.
  intros pumps v Hp Hv. unfold Reentrant.animate_sorting.
  destruct (negb _ || _).
  - case_bool_decide; [|by exists v, pumps].
    apply update_keeps; [done|].
    destruct (restore_speed_fields (set_is_sorting false v)) as (_ & Hc & _).
    unfold cursor_nonneg. by rewrite Hc.
  - destruct (show_current_step_keeps cursor_nonneg (λ _ _ Hw, Hw) pumps v Hp Hv)
      as (v1 & pumps1 & -> & Hv1 & Hp1).
    eexists _, _. split; [done|]. split; [|done].
    unfold cursor_nonneg in *. simpl. destruct (is_playing v1); simpl; lia.
Qed.

Lemma run_nonneg c : handler_keeps cursor_nonneg (Reentrant.run c).
Proof.
  intros pumps v Hp Hv. destruct c; simpl.
  - unfold Reentrant.start_sorting. destruct (is_sorting v); [by exists v, pumps|].
    destruct (ensure_steps_cursor v) as (v1 & -> & Hc1).
    destruct (update_keeps cursor_nonneg pumps
                (set_is_playing true (set_is_sorting true v1)) Hp)
      as (v2 & pumps2 & Hlog & Hv2 & Hp2).
    { unfold cursor_nonneg in *. simpl. lia. }
    unfold Reentrant.log_message. rewrite Hlog.
    by apply animate_sorting_nonneg.
  - unfold Reentrant.fast_sort. destruct (is_sorting v); [by exists v, pumps|].
    destruct (array v); [by exists v, pumps|].
    destruct (update_keeps cursor_nonneg pumps v Hp Hv)
      as (v1 & pumps1 & Hlog & Hv1 & Hp1).
    unfold Reentrant.log_message. rewrite Hlog.
    destruct (ensure_steps_cursor v1) as (v2 & -> & Hc2).
    apply animate_sorting_nonneg; [done|].
    unfold cursor_nonneg in *. simpl. lia.
  - apply update_keeps; [done|]. unfold pause_sorting.
    destruct (restore_speed_fields (set_is_playing false v)) as (_ & Hc & _).
    unfold cursor_nonneg. by rewrite Hc.
  - apply update_keeps; [done|]. unfold reset_sorting.
    match goal with |- context [restore_speed ?w] =>
      destruct (restore_speed_fields w) as (_ & Hc & _) end.
    unfold cursor_nonneg. by rewrite Hc.
  - unfold Reentrant.step_forward.
    destruct (ensure_steps_cursor v) as (v1 & -> & Hc1).
    case_bool_decide; [|exists v1, pumps; unfold cursor_nonneg in *; split; [done|]; split; [lia|done]].
    apply (show_current_step_keeps cursor_nonneg (λ _ _ Hw, Hw)); [done|].
    unfold cursor_nonneg in *. simpl. lia.
  - unfold Reentrant.step_backward.
    case_bool_decide; [|by exists v, pumps].
    apply (show_current_step_keeps cursor_nonneg (λ _ _ Hw, Hw)); [done|].
    unfold cursor_nonneg in *. simpl. lia.
  - destruct (scheduled v); [by exists v, pumps|].
    by apply animate_sorting_nonneg.
Qed.

Lemma handle_all_nonneg es : keeps cursor_nonneg (Reentrant.handle_all es).
Proof.
  apply (handle_all_keeps cursor_nonneg (λ _, true)).
  - intros c _. apply run_nonneg.
  - apply Is_true_true, forallb_True, Forall_forall. intros e _.
    apply Is_true_true, every_true.
Qed.
End reentrant_correct.

(** * Further properties of the engines *)

(** ** Contracts of the array-transforming functions *)

(** X1: [partition] on a valid subrange returns the pivot's resting place
    [p] inside the subrange; the subrange has been permuted and nothing
    outside it has moved; everything left of [p] in the subrange is [<=] the
    value at [p], everything right of it is greater. *)
Theorem partition_contract (low high : Z) (a : list Z) (st : list QuickSort.step) :
  0 ≤ low → low ≤ high → high < Z.of_nat (length a) →
  ∃ p a' st' pivot,
    QuickSort.partition low high (Store a st) = Ok (p, Store a' st') ∧
    low ≤ p ≤ high ∧
    frame_perm low high a a' ∧
    a' !! Z.to_nat p = Some pivot ∧
    (∀ k x, low ≤ k < p → a' !! Z.to_nat k = Some x → x ≤ pivot) ∧
    (∀ k x, p < k ≤ high → a' !! Z.to_nat k = Some x → pivot < x).
Proof.
  intros H0 Hlh Hhi.
  destruct (wp_elim _ _ _ (partition_spec low high (Store a st) H0 Hlh Hhi))
    as (p & [a' st'] & Hrun & (Hp & Hf & (pivot & Hpv & Hle & Hgt) & _) & _).
  by exists p, a', st', pivot.
Qed.

Lemma partition_contract_witness :
  ∃ p a' st' pivot,
    QuickSort.partition 1 3 (Store [1; 2; 8; 5; 9] []) = Ok (p, Store a' st') ∧
    1 ≤ p ≤ 3 ∧
    frame_perm 1 3 [1; 2; 8; 5; 9] a' ∧
    a' !! Z.to_nat p = Some pivot ∧
    (∀ k x, 1 ≤ k < p → a' !! Z.to_nat k = Some x → x ≤ pivot) ∧
    (∀ k x, p < k ≤ 3 → a' !! Z.to_nat k = Some x → pivot < x).
Proof.
  apply (partition_contract 1 3 [1; 2; 8; 5; 9] []); simpl; lia.
Defined.

(** X2: [quicksort(arr, low, high)] sorts the positions [low..high] and
    touches nothing else: the result differs from the input by a permutation
    of that subrange only, and the subrange ends up in non-decreasing
    order.  An empty or one-element subrange is allowed. *)
Theorem quicksort_contract (low high : Z) (a : list Z) (st : list QuickSort.step) :
  0 ≤ low → low ≤ high + 1 → high < Z.of_nat (length a) →
  ∃ a' st',
    QuickSort.quicksort low high (Store a st) = Ok (tt, Store a' st') ∧
    frame_perm low high a a' ∧
    sorted_range low high a'.
Proof.
  intros H0 Hlh Hhi.
  destruct (wp_elim _ _ _ (quicksort_spec low high (Store a st) H0 Hlh Hhi))
    as ([] & [a' st'] & Hrun & (Hf & Hs) & _).
  by exists a', st'.
Qed.

Lemma quicksort_contract_witness :
  ∃ a' st',
    QuickSort.quicksort 1 3 (Store [9; 8; 2; 5; 1] []) = Ok (tt, Store a' st') ∧
    frame_perm 1 3 [9; 8; 2; 5; 1] a' ∧
    sorted_range 1 3 a'.
Proof.
  apply (quicksort_contract 1 3 [9; 8; 2; 5; 1] []); simpl; lia.
Defined.

(** X3: [merge] replaces the two adjacent runs [arr[left..mid]] and
    [arr[mid+1..right]] by their merge, in which the left run wins ties, and
    leaves the rest of the array as it is.  Nothing is assumed about the
    runs being sorted. *)
Theorem merge_contract {A : Type} (key : A → Z) (show : A → string)
    (pre L Rr post : list A) (left mid right : Z) (st : list (MergeSort.step A)) :
  left = Z.of_nat (length pre) →
  mid + 1 = left + Z.of_nat (length L) →
  right + 1 = mid + 1 + Z.of_nat (length Rr) →
  ∃ st',
    MergeSort.merge key show left mid right (Store (pre ++ L ++ Rr ++ post) st)
    = Ok (tt, Store (pre ++ list_merge (key_le key) L Rr ++ post) st').
Proof.
  intros Hl Hm Hr.
  destruct (wp_elim _ _ _
              (merge_spec key show pre L Rr post left mid right
                 (Store (pre ++ L ++ Rr ++ post) st) eq_refl Hl Hm Hr))
    as ([] & [a' st'] & Hrun & Ha & _).
  simpl in Ha. subst a'. by exists st'.
Qed.

Lemma merge_contract_witness :
  ∃ st',
    MergeSort.merge id pretty 1 2 4 (Store ([7] ++ [2; 5] ++ [1; 9] ++ [0]) [])
    = Ok (tt, Store ([7] ++ list_merge (key_le id) [2; 5] [1; 9] ++ [0]) st').
Proof.
  apply (merge_contract id pretty [7] [2; 5] [1; 9] [0] 1 2 4 []); reflexivity.
Defined.

(** X4: [merge_sort_recursive(arr, left, right)] turns the positions
    [left..right] into a stable sort of what they held and leaves the rest
    of the array as it is. *)
Theorem merge_sort_recursive_contract {A : Type} (key : A → Z) (show : A → string)
    (pre seg post : list A) (left right : Z) (st : list (MergeSort.step A)) :
  left = Z.of_nat (length pre) →
  right + 1 = left + Z.of_nat (length seg) →
  ∃ seg' st',
    MergeSort.merge_sort_recursive key show left right (Store (pre ++ seg ++ post) st)
    = Ok (tt, Store (pre ++ seg' ++ post) st') ∧
    stable_sort_of key seg seg'.
Proof.
  intros Hl Hr.
  destruct (wp_elim _ _ _
              (merge_sort_rec_spec key show (Z.to_nat (right - left)) left right
                 (Store (pre ++ seg ++ post) st) pre seg post eq_refl Hl Hr
                 ltac:(lia)))
    as ([] & [a' st'] & Hrun & (seg' & Ha & Hst) & _).
  simpl in Ha. subst a'. by exists seg', st'.
Qed.

Lemma merge_sort_recursive_contract_witness :
  ∃ seg' st',
    MergeSort.merge_sort_recursive id pretty 1 3 (Store ([7] ++ [5; 2; 8] ++ [0]) [])
    = Ok (tt, Store ([7] ++ seg' ++ [0]) st') ∧
    stable_sort_of id [5; 2; 8] seg'.
Proof.
  apply (merge_sort_recursive_contract id pretty [7] [5; 2; 8] [0] 1 3 []); reflexivity.
Defined.


(** ** Every record of a run, not only the last *)

Section wp_in_bounds.
Context {A T : Type}.
Implicit Types (s : store A T).

Lemma wp_getitem_in i s Q :
  0 ≤ i < Z.of_nat (length (arr s)) →
  (∀ x, arr s !! Z.to_nat i = Some x → Q x s) →
  wp (getitem i) s Q.
Proof.
  intros Hi HQ.
  destruct (lookup_lt_is_Some_2 (arr s) (Z.to_nat i)) as [x Hx]; [lia|].
  apply (wp_getitem _ x); [lia|done|]. by apply HQ.
Qed.

Lemma wp_swap_in i j s Q :
  0 ≤ i < Z.of_nat (length (arr s)) → 0 ≤ j < Z.of_nat (length (arr s)) →
  (∀ x y, arr s !! Z.to_nat i = Some x → arr s !! Z.to_nat j = Some y →
     Q tt (Store (<[Z.to_nat j:=x]> (<[Z.to_nat i:=y]> (arr s))) (steps s))) →
  wp (swap i j) s Q.
Proof.
  intros Hi Hj HQ.
  destruct (lookup_lt_is_Some_2 (arr s) (Z.to_nat i)) as [x Hx]; [lia|].
  destruct (lookup_lt_is_Some_2 (arr s) (Z.to_nat j)) as [y Hy]; [lia|].
  apply (wp_swap _ _ x y); [lia|lia|done|done|]. by apply HQ.
Qed.
End wp_in_bounds.

(** A highlighted range lies within an array of [n] elements. *)
Definition part_within (n : Z) (p : option (Z * Z)) : Prop :=
  match p with
  | None => True
  | Some (b, e) => 0 ≤ b ∧ e < n
  end.

Section quicksort_records.
Import QuickSort.
Implicit Types (s : store Z step).

(** What holds of every record of a quick sort run on [a0]: the snapshot
    is a rearrangement of [a0], and every highlighted index or range lies
    within the array ([pivot_idx] may be the placeholder [-1]). *)
Definition record_ok (a0 : list Z) (x : step) : Prop :=
  array x ≡ₚ a0 ∧
  -1 ≤ pivot_idx x < Z.of_nat (length a0) ∧
  Forall (λ k, 0 ≤ k < Z.of_nat (length a0)) (comparing_indices x) ∧
  part_within (Z.of_nat (length a0)) (left_part x) ∧
  part_within (Z.of_nat (length a0)) (right_part x).

Definition records_ok (a0 : list Z) s : Prop :=
  arr s ≡ₚ a0 ∧ Forall (record_ok a0) (steps s).

Lemma records_ok_length (a0 : list Z) s : records_ok a0 s → length (arr s) = length a0.
Proof. intros [Hp _]. by apply Permutation_length. Qed.

Lemma wp_add_step_ok (a0 : list Z) pi ci lp rp d s Q :
  records_ok a0 s →
  -1 ≤ pi < Z.of_nat (length a0) →
  Forall (λ k, 0 ≤ k < Z.of_nat (length a0)) ci →
  part_within (Z.of_nat (length a0)) lp →
  part_within (Z.of_nat (length a0)) rp →
  (∀ s', records_ok a0 s' → arr s' = arr s → Q tt s') →
  wp (add_step pi ci lp rp d) s Q.
Proof.
  intros [Hp Hall] Hpi Hci Hlp Hrp HQ. apply wp_record_step.
  apply HQ; [|done]. split; [done|]. simpl.
  apply Forall_app. split; [done|]. apply Forall_singleton.
  unfold record_ok. simpl. done.
Qed.

Lemma wp_swap_ok (a0 : list Z) i j s Q :
  records_ok a0 s →
  0 ≤ i < Z.of_nat (length a0) → 0 ≤ j < Z.of_nat (length a0) →
  (∀ s', records_ok a0 s' → Q tt s') →
  wp (swap i j) s Q.
Proof.
  intros Hok Hi Hj HQ. pose proof (records_ok_length _ _ Hok) as Hlen.
  apply wp_swap_in; [lia|lia|]. intros x y Hx Hy. apply HQ.
  destruct Hok as [Hp Hall]. split; [|done]. simpl.
  by rewrite Permutation_insert_swap.
Qed.

Lemma partition_body_records (a0 : list Z) low high pivot j i s :
  0 ≤ low → low ≤ j < high → high < Z.of_nat (length a0) →
  low - 1 ≤ i < j →
  records_ok a0 s →
  wp (partition_body pivot high j i) s
     (λ i' s', low - 1 ≤ i' < j + 1 ∧ records_ok a0 s').
Proof.
  intros H0 Hj Hhi Hi Hok. pose proof (records_ok_length _ _ Hok) as Hlen.
  unfold partition_body.
  apply wp_bind, wp_getitem_in; [lia|]. intros aj _.
  apply wp_bind, (wp_add_step_ok a0); [done|lia|repeat constructor; lia|done|done|].
  intros s1 Hok1 Ha1.
  apply wp_bind, wp_getitem_in; [rewrite Ha1; lia|]. intros aj' _.
  case_bool_decide; [|apply wp_ret; split; [lia|done]].
  case_bool_decide; [|apply wp_ret; split; [lia|done]].
  apply wp_bind, wp_getitem_in; [rewrite Ha1; lia|]. intros ai _.
  apply wp_bind, wp_getitem_in; [rewrite Ha1; lia|]. intros aj'' _.
  apply wp_bind, (wp_add_step_ok a0); [done|lia|repeat constructor; lia|done|done|].
  intros s2 Hok2 Ha2.
  apply wp_bind, (wp_swap_ok a0); [done|lia|lia|]. intros s3 Hok3.
  apply wp_bind, (wp_add_step_ok a0); [done|lia|constructor|done|done|].
  intros s4 Hok4 _. apply wp_ret. split; [lia|done].
Qed.

Lemma partition_records (a0 : list Z) low high s :
  0 ≤ low → low ≤ high → high < Z.of_nat (length a0) →
  records_ok a0 s →
  wp (partition low high) s (λ p s', low ≤ p ≤ high ∧ records_ok a0 s').
Proof.
  intros H0 Hlh Hhi Hok. pose proof (records_ok_length _ _ Hok) as Hlen.
  unfold partition.
  apply wp_bind, wp_getitem_in; [lia|]. intros pivot _.
  apply wp_bind, (wp_add_step_ok a0); [done|lia|constructor|done|done|].
  intros s1 Hok1 _. apply wp_bind.
  apply (wp_for_range (λ j i s, low - 1 ≤ i < j ∧ records_ok a0 s)); [done| | |].
  - split; [lia|done].
  - intros j i s2 Hj [Hi Hok2]. by apply (partition_body_records a0 low).
  - intros i s2 _ [Hi Hok2]. apply wp_bind.
    apply wp_mono with (Q := λ _ s3, records_ok a0 s3).
    { case_bool_decide; [|by apply wp_ret].
      apply wp_bind, (wp_add_step_ok a0); [done|lia|repeat constructor; lia|done|done|].
      intros s3 Hok3 _. apply (wp_swap_ok a0); [done|lia|lia|]. done. }
    intros [] s3 _ Hok3. simpl in Hok3.
    apply wp_bind, (wp_add_step_ok a0); [done|lia|constructor| | |].
    + case_bool_decide; simpl; [lia|done].
    + case_bool_decide; simpl; [lia|done].
    + intros s4 Hok4 _. apply wp_ret. split; [lia|done].
Qed.

Lemma quicksort_rec_records (a0 : list Z) depth : ∀ low high s,
  0 ≤ low → high < Z.of_nat (length a0) → high - low ≤ Z.of_nat depth →
  records_ok a0 s →
  wp (quicksort_rec depth low high) s (λ _ s', records_ok a0 s').
Proof.
  induction depth as [|depth IH]; intros low high s H0 Hhi Hd Hok; simpl.
  { rewrite bool_decide_eq_false_2 by lia. by apply wp_ret. }
  case_bool_decide; [|by apply wp_ret].
  apply wp_bind, (wp_add_step_ok a0); [done|lia|constructor|done|done|].
  intros s1 Hok1 _. apply wp_bind.
  eapply wp_mono; [apply (partition_records a0 low high); [lia|lia|lia|done]|].
  intros p s2 _ [Hp Hok2]. apply wp_bind.
  apply wp_mono with (Q := λ _ s3, records_ok a0 s3).
  { case_bool_decide; [|by apply wp_ret].
    apply wp_bind, (wp_add_step_ok a0); [done|lia|constructor|simpl; lia|done|].
    intros s3 Hok3 _. apply IH; [lia|lia|lia|done]. }
  intros [] s3 _ Hok3. simpl in Hok3.
  case_bool_decide; [|by apply wp_ret].
  apply wp_bind, (wp_add_step_ok a0); [done|lia|constructor|done|simpl; lia|].
  intros s4 Hok4 _. apply IH; [lia|lia|lia|done].
Qed.

Lemma quick_sort_records (a : list Z) :
  wp sort_algorithm (Store a []) (λ _ s', records_ok a s').
Proof.
  unfold sort_algorithm, quicksort.
  assert (records_ok a (Store a [])) as Hok by (split; [done|constructor]).
  apply wp_bind, (wp_add_step_ok a); [done|lia|constructor|done|done|].
  intros s1 Hok1 Ha1. apply wp_bind, wp_len. apply wp_bind.
  eapply wp_mono.
  { apply (quicksort_rec_records a); [lia| |lia|done].
    rewrite (records_ok_length _ _ Hok1). lia. }
  intros [] s2 _ Hok2. simpl in Hok2.
  apply (wp_add_step_ok a); [done|lia|constructor|done|done|]. done.
Qed.
End quicksort_records.


Lemma py_slice_length {A} (l : list A) (b e : Z) :
  0 ≤ b → b ≤ e → e ≤ Z.of_nat (length l) →
  length (py_slice l b e) = Z.to_nat (e - b).
Proof.
  intros Hb Hbe He. rewrite py_slice_inside by done.
  rewrite length_take, length_drop. lia.
Qed.

Lemma wp_item_in {A T} (l : list A) (i : Z) (s : store A T) Q :
  0 ≤ i < Z.of_nat (length l) →
  (∀ x, l !! Z.to_nat i = Some x → Q x s) →
  wp (item l i) s Q.
Proof.
  intros Hi HQ.
  destruct (lookup_lt_is_Some_2 l (Z.to_nat i)) as [x Hx]; [lia|].
  apply (wp_item _ _ x); [lia|done|]. by apply HQ.
Qed.

Section mergesort_records.
Import MergeSort.
Context {A : Type} (key : A → Z) (show : A → string).
Implicit Types (s : store A (step A)).

(** What holds of every record of a merge sort run on an array of [n]
    elements: the snapshot has [n] elements, and every highlighted index or
    range lies within the array. *)
Definition merge_record_ok (n : nat) (x : step A) : Prop :=
  length (array x) = n ∧
  part_within (Z.of_nat n) (left_subarray x) ∧
  part_within (Z.of_nat n) (right_subarray x) ∧
  part_within (Z.of_nat n) (merging_range x) ∧
  Forall (λ k, 0 ≤ k < Z.of_nat n) (comparing_indices x).

Definition merge_records_ok (n : nat) s : Prop :=
  length (arr s) = n ∧ Forall (merge_record_ok n) (steps s).

Lemma wp_merge_add_step_ok n ls rs mr ci d s Q :
  merge_records_ok n s →
  part_within (Z.of_nat n) ls → part_within (Z.of_nat n) rs →
  part_within (Z.of_nat n) mr →
  Forall (λ k, 0 ≤ k < Z.of_nat n) ci →
  (∀ s', merge_records_ok n s' → Q tt s') →
  wp (add_step ls rs mr ci d) s Q.
Proof.
  intros [Hn Hall] Hls Hrs Hmr Hci HQ. apply wp_record_step.
  apply HQ. split; [done|]. simpl.
  apply Forall_app. split; [done|]. apply Forall_singleton.
  unfold merge_record_ok. simpl. done.
Qed.

Lemma wp_merge_setitem_ok n k x s Q :
  merge_records_ok n s → 0 ≤ k < Z.of_nat n →
  (∀ s', merge_records_ok n s' → Q tt s') →
  wp (setitem k x) s Q.
Proof.
  intros [Hn Hall] Hk HQ. apply wp_setitem; [lia|].
  apply HQ. split; [|done]. simpl. by rewrite length_insert.
Qed.

(** The loop variables stay within the buffers and [k] tracks them. *)
Definition merge_cursor (left : Z) (L Rr : list A) (ijk : Z * Z * Z) : Prop :=
  let '(i, j, k) := ijk in
  0 ≤ i ≤ Z.of_nat (length L) ∧ 0 ≤ j ≤ Z.of_nat (length Rr) ∧ k = left + i + j.

Definition merge_advance (n : nat) (left : Z) (L Rr : list A) (i j : Z)
    (ijk' : Z * Z * Z) s' : Prop :=
  merge_records_ok n s' ∧ merge_cursor left L Rr ijk' ∧
  ∃ i' j' k', ijk' = (i', j', k') ∧ i ≤ i' ∧ j ≤ j' ∧ i' + j' = i + j + 1.

Lemma merge_body_records n left mid right L Rr i j k s :
  0 ≤ left → mid + 1 = left + Z.of_nat (length L) →
  right + 1 = mid + 1 + Z.of_nat (length Rr) → right < Z.of_nat n →
  merge_cursor left L Rr (i, j, k) →
  i < Z.of_nat (length L) → j < Z.of_nat (length Rr) →
  merge_records_ok n s →
  wp (merge_body key show left mid right L Rr (i, j, k)) s
     (merge_advance n left L Rr i j).
Proof.
  intros H0 Hm Hr Hn (Hi & Hj & ->) Hil Hjr Hok. unfold merge_body.
  apply wp_bind, wp_item_in; [lia|]. intros li _.
  apply wp_bind, wp_item_in; [lia|]. intros rj _.
  apply wp_bind, (wp_merge_add_step_ok n); [done|done|done|simpl; lia| |].
  { repeat constructor; lia. }
  intros s1 Hok1.
  apply wp_bind, wp_item_in; [lia|]. intros li' _.
  apply wp_bind, wp_item_in; [lia|]. intros rj' _.
  case_bool_decide.
  - apply wp_bind, wp_item_in; [lia|]. intros x _.
    apply wp_bind, (wp_merge_setitem_ok n); [done|lia|]. intros s2 Hok2.
    apply wp_bind, wp_item_in; [lia|]. intros x' _.
    apply wp_bind, (wp_merge_add_step_ok n); [done|done|done|simpl; lia|constructor|].
    intros s3 Hok3. apply wp_ret. split; [done|]. split; [simpl; lia|].
    exists (i + 1), j, (left + i + j + 1). split; [done|]. lia.
  - apply wp_bind, wp_item_in; [lia|]. intros x _.
    apply wp_bind, (wp_merge_setitem_ok n); [done|lia|]. intros s2 Hok2.
    apply wp_bind, wp_item_in; [lia|]. intros x' _.
    apply wp_bind, (wp_merge_add_step_ok n); [done|done|done|simpl; lia|constructor|].
    intros s3 Hok3. apply wp_ret. split; [done|]. split; [simpl; lia|].
    exists i, (j + 1), (left + i + j + 1). split; [done|]. lia.
Qed.

Lemma copy_left_body_records n left right L Rr i j k s :
  0 ≤ left → right + 1 = left + Z.of_nat (length L) + Z.of_nat (length Rr) →
  right < Z.of_nat n →
  merge_cursor left L Rr (i, j, k) → i < Z.of_nat (length L) →
  merge_records_ok n s →
  wp (copy_left_body show left right L (i, j, k)) s
     (λ ijk' s', merge_records_ok n s' ∧ ijk' = (i + 1, j, k + 1)).
Proof.
  intros H0 Hr Hn (Hi & Hj & ->) Hil Hok. unfold copy_left_body.
  apply wp_bind, wp_item_in; [lia|]. intros x _.
  apply wp_bind, (wp_merge_setitem_ok n); [done|lia|]. intros s2 Hok2.
  apply wp_bind, wp_item_in; [lia|]. intros x' _.
  apply wp_bind, (wp_merge_add_step_ok n); [done|done|done|simpl; lia|constructor|].
  intros s3 Hok3. apply wp_ret. done.
Qed.

Lemma copy_right_body_records n left right L Rr i j k s :
  0 ≤ left → right + 1 = left + Z.of_nat (length L) + Z.of_nat (length Rr) →
  right < Z.of_nat n →
  merge_cursor left L Rr (i, j, k) → j < Z.of_nat (length Rr) →
  merge_records_ok n s →
  wp (copy_right_body show left right Rr (i, j, k)) s
     (λ ijk' s', merge_records_ok n s' ∧ ijk' = (i, j + 1, k + 1)).
Proof.
  intros H0 Hr Hn (Hi & Hj & ->) Hjr Hok. unfold copy_right_body.
  apply wp_bind, wp_item_in; [lia|]. intros x _.
  apply wp_bind, (wp_merge_setitem_ok n); [done|lia|]. intros s2 Hok2.
  apply wp_bind, wp_item_in; [lia|]. intros x' _.
  apply wp_bind, (wp_merge_add_step_ok n); [done|done|done|simpl; lia|constructor|].
  intros s3 Hok3. apply wp_ret. done.
Qed.

Lemma merge_records n left mid right s :
  0 ≤ left → left ≤ mid + 1 → mid ≤ right → right < Z.of_nat n →
  merge_records_ok n s →
  wp (merge key show left mid right) s (λ _ s', merge_records_ok n s').
Proof.
  intros H0 Hlm Hmr Hn Hok. pose proof Hok as [Hlen _]. unfold merge.
  apply wp_bind, wp_slice. apply wp_bind, wp_slice.
  pose proof (py_slice_length (arr s) left (mid + 1)) as HL.
  pose proof (py_slice_length (arr s) (mid + 1) (right + 1)) as HR.
  revert HL HR.
  generalize (py_slice (arr s) left (mid + 1)) (py_slice (arr s) (mid + 1) (right + 1)).
  intros L Rr HL HR.
  specialize (HL ltac:(lia) ltac:(lia) ltac:(lia)).
  specialize (HR ltac:(lia) ltac:(lia) ltac:(lia)).
  apply wp_bind, (wp_merge_add_step_ok n); [done|simpl; lia|simpl; lia|done|constructor|].
  intros s1 Hok1. apply wp_bind.
  apply (wp_while (λ ijk s, merge_cursor left L Rr ijk ∧ merge_records_ok n s)
           (λ '(i, j, _), (Z.to_nat (Z.of_nat (length L) - i)
                           + Z.to_nat (Z.of_nat (length Rr) - j))%nat)).
  { split; [simpl; lia|done]. }
  { lia. }
  { intros [[i j] k] s2 [Hc Hok2] Hcond. apply andb_true_iff in Hcond as [Hi Hj].
    apply bool_decide_eq_true_1 in Hi, Hj.
    eapply wp_mono; [apply (merge_body_records n); [lia|lia|lia|lia|done|done|done|done]|].
    intros ijk' s' _ (Hok' & Hc' & i' & j' & k' & -> & ? & ? & ?).
    split; [done|]. destruct Hc' as (? & ? & _). lia. }
  intros ijk2 s2 _ [Hc2 Hok2] _. apply wp_bind.
  apply (wp_while (λ ijk s, merge_cursor left L Rr ijk ∧ merge_records_ok n s)
           (λ '(i, _, _), Z.to_nat (Z.of_nat (length L) - i))).
  { done. }
  { destruct ijk2 as [[i j] k]. destruct Hc2 as (? & _). lia. }
  { intros [[i j] k] s3 [Hc Hok3] Hcond. apply bool_decide_eq_true_1 in Hcond.
    eapply wp_mono; [apply (copy_left_body_records n left right L Rr); [lia|lia|lia|done|done|done]|].
    intros ijk' s' _ (Hok' & ->). destruct Hc as (? & ? & ->).
    split; [|lia]. split; [simpl; lia|done]. }
  intros ijk3 s3 _ [Hc3 Hok3] _. apply wp_bind.
  apply (wp_while (λ ijk s, merge_cursor left L Rr ijk ∧ merge_records_ok n s)
           (λ '(_, j, _), Z.to_nat (Z.of_nat (length Rr) - j))).
  { done. }
  { destruct ijk3 as [[i j] k]. destruct Hc3 as (_ & ? & _). lia. }
  { intros [[i j] k] s4 [Hc Hok4] Hcond. apply bool_decide_eq_true_1 in Hcond.
    eapply wp_mono; [apply (copy_right_body_records n left right L Rr); [lia|lia|lia|done|done|done]|].
    intros ijk' s' _ (Hok' & ->). destruct Hc as (? & ? & ->).
    split; [|lia]. split; [simpl; lia|done]. }
  intros ijk4 s4 _ [Hc4 Hok4] _.
  apply (wp_merge_add_step_ok n); [done|done|done|simpl; lia|constructor|]. done.
Qed.

Lemma merge_sort_rec_records n depth : ∀ left right s,
  0 ≤ left → right < Z.of_nat n → right - left ≤ Z.of_nat depth →
  merge_records_ok n s →
  wp (merge_sort_rec key show depth left right) s (λ _ s', merge_records_ok n s').
Proof.
  induction depth as [|depth IH]; intros left right s H0 Hr Hd Hok; simpl.
  { rewrite bool_decide_eq_false_2 by lia. by apply wp_ret. }
  case_bool_decide; [|by apply wp_ret].
  set (mid := (left + right) `div` 2).
  assert (left ≤ mid < right) as Hmid
    by (subst mid; Z.div_mod_to_equations; lia).
  clearbody mid.
  apply wp_bind, (wp_merge_add_step_ok n); [done|simpl; lia|simpl; lia|done|constructor|].
  intros s1 Hok1.
  apply wp_bind, (wp_merge_add_step_ok n); [done|simpl; lia|done|done|constructor|].
  intros s2 Hok2. apply wp_bind.
  eapply wp_mono; [apply (IH left mid); [lia|lia|lia|done]|].
  intros [] s3 _ Hok3. simpl in Hok3.
  apply wp_bind, (wp_merge_add_step_ok n); [done|done|simpl; lia|done|constructor|].
  intros s4 Hok4. apply wp_bind.
  eapply wp_mono; [apply (IH (mid + 1) right); [lia|lia|lia|done]|].
  intros [] s5 _ Hok5. simpl in Hok5.
  apply wp_bind, (wp_merge_add_step_ok n); [done|simpl; lia|simpl; lia|done|constructor|].
  intros s6 Hok6. apply merge_records; [lia|lia|lia|lia|done].
Qed.

Lemma merge_sort_records (a : list A) :
  wp (sort_algorithm key show) (Store a []) (λ _ s', merge_records_ok (length a) s').
Proof.
  unfold sort_algorithm, merge_sort_recursive.
  assert (merge_records_ok (length a) (Store a [])) as Hok by (split; [done|constructor]).
  apply wp_bind, (wp_merge_add_step_ok (length a)); [done|done|done|done|constructor|].
  intros s1 Hok1. apply wp_bind, wp_len. apply wp_bind.
  eapply wp_mono.
  { apply (merge_sort_rec_records (length a)); [lia| |lia|done].
    destruct Hok1 as [-> _]. lia. }
  intros [] s2 _ Hok2. simpl in Hok2.
  apply (wp_merge_add_step_ok (length a)); [done|done|done|done|constructor|]. done.
Qed.
End mergesort_records.


Lemma range_snoc (i : Z) : 0 ≤ i → range 0 i ++ [i] = range 0 (i + 1).
Proof.
  intros Hi. unfold range. rewrite !Z.sub_0_r.
  rewrite (seqZ_app 0 i 1) by lia. done.
Qed.

Section selectionsort_records.
Import SelectionSort.
Implicit Types (s : store Z step).

(** What holds of every record of a selection sort run on [a0] while the
    working array is [cur] and [i] positions are final: the snapshot is a
    rearrangement of [a0]; the sorted indices it lists are [0..k-1] for some
    [k <= i]; and at those positions the snapshot already agrees with
    [cur]. *)
Definition sel_record_ok (a0 cur : list Z) (i : Z) (x : step) : Prop :=
  array x ≡ₚ a0 ∧
  ∃ k, 0 ≤ k ≤ i ∧ sorted_indices x = range 0 k ∧
       take (Z.to_nat k) (array x) = take (Z.to_nat k) cur.

Definition sel_records_ok (a0 : list Z) (i : Z) s : Prop :=
  arr s ≡ₚ a0 ∧ Forall (sel_record_ok a0 (arr s) i) (steps s).

Lemma sel_records_ok_length (a0 : list Z) i s :
  sel_records_ok a0 i s → length (arr s) = length a0.
Proof. intros [Hp _]. by apply Permutation_length. Qed.

Lemma sel_records_ok_mono (a0 : list Z) i i' s :
  i ≤ i' → sel_records_ok a0 i s → sel_records_ok a0 i' s.
Proof.
  intros Hi [Hp Hall]. split; [done|].
  eapply Forall_impl; [exact Hall|].
  intros x (Hx & k & Hk & Hs & Ht). split; [done|]. exists k. split; [lia|done].
Qed.

Lemma wp_sel_add_step_ok (a0 : list Z) i cp mi ci d s Q :
  sel_records_ok a0 i s → 0 ≤ i →
  (∀ s', sel_records_ok a0 i s' → arr s' = arr s → Q tt s') →
  wp (add_step cp mi ci (range 0 i) d) s Q.
Proof.
  intros [Hp Hall] Hi HQ. apply wp_record_step.
  apply HQ; [|done]. split; [done|]. simpl.
  apply Forall_app. split; [done|]. apply Forall_singleton.
  split; [done|]. exists i. simpl. split; [lia|done].
Qed.

Lemma wp_sel_swap_ok (a0 : list Z) i p q s Q :
  sel_records_ok a0 i s →
  i ≤ p < Z.of_nat (length a0) → i ≤ q < Z.of_nat (length a0) → 0 ≤ i →
  (∀ s', sel_records_ok a0 i s' → Q tt s') →
  wp (swap p q) s Q.
Proof.
  intros Hok Hp Hq Hi HQ. pose proof (sel_records_ok_length _ _ _ Hok) as Hlen.
  apply wp_swap_in; [lia|lia|]. intros x y Hx Hy. apply HQ.
  destruct Hok as [Hperm Hall]. split.
  - simpl. by rewrite Permutation_insert_swap.
  - simpl. eapply Forall_impl; [exact Hall|].
    intros r (Hr & k & Hk & Hs & Ht). split; [done|]. exists k.
    split; [done|]. split; [done|].
    rewrite !take_insert_ge by lia. done.
Qed.

Lemma scan_body_records (a0 : list Z) i j min_idx s :
  0 ≤ i → i < j < Z.of_nat (length a0) → i ≤ min_idx < j →
  sel_records_ok a0 i s →
  wp (scan_body i (range 0 i) j min_idx) s
     (λ m s', i ≤ m < j + 1 ∧ sel_records_ok a0 i s').
Proof.
  intros H0 Hj Hm Hok. pose proof (sel_records_ok_length _ _ _ Hok) as Hlen.
  unfold scan_body.
  apply wp_bind, wp_getitem_in; [lia|]. intros aj _.
  apply wp_bind, wp_getitem_in; [lia|]. intros am _.
  apply wp_bind, (wp_sel_add_step_ok a0); [done|done|]. intros s1 Hok1 Ha1.
  apply wp_bind, wp_getitem_in; [rewrite Ha1; lia|]. intros aj' _.
  apply wp_bind, wp_getitem_in; [rewrite Ha1; lia|]. intros am' _.
  case_bool_decide; [|apply wp_ret; split; [lia|done]].
  apply wp_bind, wp_getitem_in; [rewrite Ha1; lia|]. intros aj'' _.
  apply wp_bind, (wp_sel_add_step_ok a0); [done|done|]. intros s2 Hok2 _.
  apply wp_ret. split; [lia|done].
Qed.

Lemma round_body_records (a0 : list Z) i s :
  0 ≤ i < Z.of_nat (length a0) →
  sel_records_ok a0 i s →
  wp (round_body (Z.of_nat (length a0)) i (range 0 i)) s
     (λ acc s', acc = range 0 (i + 1) ∧ sel_records_ok a0 (i + 1) s').
Proof.
  intros Hi Hok. pose proof (sel_records_ok_length _ _ _ Hok) as Hlen.
  unfold round_body.
  apply wp_bind, (wp_sel_add_step_ok a0); [done|lia|]. intros s1 Hok1 Ha1.
  apply wp_bind, wp_getitem_in; [rewrite Ha1; lia|]. intros ai _.
  apply wp_bind, (wp_sel_add_step_ok a0); [done|lia|]. intros s2 Hok2 Ha2.
  apply wp_bind.
  apply (wp_for_range (λ j m s, i ≤ m < j ∧ sel_records_ok a0 i s)); [lia| | |].
  - split; [lia|done].
  - intros j m s3 Hj [Hm Hok3]. apply scan_body_records; [lia|lia|lia|done].
  - intros m s3 _ [Hm Hok3].
    pose proof (sel_records_ok_length _ _ _ Hok3) as Hlen3.
    apply wp_bind.
    apply wp_mono with (Q := λ _ s4, sel_records_ok a0 i s4).
    { case_bool_decide.
      - apply wp_bind, wp_getitem_in; [lia|]. intros x _.
        apply wp_bind, wp_getitem_in; [lia|]. intros y _.
        apply wp_bind, (wp_sel_add_step_ok a0); [done|lia|]. intros s4 Hok4 Ha4.
        apply wp_bind, (wp_sel_swap_ok a0 i); [done|lia|lia|lia|]. intros s5 Hok5.
        pose proof (sel_records_ok_length _ _ _ Hok5) as Hlen5.
        apply wp_bind, wp_getitem_in; [lia|]. intros z _.
        apply (wp_sel_add_step_ok a0); [done|lia|]. done.
      - apply wp_bind, wp_getitem_in; [lia|]. intros x _.
        apply (wp_sel_add_step_ok a0); [done|lia|]. done. }
    intros [] s4 _ Hok4. simpl in Hok4.
    pose proof (sel_records_ok_length _ _ _ Hok4) as Hlen4.
    apply wp_bind, wp_getitem_in; [lia|]. intros x _.
    rewrite range_snoc by lia.
    apply wp_bind, (wp_sel_add_step_ok a0); [|lia|].
    { apply (sel_records_ok_mono a0 i); [lia|done]. }
    intros s5 Hok5 _. apply wp_ret. done.
Qed.

Lemma selection_sort_records (a : list Z) :
  wp sort_algorithm (Store a [])
     (λ _ s', sel_records_ok a (Z.of_nat (length a)) s').
Proof.
  unfold sort_algorithm.
  assert (sel_records_ok a 0 (Store a [])) as Hok by (split; [done|constructor]).
  apply wp_bind, wp_len. simpl.
  apply wp_bind. change [] with (range 0 0) at 1.
  apply (wp_sel_add_step_ok a); [done|lia|]. intros s1 Hok1 _.
  apply wp_bind. change [] with (range 0 0) at 1.
  apply (wp_for_range (λ i acc s, acc = range 0 i ∧ sel_records_ok a i s)); [lia| | |].
  - done.
  - intros i acc s2 Hi [-> Hok2]. by apply round_body_records.
  - intros acc s2 _ [-> Hok2].
    apply (wp_sel_add_step_ok a); [done|lia|]. done.
Qed.
End selectionsort_records.


(** ** The bar colours *)

Section painting.
Context {T : Type}.
Implicit Types (s : store string T).

Lemma wp_for_range_inv {R} (I : R → store string T → Prop) lo hi
    (body : Z → R → M string T R) acc s Q :
  I acc s →
  (∀ j acc s, lo ≤ j < hi → I acc s → wp (body j acc) s (λ acc' s', I acc' s')) →
  (∀ acc s', I acc s' → Q acc s') →
  wp (for_each (range lo hi) body acc) s Q.
Proof.
  intros HI Hbody HQ. destruct (decide (lo ≤ hi)) as [Hle|Hgt].
  - apply (wp_for_range (λ _, I)); [done|done|done|]. intros. by apply HQ.
  - unfold range. rewrite seqZ_nil by lia. apply wp_ret. by apply HQ.
Qed.

(** [for idx in xs: if 0 <= idx < len(colors): colors[idx] = c]: every
    listed index that is in range ends up with colour [c]; the other cells
    and the length are untouched. *)
Lemma paint_indices_spec (xs : list Z) (c : string) : ∀ s,
  wp (for_each xs
        (λ idx _, n <- len;;
                  if bool_decide (0 ≤ idx < n) then setitem idx c else ret tt) tt) s
     (λ _ s',
        length (arr s') = length (arr s) ∧
        (∀ k, k ∈ xs → 0 ≤ k < Z.of_nat (length (arr s)) →
              arr s' !! Z.to_nat k = Some c) ∧
        (∀ k, 0 ≤ k → k ∉ xs → arr s' !! Z.to_nat k = arr s !! Z.to_nat k)).
Proof.
  induction xs as [|idx xs IH]; intros s; simpl.
  { apply wp_ret. split; [done|]. split; [|done]. intros k Hk. by apply elem_of_nil in Hk. }
  apply wp_bind, wp_bind, wp_len.
  apply wp_mono with (Q := λ _ s1,
    length (arr s1) = length (arr s) ∧
    (0 ≤ idx < Z.of_nat (length (arr s)) → arr s1 !! Z.to_nat idx = Some c) ∧
    (∀ k, 0 ≤ k → k ≠ idx → arr s1 !! Z.to_nat k = arr s !! Z.to_nat k)).
  { case_bool_decide as Hin.
    - apply wp_setitem; [done|]. simpl. split; [by rewrite length_insert|]. split.
      + intros _. apply list_lookup_insert_eq. lia.
      + intros k Hk Hne. apply list_lookup_insert_ne. lia.
    - apply wp_ret. split; [done|]. split; [intros; lia|done]. }
  intros [] s1 _ (Hlen1 & Hidx & Hother). simpl in *.
  eapply wp_mono; [apply IH|].
  intros [] s2 _ (Hlen2 & Hin2 & Hout2). simpl in *.
  split; [congruence|]. split.
  - intros k Hk Hrange. destruct (decide (k ∈ xs)) as [Hkxs|Hkxs].
    + apply Hin2; [done|]. rewrite Hlen1. done.
    + apply elem_of_cons in Hk as [->|Hk]; [|done].
      rewrite Hout2 by (done || lia). by apply Hidx.
  - intros k Hk Hnot. apply not_elem_of_cons in Hnot as [Hne Hnot].
    rewrite Hout2 by done. by apply Hother.
Qed.
End painting.

Lemma color_pivot_not_default : color "pivot" ≠ color "default".
Proof. vm_compute. discriminate. Qed.

Section quicksort_painting.
Import QuickSort.
Implicit Types (s : store string unit).

(** While painting, the list keeps its length and the pivot's cell, once
    painted, keeps the pivot colour. *)
Definition pivot_kept (n : nat) (pivot : Z) s : Prop :=
  length (arr s) = n ∧
  (0 ≤ pivot → arr s !! Z.to_nat pivot = Some (color "pivot")).

Lemma paint_part_spec n pivot part c s :
  part_within (Z.of_nat n) part → pivot_kept n pivot s →
  wp (paint_part part c) s (λ _ s', pivot_kept n pivot s').
Proof.
  intros Hpart Hkept. destruct part as [[start end_]|]; simpl; [|by apply wp_ret].
  destruct Hpart as [Hs He]. apply wp_bind, wp_len.
  apply (wp_for_range_inv (λ _, pivot_kept n pivot)); [done| |done].
  intros i [] s1 Hi [Hlen Hpv].
  apply wp_bind, wp_getitem_in; [lia|]. intros ci Hci.
  case_bool_decide as Hdef; [|by apply wp_ret].
  apply wp_setitem; [lia|]. split; simpl; [by rewrite length_insert|].
  intros Hp. rewrite list_lookup_insert_ne; [by apply Hpv|].
  intros Heq. assert (i = pivot) as -> by lia.
  rewrite (Hpv Hp) in Hci. injection Hci as <-.
  by apply color_pivot_not_default.
Qed.

Lemma paint_spec n (x : step) s :
  length (arr s) = n →
  -1 ≤ pivot_idx x < Z.of_nat n →
  Forall (λ k, 0 ≤ k < Z.of_nat n) (comparing_indices x) →
  part_within (Z.of_nat n) (left_part x) →
  part_within (Z.of_nat n) (right_part x) →
  wp (paint (Some x)) s (λ _ s', pivot_kept n (pivot_idx x) s').
Proof.
  intros Hlen Hpv Hci Hlp Hrp. simpl. apply wp_bind.
  apply wp_mono with (Q := λ _ s1, pivot_kept n (pivot_idx x) s1).
  { case_bool_decide.
    - apply wp_setitem; [lia|]. split; simpl; [by rewrite length_insert|].
      intros _. apply list_lookup_insert_eq. lia.
    - apply wp_ret. split; [done|]. intros; lia. }
  intros [] s1 _ Hk1. simpl in Hk1. apply wp_bind.
  apply wp_mono with (Q := λ _ s2, pivot_kept n (pivot_idx x) s2).
  { revert s1 Hk1. induction Hci as [|idx xs Hidx _ IH]; intros s1 Hk1; simpl.
    { by apply wp_ret. }
    apply wp_bind.
    apply wp_mono with (Q := λ _ s2, pivot_kept n (pivot_idx x) s2).
    { destruct Hk1 as [Hlen1 Hp1]. case_bool_decide as Hne.
      - apply wp_setitem; [lia|]. split; simpl; [by rewrite length_insert|].
        intros Hp. rewrite list_lookup_insert_ne by lia. by apply Hp1.
      - by apply wp_ret. }
    intros [] s2 _ Hk2. by apply IH. }
  intros [] s2 _ Hk2. simpl in Hk2. apply wp_bind.
  eapply wp_mono; [by apply (paint_part_spec n (pivot_idx x))|].
  intros [] s3 _ Hk3. simpl in Hk3.
  by apply (paint_part_spec n (pivot_idx x)).
Qed.

Lemma draw_array_record_ok (a0 : list Z) (x : step) :
  record_ok a0 x →
  ∃ colors,
    draw_array (array x) (Some x) = Ok colors ∧
    length colors = length a0 ∧
    (0 ≤ pivot_idx x → colors !! Z.to_nat (pivot_idx x) = Some (color "pivot")).
Proof.
  intros (Hperm & Hpv & Hci & Hlp & Hrp).
  pose proof (Permutation_length Hperm) as Hlen.
  unfold draw_array, bar_colors.
  destruct (array x) as [|y ys] eqn:Harr.
  { exists []. split; [done|]. split; [done|]. simpl in Hlen. lia. }
  rewrite Hlen.
  destruct (wp_elim _ _ _
              (paint_spec (length a0) x
                 (Store (replicate (length a0) (color "default")) [])
                 (length_replicate _ _) Hpv Hci Hlp Hrp))
    as ([] & [colors u] & -> & [Hl Hp] & _).
  by exists colors.
Qed.
End quicksort_painting.


Section mergesort_painting.
Import MergeSort.
Context {A : Type}.
Implicit Types (s : store string unit).

Lemma paint_range_spec n part c s :
  part_within (Z.of_nat n) part → length (arr s) = n →
  wp (paint_range part c) s (λ _ s', length (arr s') = n).
Proof.
  intros Hpart Hlen. destruct part as [[start end_]|]; simpl; [|by apply wp_ret].
  destruct Hpart as [Hs He]. apply wp_bind, wp_len.
  apply (wp_for_range_inv (λ _ s, length (arr s) = n)); [done| |done].
  intros i [] s1 Hi Hlen1.
  apply wp_setitem; [lia|]. simpl. by rewrite length_insert.
Qed.

Lemma merge_draw_array_record_ok n (x : step A) :
  merge_record_ok n x →
  ∃ colors,
    draw_array (array x) (Some x) = Ok colors ∧
    length colors = n ∧
    Forall (λ k, colors !! Z.to_nat k = Some (color "comparing")) (comparing_indices x).
Proof.
  intros (Hlen & Hls & Hrs & Hmr & Hci).
  unfold draw_array, bar_colors.
  destruct (array x) as [|y ys] eqn:Harr.
  { exists []. split; [done|]. split; [done|].
    eapply Forall_impl; [exact Hci|]. intros k Hk. simpl in *. lia. }
  rewrite Hlen.
  assert (wp (paint (Some x)) (Store (replicate n (color "default")) [])
            (λ _ s', length (arr s') = n ∧
               Forall (λ k, arr s' !! Z.to_nat k = Some (color "comparing"))
                 (comparing_indices x))) as Hwp.
  { simpl. apply wp_bind.
    eapply wp_mono; [apply (paint_range_spec n); [done|apply length_replicate]|].
    intros [] s1 _ Hl1. simpl in Hl1. apply wp_bind.
    eapply wp_mono; [by apply (paint_range_spec n)|].
    intros [] s2 _ Hl2. simpl in Hl2. apply wp_bind.
    eapply wp_mono; [by apply (paint_range_spec n)|].
    intros [] s3 _ Hl3. simpl in Hl3.
    eapply wp_mono; [apply paint_indices_spec|].
    intros [] s4 _ (Hl4 & Hin & _). simpl in *. split; [congruence|].
    apply Forall_forall. intros k Hk. apply Hin; [done|].
    rewrite Forall_forall in Hci. rewrite Hl3. by apply Hci. }
  destruct (wp_elim _ _ _ Hwp) as ([] & [colors u] & -> & [Hl Hc] & _).
  by exists colors.
Qed.
End mergesort_painting.

Section selectionsort_painting.
Import SelectionSort.
Implicit Types (s : store string unit).

(** While painting, the list keeps its length and the cells of the sorted
    indices keep the sorted colour. *)
Definition sorted_kept (n : nat) (sorted : list Z) s : Prop :=
  length (arr s) = n ∧
  ∀ k, k ∈ sorted → 0 ≤ k < Z.of_nat n →
       arr s !! Z.to_nat k = Some (color "sorted").

Lemma paint_role_spec n sorted idx c s :
  sorted_kept n sorted s →
  wp (paint_role idx c) s (λ _ s', sorted_kept n sorted s').
Proof.
  intros [Hlen Hkept]. unfold paint_role. apply wp_bind, wp_len.
  case_bool_decide as Hin; [|by apply wp_ret].
  apply wp_bind, wp_getitem_in; [lia|]. intros ci Hci.
  case_bool_decide as Hne; [|by apply wp_ret].
  apply wp_setitem; [lia|]. split; simpl; [by rewrite length_insert|].
  intros k Hk Hrange. rewrite list_lookup_insert_ne; [by apply Hkept|].
  intros Heq. assert (idx = k) as -> by lia.
  rewrite (Hkept k Hk Hrange) in Hci. by injection Hci as <-.
Qed.

Lemma selection_draw_array_spec (array : list Z) (x : step) :
  ∃ colors,
    draw_array array (Some x) = Ok colors ∧
    length colors = length array ∧
    ∀ k, k ∈ sorted_indices x → 0 ≤ k < Z.of_nat (length array) →
         colors !! Z.to_nat k = Some (color "sorted").
Proof.
  unfold draw_array, bar_colors.
  destruct array as [|y ys].
  { exists []. split; [done|]. split; [done|]. simpl. intros; lia. }
  set (n := length (y :: ys)).
  assert (wp (paint (Some x)) (Store (replicate n (color "default")) [])
            (λ _ s', sorted_kept n (sorted_indices x) s')) as Hwp.
  { simpl. apply wp_bind.
    eapply wp_mono; [apply paint_indices_spec|].
    intros [] s1 _ (Hl1 & Hin & _). simpl in *. rewrite length_replicate in Hl1, Hin.
    assert (sorted_kept n (sorted_indices x) s1) as Hk1 by done.
    apply wp_bind. eapply wp_mono; [by apply (paint_role_spec n)|].
    intros [] s2 _ Hk2. simpl in Hk2.
    apply wp_bind. eapply wp_mono; [by apply (paint_role_spec n)|].
    intros [] s3 _ Hk3. simpl in Hk3.
    by apply (paint_role_spec n). }
  destruct (wp_elim _ _ _ Hwp) as ([] & [colors u] & -> & [Hl Hc] & _).
  by exists colors.
Qed.
End selectionsort_painting.


Lemma run_engine_wp {T} `{!Engine T} (a : list Z) (Q : unit → store Z T → Prop) :
  wp sort_algorithm (Store a []) Q →
  ∃ a' st, run_engine a = Ok (a', st) ∧ Q tt (Store a' st).
Proof.
  intros Hwp. apply wp_elim in Hwp as ([] & [a' st] & Hrun & HQ & _).
  exists a', st. unfold run_engine. by rewrite Hrun.
Qed.

(** X5: every record of a quick sort run, not only the last, holds a
    rearrangement of the input array, and every index and range it
    highlights (pivot, compared positions, left and right part) lies within
    the array; the only index outside is the placeholder [-1] for "no
    pivot". *)
Theorem quick_sort_every_record (a : list Z) :
  ∃ a' st,
    run_engine (T := QuickSort.step) a = Ok (a', st) ∧
    Forall (record_ok a) st.
Proof.
  destruct (@run_engine_wp _ quick_sort a _ (quick_sort_records a))
    as (a' & st & Hrun & _ & Hall).
  by exists a', st.
Qed.

(** X6: [draw_array] never fails on a record of a quick sort run shown over
    its own snapshot: it yields one colour per bar, and when the record tags
    a pivot, the pivot's bar has the pivot colour (the later colouring of
    compared positions and of the left and right part does not paint over
    it). *)
Theorem quick_sort_draw_array (a : list Z) :
  ∃ a' st,
    run_engine (T := QuickSort.step) a = Ok (a', st) ∧
    Forall (λ x, ∃ colors,
              QuickSort.draw_array (QuickSort.array x) (Some x) = Ok colors ∧
              length colors = length a ∧
              (0 ≤ QuickSort.pivot_idx x →
               colors !! Z.to_nat (QuickSort.pivot_idx x) = Some (color "pivot"))) st.
Proof.
  destruct (@run_engine_wp _ quick_sort a _ (quick_sort_records a))
    as (a' & st & Hrun & _ & Hall).
  exists a', st. split; [done|].
  eapply Forall_impl; [exact Hall|]. intros x Hx. by apply draw_array_record_ok.
Qed.

(** X7: every record of a merge sort run holds a snapshot of the input's
    length, and every range and compared position it highlights lies within
    the array. *)
Theorem merge_sort_every_record {A : Type} (key : A → Z) (show : A → string)
    (a : list A) :
  ∃ a' st,
    MergeSort.sort_algorithm key show (Store a []) = Ok (tt, Store a' st) ∧
    Forall (merge_record_ok (length a)) st.
Proof.
  destruct (wp_elim _ _ _ (merge_sort_records key show a))
    as ([] & [a' st] & Hrun & [_ Hall] & _).
  by exists a', st.
Qed.

(** X8: [draw_array] never fails on a record of a merge sort run shown
    over its own snapshot: it yields one colour per bar, and the compared
    positions, which are painted last, have the comparing colour. *)
Theorem merge_sort_draw_array {A : Type} (key : A → Z) (show : A → string)
    (a : list A) :
  ∃ a' st,
    MergeSort.sort_algorithm key show (Store a []) = Ok (tt, Store a' st) ∧
    Forall (λ x, ∃ colors,
              MergeSort.draw_array (MergeSort.array x) (Some x) = Ok colors ∧
              length colors = length a ∧
              Forall (λ k, colors !! Z.to_nat k = Some (color "comparing"))
                (MergeSort.comparing_indices x)) st.
Proof.
  destruct (wp_elim _ _ _ (merge_sort_records key show a))
    as ([] & [a' st] & Hrun & [_ Hall] & _).
  exists a', st. split; [done|].
  eapply Forall_impl; [exact Hall|]. intros x Hx.
  by apply merge_draw_array_record_ok.
Qed.

(** X9: every record of a selection sort run holds a rearrangement of the
    input array; the sorted indices it lists are exactly [0..k-1] for some
    [k], and at those positions its snapshot already holds the values of
    the final array: a position marked sorted never changes again. *)
Theorem selection_sort_every_record (a : list Z) :
  ∃ a' st,
    run_engine (T := SelectionSort.step) a = Ok (a', st) ∧
    Forall (sel_record_ok a a' (Z.of_nat (length a))) st.
Proof.
  destruct (@run_engine_wp _ selection_sort a _ (selection_sort_records a))
    as (a' & st & Hrun & _ & Hall).
  by exists a', st.
Qed.

(** X10: [draw_array] of the selection sort visualiser never fails,
    whatever the record and the array, and it gives every in-range index
    listed as sorted the sorted colour: the current, minimum and comparing
    roles never paint over a sorted bar. *)
Theorem selection_sort_draw_array (array : list Z) (x : SelectionSort.step) :
  ∃ colors,
    SelectionSort.draw_array array (Some x) = Ok colors ∧
    length colors = length array ∧
    ∀ k, k ∈ SelectionSort.sorted_indices x → 0 ≤ k < Z.of_nat (length array) →
         colors !! Z.to_nat k = Some (color "sorted").
Proof. apply selection_draw_array_spec. Qed.

(** Every snapshot of a run has as many elements as the input. *)
Lemma every_snapshot_length (al : algorithm) (a : list Z) :
  ∃ a' st,
    run_engine (T := step_of al) a = Ok (a', st) ∧
    length a' = length a ∧
    Forall (λ x, length (snapshot x) = length a) st.
Proof.
  destruct (every_sort_run_ok al a) as (a' & st & _ & _ & Hrun & _ & _ & _ & _ & Hp & _).
  exists a', st. split; [done|]. split; [by apply Permutation_length|].
  destruct al; simpl in *.
  - destruct (@run_engine_wp _ quick_sort a _ (quick_sort_records a))
      as (? & st' & Hrun' & _ & Hall).
    assert (st' = st) as -> by congruence.
    eapply Forall_impl; [exact Hall|]. intros r (Hr & _). by apply Permutation_length.
  - destruct (wp_elim _ _ _ (merge_sort_records id pretty a))
      as ([] & [? st'] & Hrun' & [_ Hall] & _).
    unfold run_engine in Hrun. simpl in Hrun. rewrite Hrun' in Hrun.
    assert (st' = st) as -> by congruence.
    eapply Forall_impl; [exact Hall|]. by intros r (Hr & _).
  - destruct (@run_engine_wp _ selection_sort a _ (selection_sort_records a))
      as (? & st' & Hrun' & _ & Hall).
    assert (st' = st) as -> by congruence.
    eapply Forall_impl; [exact Hall|]. intros r (Hr & _). by apply Permutation_length.
Qed.


(** * The properties of the specification *)

(** C1 (sortedness): for each of the three engines and every input array,
    one sort run on a copy of the array returns normally with a non-empty
    step sequence, and the array snapshot of its last record is in
    non-decreasing order. *)
Theorem final_snapshot_sorted (al : algorithm) (a : list Z) :
  ∃ a' st final,
    run_engine (T := step_of al) a = Ok (a', st) ∧
    last st = Some final ∧
    Sorted Z.le (snapshot final).
Proof.
  destruct (every_sort_run_ok al a)
    as (a' & st & first & final & Hrun & _ & _ & Hl & Hf & _ & Hs).
  exists a', st, final. by rewrite Hf.
Qed.

(** C2 (permutation invariance): for each of the three engines and every
    input array, the array snapshot of the last record is a permutation of
    the input. *)
Theorem final_snapshot_permutation (al : algorithm) (a : list Z) :
  ∃ a' st final,
    run_engine (T := step_of al) a = Ok (a', st) ∧
    last st = Some final ∧
    snapshot final ≡ₚ a.
Proof.
  destruct (every_sort_run_ok al a)
    as (a' & st & first & final & Hrun & _ & _ & Hl & Hf & Hp & _).
  exists a', st, final. by rewrite Hf.
Qed.

(** C3 (stability of merge sort): whatever the elements are and whichever
    of them share a key, the last snapshot of a merge sort run lists the
    elements of each key in the order they have in the input.  It follows
    from [list_merge_stable]: the merge takes the left candidate whenever its
    key is [<=] the right one's. *)
Theorem merge_sort_stable {A : Type} (key : A → Z) (show : A → string) (a : list A) :
  ∃ a' st final,
    MergeSort.sort_algorithm key show (Store a []) = Ok (tt, Store a' st) ∧
    last st = Some final ∧
    MergeSort.array final = a' ∧
    Sorted (key_le key) a' ∧
    ∀ v, filter (same_key key v) a' = filter (same_key key v) a.
Proof.
  destruct (wp_elim _ _ _ (merge_sort_algorithm_spec key show a))
    as ([] & [a' st] & Hrun & (_ & (final & Hl & Hf) & _ & Hs & Hstable) & _).
  exists a', st, final. done.
Qed.

(** Equal keys told apart by a tag: the run keeps 3a before 3c and 1b
    before 1d. *)
Example merge_sort_stable_tagged :
  match MergeSort.sort_algorithm fst (λ x, pretty (fst x) +:+ snd x)
          (Store [(3, "a"); (1, "b"); (3, "c"); (1, "d")] []) with
  | Ok (_, s) => arr s = [(1, "b"); (1, "d"); (3, "a"); (3, "c")]
  | Raise _ => False
  end.
Proof. vm_compute. reflexivity. Qed.

(** C6 as stated fails: in the run on [5,2,8,1,9] no record tags the left
    half-range (0,1) together with the right half-range (2,4). *)
Lemma dividing_step_0_1_2_4_absent :
  ∃ a' st,
    run_engine (T := MergeSort.step Z) [5; 2; 8; 1; 9] = Ok (a', st) ∧
    Forall (λ x, ¬ (MergeSort.left_subarray x = Some (0, 1) ∧
                    MergeSort.right_subarray x = Some (2, 4))) st.
Proof.
  eexists _, _. split; [vm_compute; reflexivity|].
  repeat constructor; simpl; intros [? ?]; discriminate.
Qed.

(** C6 (amended): in the merge sort run on [5,2,8,1,9] the second record is
    the "dividing" step for [left = 0], [right = 4], [mid = 2]; it tags
    the inclusive half-ranges [(left, mid) = (0, 2)] and
    [(mid + 1, right) = (3, 4)]. *)
Theorem dividing_step_scenario :
  ∃ a' st x,
    run_engine (T := MergeSort.step Z) [5; 2; 8; 1; 9] = Ok (a', st) ∧
    st !! 1%nat = Some x ∧
    MergeSort.description x = "Dividing array: Left[0:2], Right[3:4]" ∧
    MergeSort.left_subarray x = Some (0, 2) ∧
    MergeSort.right_subarray x = Some (3, 4) ∧
    (0 + 4) `div` 2 = 2.
Proof.
  eexists _, _, _. split; [vm_compute; reflexivity|].
  split; [reflexivity|]. done.
Qed.

(** C7 as stated fails: the first record of the quick sort run on
    [5,2,8,1,9] is the initial-state record; it tags no pivot and its
    description is not the pivot selection. *)
Lemma first_step_names_no_pivot :
  ∃ a' st first,
    run_engine (T := QuickSort.step) [5; 2; 8; 1; 9] = Ok (a', st) ∧
    head st = Some first ∧
    QuickSort.description first = "Initial state - Quick Sort algorithm starting" ∧
    QuickSort.description first ≠ "Pivot selected: 9 (index: 4)" ∧
    QuickSort.pivot_idx first = -1.
Proof.
  eexists _, _, _. split; [vm_compute; reflexivity|].
  split; [reflexivity|]. done.
Qed.

(** C7 (amended): the quick sort run on [5,2,8,1,9] ends with the snapshot
    [1,2,5,8,9]; its first two records (initial state, range announcement)
    tag no pivot, and the third record, the first to name a pivot, names
    pivot value 9 at index 4. *)
Theorem quicksort_scenario :
  ∃ a' st s0 s1 s2 final,
    run_engine (T := QuickSort.step) [5; 2; 8; 1; 9] = Ok (a', st) ∧
    last st = Some final ∧ QuickSort.array final = [1; 2; 5; 8; 9] ∧
    st !! 0%nat = Some s0 ∧ QuickSort.pivot_idx s0 = -1 ∧
    st !! 1%nat = Some s1 ∧ QuickSort.pivot_idx s1 = -1 ∧
    st !! 2%nat = Some s2 ∧ QuickSort.pivot_idx s2 = 4 ∧
    QuickSort.description s2 = "Pivot selected: 9 (index: 4)".
Proof.
  eexists _, _, _, _, _, _. split; [vm_compute; reflexivity|].
  split; [reflexivity|]. split; [reflexivity|].
  split; [reflexivity|]. split; [reflexivity|].
  split; [reflexivity|]. split; [reflexivity|].
  split; [reflexivity|]. done.
Qed.

(** C8: for every partition of a subrange [low..high] of the array, the
    call returns normally and its last record is the "partition completed"
    step.  Let [i] be the final boundary of the scan: [i - (low - 1)] is the
    number of elements of the input's [a[low..high-1]] that are [<= pivot],
    [pivot] the input's [a[high]].  The pivot ends at [p = i + 1], the
    position returned and tagged: only [low..high] is rearranged, what is
    left of [p] is [<= pivot] and what is right of it is [> pivot].  The
    record carries the left range [(low, i)] exactly when [i >= low] and the
    right range [(i + 2, high)] exactly when [i + 2 <= high], and no range
    otherwise. *)
Theorem partition_completed_ranges (low high : Z) (a : list Z) (st : list QuickSort.step) :
  0 ≤ low → low ≤ high → high < Z.of_nat (length a) →
  ∃ i pivot a' st' final,
    QuickSort.partition low high (Store a st) = Ok (i + 1, Store a' st') ∧
    a !! Z.to_nat high = Some pivot ∧
    i = low - 1 + Z.of_nat (length (filter (λ x, x ≤ pivot)
                      (take (Z.to_nat (high - low)) (drop (Z.to_nat low) a)))) ∧
    frame_perm low high a a' ∧
    a' !! Z.to_nat (i + 1) = Some pivot ∧
    (∀ k x, low ≤ k < i + 1 → a' !! Z.to_nat k = Some x → x ≤ pivot) ∧
    (∀ k x, i + 1 < k ≤ high → a' !! Z.to_nat k = Some x → pivot < x) ∧
    last st' = Some final ∧
    QuickSort.array final = a' ∧
    QuickSort.description final
      = "Partition completed. Pivot position: " +:+ pretty (i + 1) ∧
    QuickSort.pivot_idx final = i + 1 ∧
    QuickSort.left_part final
      = (if bool_decide (i >= low) then Some (low, i) else None) ∧
    QuickSort.right_part final
      = (if bool_decide (i + 2 ≤ high) then Some (i + 2, high) else None).
Proof.
  intros H0 Hlh Hhi.
  destruct (wp_elim _ _ _ (partition_spec low high (Store a st) H0 Hlh Hhi))
    as (p & [a' st'] & Hrun & (Hp & Hf & (pivot & Hpv & Hle & Hgt) & Hlast & Hsame) & _).
  simpl in *. rewrite Hpv in Hsame.
  pose proof (partition_boundary low high a a' p pivot H0 Hp Hf (eq_sym Hsame)
                Hpv Hle Hgt) as Hb.
  exists (p - 1), pivot, a', st', (partition_completed low high (p - 1) a').
  replace (p - 1 + 1) with p by lia.
  split; [done|]. split; [done|]. split; [lia|]. split; [done|].
  split; [done|]. split; [done|]. split; [done|]. split; [done|].
  simpl. replace (p - 1 + 1) with p by lia. done.
Qed.

Lemma partition_completed_ranges_witness :
  ∃ i pivot a' st' final,
    QuickSort.partition 0 4 (Store [5; 2; 8; 1; 9] []) = Ok (i + 1, Store a' st') ∧
    [5; 2; 8; 1; 9] !! Z.to_nat 4 = Some pivot ∧
    i = 0 - 1 + Z.of_nat (length (filter (λ x, x ≤ pivot)
                    (take (Z.to_nat (4 - 0)) (drop (Z.to_nat 0) [5; 2; 8; 1; 9])))) ∧
    frame_perm 0 4 [5; 2; 8; 1; 9] a' ∧
    a' !! Z.to_nat (i + 1) = Some pivot ∧
    (∀ k x, 0 ≤ k < i + 1 → a' !! Z.to_nat k = Some x → x ≤ pivot) ∧
    (∀ k x, i + 1 < k ≤ 4 → a' !! Z.to_nat k = Some x → pivot < x) ∧
    last st' = Some final ∧
    QuickSort.array final = a' ∧
    QuickSort.description final
      = "Partition completed. Pivot position: " +:+ pretty (i + 1) ∧
    QuickSort.pivot_idx final = i + 1 ∧
    QuickSort.left_part final
      = (if bool_decide (i >= 0) then Some (0, i) else None) ∧
    QuickSort.right_part final
      = (if bool_decide (i + 2 ≤ 4) then Some (i + 2, 4) else None).
Proof.
  apply (partition_completed_ranges 0 4 [5; 2; 8; 1; 9] []); simpl; lia.
Defined.

(** C10: for each of the three engines and every input array (in particular
    every non-empty one), the step sequence of a sort run has a first
    record, and its array snapshot is the input array itself. *)
Theorem first_snapshot_is_input (al : algorithm) (a : list Z) :
  ∃ a' st first,
    run_engine (T := step_of al) a = Ok (a', st) ∧
    head st = Some first ∧
    snapshot first = a.
Proof.
  destruct (every_sort_run_ok al a)
    as (a' & st & first & final & Hrun & Hh & Hf & _).
  by exists a', st, first.
Qed.

Import Playback.

(** C4 as stated fails: after [start] and 23 auto-advance ticks on the
    quick sort run for [5,2,8,1,9] (24 records) the cursor is 24, the length
    of the sequence: the tick that shows the last record still advances. *)
Lemma cursor_reaches_length :
  ∃ v',
    exec_all (T := QuickSort.step) (Start :: replicate 23 Tick)
      (set_manual_array [5; 2; 8; 1; 9] new) = Ok v' ∧
    length (steps v') = 24%nat ∧
    current_step v' = 24 ∧
    ¬ (0 ≤ current_step v' < Z.of_nat (length (steps v'))).
Proof.
  eexists. split; [vm_compute; reflexivity|].
  split; [reflexivity|]. split; [reflexivity|]. simpl. lia.
Qed.

(** C4 (amended): for each of the three visualisers and whatever array is
    installed, every event (start, fast start, pause, reset, step forward,
    step backward, auto-advance tick) returns normally, and
    - when the events are delivered one at a time, no handler running inside
      another, the cursor stays within [0 <= cursor <= N], [N] the length of
      the step sequence;
    - when handlers run inside one another, dispatched by the [update()] of
      [log_message] in whatever nesting, the cursor still never goes below
      0;
    - the bound [N] is not kept there: [animate_sorting] advances the cursor
      after [show_current_step] has returned, whatever was dispatched in
      between.  On the quick sort visualiser with [5,2,8,1,9], start and
      then a tick during whose [update()] the Reset button is handled end
      with the cursor at 1 and no steps. *)
Theorem cursor_within_sequence :
  (∀ (al : algorithm) (a : list Z) (cs : list command), ∃ v',
     Reentrant.handle_all (T := step_of al) (Reentrant.atomic <$> cs)
       (set_manual_array a new) = Ok v' ∧
     0 ≤ current_step v' ≤ Z.of_nat (length (steps v'))) ∧
  (∀ (al : algorithm) (a : list Z) (es : list Reentrant.event), ∃ v',
     Reentrant.handle_all (T := step_of al) es (set_manual_array a new) = Ok v' ∧
     0 ≤ current_step v') ∧
  (∃ v',
     Reentrant.handle_all (T := QuickSort.step)
       [Reentrant.atomic Start; Reentrant.Event Tick [[Reentrant.atomic Reset]]]
       (set_manual_array [5; 2; 8; 1; 9] new) = Ok v' ∧
     steps v' = [] ∧ current_step v' = 1).
Proof.
  split; [|split].
  - intros al a cs. rewrite handle_all_atomic.
    destruct (exec_all_kept (every_sort_run_ok al) cs (set_manual_array a new))
      as (v' & Hrun & _ & Hc).
    exists v'. split; [done|]. apply Hc. unfold cursor_ok. simpl. lia.
  - intros al a es. apply (handle_all_nonneg (every_sort_run_ok al)).
    unfold cursor_nonneg. simpl. lia.
  - eexists. split; [vm_compute; reflexivity|]. done.
Qed.


(** C9 as stated fails for step-backward: with no steps generated it
    returns without running the engine, so the sequence stays empty (a run
    on this array would record 24 steps). *)
Lemma step_backward_generates_nothing :
  ∃ v' a' st,
    exec (T := QuickSort.step) StepBackward (set_manual_array [5; 2; 8; 1; 9] new) = Ok v' ∧
    steps v' = [] ∧
    run_engine (T := QuickSort.step) [5; 2; 8; 1; 9] = Ok (a', st) ∧
    length st = 24%nat.
Proof.
  eexists _, _, _. split; [reflexivity|]. split; [reflexivity|].
  split; [vm_compute; reflexivity|]. reflexivity.
Qed.

(** C9 (amended): with no steps generated yet (cursor 0, an array
    installed), neither call is an error.  Step-forward first generates the
    full step sequence by one complete sort run and then moves the cursor by
    one position, clamped at the last record.  Step-backward generates
    nothing and leaves the state as it is. *)
Theorem step_with_no_steps (al : algorithm) (v : visualizer (step_of al)) :
  steps v = [] → current_step v = 0 → array v ≠ [] →
  ∃ a' st v1,
    run_engine (array v) = Ok (a', st) ∧
    exec StepForward v = Ok v1 ∧
    steps v1 = st ∧
    current_step v1 = Z.min 1 (Z.of_nat (length st) - 1) ∧
    exec StepBackward v = Ok v.
Proof.
  intros Hst Hc Ha.
  destruct (generate_steps_spec (every_sort_run_ok al) v) as (v' & Hgen & _ & Hc' & Hv).
  destruct (array v) as [|x a] eqn:Harr; [done|].
  destruct Hv as (a' & st & Hrun & ->).
  destruct (every_sort_run_ok al (x :: a)) as (? & st0 & first & ? & Hrun0 & Hh & _).
  assert (st0 = st) as -> by congruence.
  assert (0 < Z.of_nat (length st)) as Hpos by (destruct st; [done|simpl; lia]).
  simpl. unfold step_forward, ensure_steps, step_backward. rewrite Hst, Hgen, Hc. simpl.
  rewrite Hc.
  case_bool_decide as Hlt.
  - eexists a', st, _. split; [done|]. split; [done|].
    match goal with |- context [show_current_step ?w] =>
      destruct (show_current_step_fields w) as (-> & -> & _) end.
    simpl. split; [done|]. split; [lia|done].
  - eexists a', st, _. split; [done|]. split; [done|]. simpl.
    split; [done|]. split; [lia|done].
Qed.

Lemma step_with_no_steps_witness :
  ∃ a' st v1,
    run_engine (T := QuickSort.step)
      (array (set_manual_array (T := QuickSort.step) [5; 2; 8; 1; 9] new)) = Ok (a', st) ∧
    exec (T := QuickSort.step) StepForward (set_manual_array [5; 2; 8; 1; 9] new) = Ok v1 ∧
    steps v1 = st ∧
    current_step v1 = Z.min 1 (Z.of_nat (length st) - 1) ∧
    exec (T := QuickSort.step) StepBackward (set_manual_array [5; 2; 8; 1; 9] new)
      = Ok (set_manual_array [5; 2; 8; 1; 9] new).
Proof.
  apply (step_with_no_steps QuickSortAlgorithm (set_manual_array [5; 2; 8; 1; 9] new));
    [reflexivity|reflexivity|simpl; discriminate].
Defined.

(** * Further properties of playback *)

Section playback_more.
Context {T : Type} `{!Engine T}.
Hypothesis engine_ok : ∀ a : list Z, sort_run_ok (T := T) a.
Implicit Types v : visualizer T.

Lemma exec_all_app (cs1 cs2 : list command) v v1 :
  exec_all cs1 v = Ok v1 → exec_all (cs1 ++ cs2) v = exec_all cs2 v1.
Proof.
  revert v. induction cs1 as [|c cs1 IH]; intros v; simpl.
  - by intros [= ->].
  - destruct (exec c v) as [v'|e]; [apply IH|done].
Qed.

(** [show_current_step] only ever changes [self.array]. *)
Lemma show_current_step_shape v : ∃ a, show_current_step v = set_array a v.
Proof.
  unfold show_current_step. destruct v as [a o st c so pl sp sv sc]; simpl.
  destruct st as [|x st]; [by exists a|].
  case_bool_decide; [|by exists a].
  destruct (_ !! _) as [y|]; [by exists (snapshot y)|by exists a].
Qed.

(** Inside the sequence it installs the snapshot at the cursor. *)
Lemma show_current_step_at v x :
  0 ≤ current_step v → steps v !! Z.to_nat (current_step v) = Some x →
  show_current_step v = set_array (snapshot x) v.
Proof.
  intros Hc Hx. pose proof (lookup_lt_Some _ _ _ Hx) as Hlt.
  unfold show_current_step. destruct v as [a o st c so pl sp sv sc]; simpl in *.
  destruct st as [|y st]; [done|].
  rewrite bool_decide_eq_true_2 by lia. by rewrite Hx.
Qed.

Lemma restore_speed_shape v :
  restore_speed v
  = set_speeds (default (animation_speed v) (original_speed v)) None v.
Proof.
  unfold restore_speed. destruct v as [a o st c so pl sp sv sc]; simpl.
  by destruct sv.
Qed.

Lemma ensure_steps_shape v :
  ∃ v', ensure_steps v = Ok v' ∧
    ((steps v ≠ [] ∨ array v = []) ∧ v' = v ∨
     steps v = [] ∧ array v ≠ [] ∧
     ∃ a' st, run_engine (array v) = Ok (a', st) ∧ st ≠ [] ∧
              v' = set_array a' (set_steps st v)).
Proof.
  unfold ensure_steps. destruct (steps v) as [|x st] eqn:Hst; [|exists v; split; [done|left; by split; [left|]]].
  destruct (generate_steps_spec engine_ok v) as (v' & Hgen & _ & _ & Hv).
  exists v'. split; [done|]. destruct (array v) as [|y a] eqn:Ha.
  - left. split; [by right|done].
  - right. split; [done|]. split; [done|].
    destruct Hv as (a' & st & Hrun & ->). exists a', st. split; [done|]. split; [|done].
    destruct (engine_ok (y :: a)) as (? & st' & first & ? & Hrun' & Hh & _).
    rewrite Hrun in Hrun'. injection Hrun' as <- <-. by destruct st.
Qed.
End playback_more.

(** X11: on a non-empty array [generate_steps] returns normally and
    installs a non-empty step sequence that begins with a snapshot of the
    array as it was and ends with a snapshot of the array as it is left: a
    sorted rearrangement.  The working array is sorted as soon as the steps
    exist, before any of them is shown; cursor and original array are
    untouched. *)
Theorem generate_steps_installs (al : algorithm) (v : visualizer (step_of al)) :
  array v ≠ [] →
  ∃ v' first final,
    generate_steps v = Ok v' ∧
    head (steps v') = Some first ∧ snapshot first = array v ∧
    last (steps v') = Some final ∧ snapshot final = array v' ∧
    Sorted Z.le (array v') ∧ array v' ≡ₚ array v ∧
    current_step v' = current_step v ∧ original_array v' = original_array v.
Proof.
  intros Ha.
  destruct (generate_steps_spec (every_sort_run_ok al) v) as (v' & Hgen & Ho & Hc & Hv).
  destruct (array v) as [|y a] eqn:Harr; [done|].
  destruct Hv as (a' & st & Hrun & ->).
  destruct (every_sort_run_ok al (y :: a))
    as (a2 & st2 & first & final & Hrun2 & Hh & Hf & Hl & Hfin & Hp & Hs).
  rewrite Hrun in Hrun2. injection Hrun2 as <- <-.
  exists (set_array a' (set_steps st v)), first, final. simpl. done.
Qed.

Lemma generate_steps_installs_witness :
  ∃ v' first final,
    generate_steps (T := QuickSort.step) (set_manual_array [5; 2; 8; 1; 9] new) = Ok v' ∧
    head (steps v') = Some first ∧
    snapshot first = array (set_manual_array (T := QuickSort.step) [5; 2; 8; 1; 9] new) ∧
    last (steps v') = Some final ∧ snapshot final = array v' ∧
    Sorted Z.le (array v') ∧
    array v' ≡ₚ array (set_manual_array (T := QuickSort.step) [5; 2; 8; 1; 9] new) ∧
    current_step v' = current_step (set_manual_array (T := QuickSort.step) [5; 2; 8; 1; 9] new) ∧
    original_array v'
      = original_array (set_manual_array (T := QuickSort.step) [5; 2; 8; 1; 9] new).
Proof.
  apply (generate_steps_installs QuickSortAlgorithm (set_manual_array [5; 2; 8; 1; 9] new)).
  simpl. discriminate.
Defined.

(** X12: inside a generated sequence, step-forward moves the cursor to the
    next record and shows that record's snapshot; step-backward after it
    returns the cursor to where it was and shows the snapshot of the record
    there.  The step sequence itself is not touched. *)
Theorem step_forward_backward (al : algorithm) (v : visualizer (step_of al)) x y :
  0 ≤ current_step v →
  steps v !! Z.to_nat (current_step v) = Some x →
  steps v !! Z.to_nat (current_step v + 1) = Some y →
  ∃ v1,
    step_forward v = Ok v1 ∧
    current_step v1 = current_step v + 1 ∧ array v1 = snapshot y ∧
    steps v1 = steps v ∧
    current_step (step_backward v1) = current_step v ∧
    array (step_backward v1) = snapshot x ∧
    steps (step_backward v1) = steps v.
Proof.
  intros Hc Hx Hy. pose proof (lookup_lt_Some _ _ _ Hy) as Hlt.
  unfold step_forward, ensure_steps.
  destruct (steps v) as [|z st] eqn:Hst; [done|]. rewrite <- Hst in *.
  rewrite bool_decide_eq_true_2 by lia.
  rewrite (show_current_step_at (set_current_step (current_step v + 1) v) y)
    by (simpl; first [lia|done]).
  eexists. split; [done|]. simpl. split; [done|]. split; [done|]. split; [done|].
  unfold step_backward. simpl. rewrite bool_decide_eq_true_2 by lia.
  match goal with |- context [show_current_step ?w] =>
    rewrite (show_current_step_at w x)
      by (simpl; first [lia|by replace (current_step v + 1 - 1) with (current_step v) by lia])
  end.
  simpl. split; [lia|done].
Qed.

Lemma step_forward_backward_witness :
  ∃ v1,
    step_forward (Visualizer [2; 1] [2; 1]
                    [SelectionSort.Step [2; 1] (-1) (-1) (-1) [] "a";
                     SelectionSort.Step [1; 2] (-1) (-1) (-1) [] "b"]
                    0 false false 1000 None O) = Ok v1 ∧
    current_step v1 = 0 + 1 ∧
    array v1 = snapshot (SelectionSort.Step [1; 2] (-1) (-1) (-1) [] "b") ∧
    steps v1 = [SelectionSort.Step [2; 1] (-1) (-1) (-1) [] "a";
                SelectionSort.Step [1; 2] (-1) (-1) (-1) [] "b"] ∧
    current_step (step_backward v1) = 0 ∧
    array (step_backward v1) = snapshot (SelectionSort.Step [2; 1] (-1) (-1) (-1) [] "a") ∧
    steps (step_backward v1)
      = [SelectionSort.Step [2; 1] (-1) (-1) (-1) [] "a";
         SelectionSort.Step [1; 2] (-1) (-1) (-1) [] "b"].
Proof.
  apply (step_forward_backward SelectionSortAlgorithm
           (Visualizer [2; 1] [2; 1]
              [SelectionSort.Step [2; 1] (-1) (-1) (-1) [] "a";
               SelectionSort.Step [1; 2] (-1) (-1) (-1) [] "b"]
              0 false false 1000 None O)
           (SelectionSort.Step [2; 1] (-1) (-1) (-1) [] "a")
           (SelectionSort.Step [1; 2] (-1) (-1) (-1) [] "b"));
    [simpl; lia|reflexivity|reflexivity].
Defined.


Ltac compute_record :=
  cbv [set_array set_steps set_current_step set_is_sorting set_is_playing
       set_speeds set_scheduled];
  cbn [array original_array steps current_step is_sorting is_playing
       animation_speed original_speed scheduled].

Ltac normalize_record :=
  cbv [set_array set_steps set_current_step set_is_sorting set_is_playing
       set_speeds set_scheduled
       array original_array steps current_step is_sorting is_playing
       animation_speed original_speed scheduled].

Ltac unfold_setters :=
  cbn [set_array set_steps set_current_step set_is_sorting set_is_playing
       set_speeds set_scheduled
       array original_array steps current_step is_sorting is_playing
       animation_speed original_speed scheduled].

Section playback_runs.
Context {T : Type} `{!Engine T}.
Hypothesis engine_ok : ∀ a : list Z, sort_run_ok (T := T) a.
Implicit Types v : visualizer T.

(** An auto-advance step while playing inside the sequence: show the
    record at the cursor, advance, schedule the next callback. *)
Lemma animate_sorting_playing a o st (k : nat) so sp sv sc x :
  st !! k = Some x →
  animate_sorting (Visualizer a o st (Z.of_nat k) so true sp sv sc)
  = Visualizer (snapshot x) o st (Z.of_nat (S k)) so true sp sv (S sc).
Proof.
  intros Hx. pose proof (lookup_lt_Some _ _ _ Hx) as Hlt.
  unfold animate_sorting. simpl.
  rewrite bool_decide_eq_false_2 by lia.
  rewrite (show_current_step_at _ x) by (simpl; first [lia|by rewrite Nat2Z.id]).
  compute_record. f_equal. lia.
Qed.

(** An auto-advance step with the cursor past the last record: playback
    is over and a fast-forward speed is given back. *)
Lemma animate_sorting_finished a o st c so pl sp sv sc :
  Z.of_nat (length st) ≤ c →
  animate_sorting (Visualizer a o st c so pl sp sv sc)
  = Visualizer a o st c false pl (default sp sv) None sc.
Proof.
  intros Hc. unfold animate_sorting. simpl.
  rewrite bool_decide_eq_true_2 by lia. rewrite orb_true_r.
  unfold restore_speed. by destruct sv.
Qed.

(** The state while playing, just after record [k] has been shown. *)
Definition playing_after (o : list Z) (st : list T) (sp : Z) (sv : option Z)
    (k : nat) v : Prop :=
  ∃ x, st !! k = Some x ∧
       v = Visualizer (snapshot x) o st (Z.of_nat (S k)) true true sp sv 1%nat.

Lemma ticks_playing o st sp sv (m : nat) : ∀ k v,
  playing_after o st sp sv k v → (k + m < length st)%nat →
  ∃ v', exec_all (replicate m Tick) v = Ok v' ∧ playing_after o st sp sv (k + m) v'.
Proof.
  induction m as [|m IH]; intros k v Hv Hlt; simpl.
  { exists v. split; [done|]. by rewrite Nat.add_0_r. }
  destruct Hv as (x & Hx & ->). cbn [replicate exec_all exec scheduled]. compute_record.
  destruct (lookup_lt_is_Some_2 st (S k)) as [y Hy]; [lia|].
  rewrite (animate_sorting_playing _ _ _ (S k) _ _ _ _ y) by done.
  destruct (IH (S k) (Visualizer (snapshot y) o st (Z.of_nat (S (S k))) true true sp sv 1%nat))
    as (v' & Hrun & Hv'); [by exists y|lia|].
  exists v'. split; [done|]. by replace (k + S m)%nat with (S k + m)%nat by lia.
Qed.

Lemma play_from_start o st sp sv a first final :
  head st = Some first → last st = Some final →
  ∃ v',
    exec_all (replicate (length st) Tick)
      (animate_sorting (Visualizer a o st 0 true true sp sv O)) = Ok v' ∧
    v' = Visualizer (snapshot final) o st (Z.of_nat (length st)) false true
           (default sp sv) None O.
Proof.
  intros Hh Hl. destruct st as [|z st'] eqn:Hst; [done|]. rewrite <- Hst in *.
  assert (st !! 0%nat = Some first) as H0 by (by rewrite <- head_lookup).
  assert (length st = S (length st')) as Hlen by (by rewrite Hst).
  pose proof (animate_sorting_playing a o st 0 true sp sv 0 first H0) as Ha0.
  change (Z.of_nat 0) with 0 in Ha0. rewrite Ha0. clear Ha0.
  destruct (ticks_playing o st sp sv (length st') 0
              (Visualizer (snapshot first) o st (Z.of_nat 1) true true sp sv 1%nat))
    as (v1 & Hrun & y & Hy & ->); [by exists first|lia|].
  rewrite Hlen.
  replace (replicate (S (length st')) Tick) with (replicate (length st') Tick ++ [Tick])
    by (by rewrite <- replicate_cons_app).
  rewrite (exec_all_app _ _ _ _ Hrun). cbn [exec_all exec scheduled]. compute_record.
  rewrite animate_sorting_finished by lia.
  eexists. split; [done|].
  assert (y = final) as ->; [|done].
  rewrite last_lookup, Hlen in Hl. simpl in Hl, Hy. congruence.
Qed.
End playback_runs.

(** X13: on a fresh visualiser with a non-empty array, start (or fast
    start) followed by as many auto-advance ticks as there are records plays
    the run to its end: the cursor stands at [N], the sorted array is
    displayed, sorting is over, no callback is pending, and the speed is the
    configured 1000 ms again even after a fast start. *)
Theorem play_to_completion (al : algorithm) (fast : bool) (a : list Z) :
  a ≠ [] →
  ∃ a' st,
    run_engine (T := step_of al) a = Ok (a', st) ∧
    exec_all ((if fast then FastStart else Start) :: replicate (length st) Tick)
      (set_manual_array a new)
    = Ok (Visualizer a' a st (Z.of_nat (length st)) false true 1000 None O) ∧
    Sorted Z.le a' ∧ a' ≡ₚ a.
Proof.
  intros Ha.
  destruct (every_sort_run_ok al a)
    as (a' & st & first & final & Hrun & Hh & _ & Hl & Hf & Hp & Hs).
  exists a', st. split; [done|]. split; [|done].
  destruct a as [|y a0]; [done|].
  destruct fast.
  - destruct (play_from_start (y :: a0) st 50 (Some 1000) a' first final Hh Hl)
      as (v' & Hplay & ->).
    cbn [exec_all exec]. unfold fast_sort, ensure_steps, generate_steps.
    cbv [set_manual_array new]. compute_record. rewrite Hrun. compute_record.
    rewrite Hplay, Hf. done.
  - destruct (play_from_start (y :: a0) st 1000 None a' first final Hh Hl)
      as (v' & Hplay & ->).
    cbn [exec_all exec]. unfold start_sorting, ensure_steps, generate_steps.
    cbv [set_manual_array new]. compute_record. rewrite Hrun. compute_record.
    rewrite Hplay, Hf. done.
Qed.

Lemma play_to_completion_witness :
  ∃ a' st,
    run_engine (T := step_of SelectionSortAlgorithm) [3; 3; 1] = Ok (a', st) ∧
    exec_all (FastStart :: replicate (length st) Tick) (set_manual_array [3; 3; 1] new)
    = Ok (Visualizer a' [3; 3; 1] st (Z.of_nat (length st)) false true 1000 None O) ∧
    Sorted Z.le a' ∧ a' ≡ₚ [3; 3; 1].
Proof.
  apply (play_to_completion SelectionSortAlgorithm true [3; 3; 1]). discriminate.
Defined.


Section playback_invariants.
Context {T : Type} `{!Engine T}.
Hypothesis engine_ok : ∀ a : list Z, sort_run_ok (T := T) a.
Implicit Types v : visualizer T.

Lemma show_current_step_member v :
  ∃ a, show_current_step v = set_array a v ∧
       (a = array v ∨ ∃ x, x ∈ steps v ∧ a = snapshot x).
Proof.
  unfold show_current_step. destruct v as [a o st c so pl sp sv sc]; simpl.
  destruct st as [|x st]; [exists a; split; [done|by left]|].
  case_bool_decide; [|exists a; split; [done|by left]].
  destruct (_ !! _) as [y|] eqn:Hy; [|exists a; split; [done|by left]].
  exists (snapshot y). split; [done|]. right. exists y. split; [|done].
  by eapply list_elem_of_lookup_2.
Qed.

(** The three ways an [animate_sorting] call can go. *)
Lemma animate_sorting_cases v :
  (is_playing v = false ∧ current_step v < Z.of_nat (length (steps v)) ∧
   animate_sorting v = v) ∨
  (Z.of_nat (length (steps v)) ≤ current_step v ∧
   animate_sorting v = restore_speed (set_is_sorting false v)) ∨
  (is_playing v = true ∧ current_step v < Z.of_nat (length (steps v)) ∧
   ∃ a, (a = array v ∨ ∃ x, x ∈ steps v ∧ a = snapshot x) ∧
        animate_sorting v
        = set_scheduled (S (scheduled v))
            (set_current_step (current_step v + 1) (set_array a v))).
Proof.
  unfold animate_sorting.
  destruct (decide (Z.of_nat (length (steps v)) ≤ current_step v)) as [Hge|Hlt].
  { right; left. split; [done|].
    rewrite bool_decide_eq_true_2 by lia. by rewrite orb_true_r. }
  rewrite bool_decide_eq_false_2 by lia. rewrite orb_false_r.
  destruct (is_playing v) eqn:Hpl; simpl.
  - right; right. split; [done|]. split; [lia|].
    destruct (show_current_step_member v) as (a & -> & Ha). exists a. split; [done|].
    unfold_setters. by rewrite Hpl.
  - left. split; [done|]. split; [lia|done].
Qed.

(** *** A paused run stays paused *)


(** *** The configured speed survives fast forward *)

(** The speed the user has configured: the saved one while a fast-forward
    override is active. *)
Definition configured_speed v : Z := default (animation_speed v) (original_speed v).

Definition speed_ok (speed : Z) v : Prop :=
  configured_speed v = speed ∧ (is_sorting v = false → original_speed v = None).

Lemma animate_sorting_speed_ok speed v :
  speed_ok speed v → speed_ok speed (animate_sorting v).
Proof.
  intros [Hsp Hso].
  destruct (animate_sorting_cases v) as [(_ & _ & ->)|[(_ & ->)|(_ & _ & a & _ & ->)]].
  - done.
  - rewrite restore_speed_shape. unfold speed_ok, configured_speed in *.
    revert Hsp. unfold_setters. done.
  - unfold speed_ok, configured_speed in *. revert Hsp Hso. unfold_setters. done.
Qed.

(** *** What the displayed array can be *)

Section array_invariant.
Variable P : list Z → Prop.
Hypothesis run_P : ∀ b a' st,
  P b → run_engine (T := T) b = Ok (a', st) →
  P a' ∧ Forall (λ x, P (snapshot x)) st.

Definition array_ok v : Prop :=
  P (original_array v) ∧ P (array v) ∧ Forall (λ x, P (snapshot x)) (steps v).

Lemma ensure_steps_array_ok v :
  array_ok v → ∃ v', ensure_steps v = Ok v' ∧ array_ok v'.
Proof.
  intros (Ho & Ha & Hst).
  destruct (ensure_steps_shape engine_ok v) as (v1 & -> & Hv1). exists v1.
  split; [done|].
  destruct Hv1 as [[_ ->]|(_ & _ & a' & st & Hrun & _ & ->)]; [done|].
  destruct (run_P _ _ _ Ha Hrun) as [Ha' Hst'].
  unfold array_ok. unfold_setters. done.
Qed.

Lemma show_current_step_array_ok c v :
  array_ok v → array_ok (show_current_step (set_current_step c v)).
Proof.
  intros (Ho & Ha & Hst).
  destruct (show_current_step_member (set_current_step c v)) as (a & -> & Hin).
  unfold array_ok. revert Hin. unfold_setters. intros Hin.
  split; [done|]. split; [|done].
  destruct Hin as [->|(x & Hx & ->)]; [done|].
  rewrite Forall_forall in Hst. by apply Hst.
Qed.

Lemma animate_sorting_array_ok v : array_ok v → array_ok (animate_sorting v).
Proof.
  intros (Ho & Ha & Hst).
  destruct (animate_sorting_cases v) as [(_ & _ & ->)|[(_ & ->)|(_ & _ & a & Hin & ->)]].
  - done.
  - rewrite restore_speed_shape. unfold array_ok. unfold_setters. done.
  - unfold array_ok. unfold_setters. split; [done|]. split; [|done].
    destruct Hin as [->|(x & Hx & ->)]; [done|].
    rewrite Forall_forall in Hst. by apply Hst.
Qed.

Lemma exec_array_ok c v : array_ok v → ∃ v', exec c v = Ok v' ∧ array_ok v'.
Proof.
  intros Hv. destruct c; cbn [exec].
  - unfold start_sorting. destruct (is_sorting v); [by exists v|].
    destruct (ensure_steps_array_ok v Hv) as (v1 & -> & Hv1).
    eexists. split; [done|]. apply animate_sorting_array_ok.
    revert Hv1. unfold array_ok. unfold_setters. done.
  - unfold fast_sort. destruct (is_sorting v); [by exists v|].
    destruct (array v) eqn:Ha; [by exists v|].
    destruct (ensure_steps_array_ok v Hv) as (v1 & -> & Hv1).
    eexists. split; [done|]. apply animate_sorting_array_ok.
    revert Hv1. unfold array_ok. unfold_setters. done.
  - eexists. split; [done|]. unfold pause_sorting. rewrite restore_speed_shape.
    revert Hv. unfold array_ok. unfold_setters. done.
  - eexists. split; [done|]. unfold reset_sorting. rewrite restore_speed_shape.
    revert Hv. unfold array_ok. unfold_setters. intros (Ho & _ & _).
    split; [done|]. split; [done|]. constructor.
  - unfold step_forward.
    destruct (ensure_steps_array_ok v Hv) as (v1 & -> & Hv1).
    case_bool_decide; [|by exists v1].
    eexists. split; [done|]. by apply show_current_step_array_ok.
  - eexists. split; [done|]. unfold step_backward.
    case_bool_decide; [|done]. by apply show_current_step_array_ok.
  - destruct (scheduled v) as [|n] eqn:Hsc; [by exists v|].
    eexists. split; [done|]. apply animate_sorting_array_ok.
    revert Hv. unfold array_ok. unfold_setters. done.
Qed.

Lemma exec_all_array_ok cs : ∀ v,
  array_ok v → ∃ v', exec_all cs v = Ok v' ∧ array_ok v'.
Proof.
  induction cs as [|c cs IH]; intros v Hv; simpl.
  { by exists v. }
  destruct (exec_array_ok c v) as (v1 & -> & Hv1); [done|].
  by apply IH.
Qed.
End array_invariant.
End playback_invariants.


(** X16: a speed chosen while fast forward is running does not last.
    [fast_sort] from the first record saves the configured speed and plays
    at 50 ms; [on_speed_change] then sets [animation_speed], but the next
    pause restores the saved speed over it. *)
Theorem speed_change_during_fast_sort (al : algorithm) (v : visualizer (step_of al))
    (name : string) :
  is_sorting v = false → array v ≠ [] → current_step v = 0 →
  ∃ v1,
    fast_sort v = Ok v1 ∧
    animation_speed v1 = 50 ∧
    animation_speed (on_speed_change name v1) = default 1000 (speed_map !! name) ∧
    animation_speed (pause_sorting (on_speed_change name v1)) = animation_speed v.
Proof.
  intros Hso Ha Hc. unfold fast_sort. rewrite Hso.
  destruct (array v) as [|y a] eqn:Harr; [done|].
  destruct (ensure_steps_shape (every_sort_run_ok al) v) as (v1 & -> & Hv1).
  assert (steps v1 ≠ [] ∧ current_step v1 = 0 ∧ animation_speed v1 = animation_speed v)
    as (Hst1 & Hc1 & Hsp1).
  { destruct Hv1 as [[[Hst|Hst] ->]|(_ & _ & a' & st & _ & Hst & ->)].
    - done.
    - by rewrite Harr in Hst.
    - unfold_setters. done. }
  match goal with |- context [animate_sorting ?w] =>
    destruct (animate_sorting_cases w) as [(Hp & _)|[(Hge & _)|(_ & _ & b & _ & ->)]]
  end.
  - revert Hp. unfold_setters. done.
  - revert Hge. unfold_setters. rewrite Hc1. destruct (steps v1); [done|]. simpl. lia.
  - eexists. split; [done|]. unfold pause_sorting, on_speed_change.
    rewrite restore_speed_shape. generalize (default 1000 (speed_map !! name)).
    intros z. unfold_setters. done.
Qed.

Lemma speed_change_during_fast_sort_witness :
  ∃ v1,
    fast_sort (T := QuickSort.step) (set_manual_array [5; 2; 8; 1; 9] new) = Ok v1 ∧
    animation_speed v1 = 50 ∧
    animation_speed (on_speed_change "Slow" v1) = default 1000 (speed_map !! "Slow") ∧
    animation_speed (pause_sorting (on_speed_change "Slow" v1))
      = animation_speed (set_manual_array (T := QuickSort.step) [5; 2; 8; 1; 9] new).
Proof.
  apply (speed_change_during_fast_sort QuickSortAlgorithm
           (set_manual_array [5; 2; 8; 1; 9] new) "Slow");
    [reflexivity|simpl; discriminate|reflexivity].
Defined.

(** X17: for each of the three visualisers, whatever array is installed and
    whatever commands follow, the displayed array and every recorded
    snapshot have as many elements as the installed array: the bar chart
    never changes its number of bars. *)
Theorem displayed_array_length (al : algorithm) (a : list Z) (cs : list command) :
  ∃ v',
    exec_all (T := step_of al) cs (set_manual_array a new) = Ok v' ∧
    length (array v') = length a ∧
    Forall (λ x, length (snapshot x) = length a) (steps v').
Proof.
  destruct (exec_all_array_ok (every_sort_run_ok al) (λ b, length b = length a))
    with (cs := cs) (v := set_manual_array (T := step_of al) a new)
    as (v' & Hrun & _ & Ha & Hst).
  - intros b a' st Hb Hrun.
    destruct (every_snapshot_length al b) as (a2 & st2 & Hrun2 & Hl & Hall).
    rewrite Hrun in Hrun2. injection Hrun2 as <- <-. split; [congruence|].
    eapply Forall_impl; [exact Hall|]. intros x Hx. simpl in *. congruence.
  - split; [done|]. split; [done|]. constructor.
  - by exists v'.
Qed.

(** X18: with quick sort and with selection sort, which only ever swap,
    the displayed array is at every moment a rearrangement of the installed
    array, whatever commands are given. *)
Theorem displayed_array_permutation (al : algorithm) (a : list Z) (cs : list command) :
  al ≠ MergeSortAlgorithm →
  ∃ v',
    exec_all (T := step_of al) cs (set_manual_array a new) = Ok v' ∧
    array v' ≡ₚ a.
Proof.
  intros Hal.
  destruct (exec_all_array_ok (every_sort_run_ok al) (λ b, b ≡ₚ a))
    with (cs := cs) (v := set_manual_array (T := step_of al) a new)
    as (v' & Hrun & _ & Ha & _).
  - intros b a' st Hb Hrun.
    destruct (every_sort_run_ok al b) as (a2 & st2 & _ & _ & Hrun2 & _ & _ & _ & _ & Hp & _).
    rewrite Hrun in Hrun2. injection Hrun2 as <- <-. split; [by rewrite Hp|].
    destruct al; [|done|].
    + destruct (@run_engine_wp _ quick_sort b _ (quick_sort_records b))
        as (a3 & st3 & Hrun3 & _ & Hall).
      simpl in Hrun. rewrite Hrun in Hrun3. injection Hrun3 as <- <-.
      eapply Forall_impl; [exact Hall|]. intros x (Hx & _). simpl. by rewrite Hx.
    + destruct (@run_engine_wp _ selection_sort b _ (selection_sort_records b))
        as (a3 & st3 & Hrun3 & _ & Hall).
      simpl in Hrun. rewrite Hrun in Hrun3. injection Hrun3 as <- <-.
      eapply Forall_impl; [exact Hall|]. intros x (Hx & _). simpl. by rewrite Hx.
  - split; [done|]. split; [done|]. constructor.
  - by exists v'.
Qed.

Lemma displayed_array_permutation_witness :
  ∃ v',
    exec_all (T := step_of QuickSortAlgorithm) [Start; Tick; Pause; StepForward]
      (set_manual_array [5; 2; 8; 1; 9] new) = Ok v' ∧
    array v' ≡ₚ [5; 2; 8; 1; 9].
Proof.
  apply (displayed_array_permutation QuickSortAlgorithm [5; 2; 8; 1; 9]
           [Start; Tick; Pause; StepForward]).
  discriminate.
Defined.

(** X19: the step number [update_progress] puts in the label never exceeds
    the total, whatever commands were given: with [N > 0] records it is
    between 1 and [N] (it shows [N] both at the last record and after the
    run has finished), with no records it is 0 of 0. *)
Theorem progress_within_total (al : algorithm) (a : list Z) (cs : list command) :
  ∃ v' current total,
    exec_all (T := step_of al) cs (set_manual_array a new) = Ok v' ∧
    update_progress v' = (current, total) ∧
    total = Z.of_nat (length (steps v')) ∧
    0 ≤ current ≤ total ∧
    (steps v' ≠ [] → 1 ≤ current).
Proof.
  destruct (exec_all_kept (every_sort_run_ok al) cs (set_manual_array a new))
    as (v' & Hrun & _ & Hc).
  assert (cursor_ok v') as [Hc0 Hc1] by (apply Hc; unfold cursor_ok; simpl; lia).
  exists v'. unfold update_progress.
  destruct (steps v') as [|x st] eqn:Hst.
  - exists 0, 0. simpl in *. split; [done|]. split; [f_equal; lia|]. done.
  - eexists _, _. split; [done|]. split; [done|]. simpl length in *.
    split; [done|]. split; [lia|]. intros _. lia.
Qed.

(** X20: with an empty array nothing is ever generated.  [generate_steps],
    [fast_sort] and [step_forward] return the state as it is; [start_sorting]
    finds the empty sequence exhausted at once, so it ends not sorting, with
    no steps and no callback scheduled. *)
Theorem start_on_empty_array (al : algorithm) (v : visualizer (step_of al)) :
  array v = [] → steps v = [] → current_step v = 0 → is_sorting v = false →
  ∃ v',
    start_sorting v = Ok v' ∧
    steps v' = [] ∧ array v' = [] ∧ is_sorting v' = false ∧
    current_step v' = 0 ∧ scheduled v' = scheduled v ∧
    generate_steps v = Ok v ∧ fast_sort v = Ok v ∧ step_forward v = Ok v.
Proof.
  intros Ha Hst Hc Hso.
  unfold start_sorting, fast_sort, step_forward, ensure_steps, generate_steps.
  rewrite Hso, Hst, Ha, Hc. simpl. rewrite Hst.
  match goal with |- context [animate_sorting ?w] =>
    destruct (animate_sorting_cases w) as [(_ & Hlt & _)|[(_ & ->)|(_ & Hlt & _)]]
  end.
  - revert Hlt. unfold_setters. rewrite Hst, Hc. simpl. lia.
  - eexists. split; [done|]. rewrite restore_speed_shape. unfold_setters. done.
  - revert Hlt. unfold_setters. rewrite Hst, Hc. simpl. lia.
Qed.

Lemma start_on_empty_array_witness :
  ∃ v',
    start_sorting (T := step_of MergeSortAlgorithm) new = Ok v' ∧
    steps v' = [] ∧ array v' = [] ∧ is_sorting v' = false ∧
    current_step v' = 0 ∧ scheduled v' = scheduled (new (T := step_of MergeSortAlgorithm)) ∧
    generate_steps (T := step_of MergeSortAlgorithm) new = Ok new ∧
    fast_sort (T := step_of MergeSortAlgorithm) new = Ok new ∧
    step_forward (T := step_of MergeSortAlgorithm) new = Ok new.
Proof.
  apply (start_on_empty_array MergeSortAlgorithm new); reflexivity.
Defined.


(** X21: installing a new array while a run is playing ends that run at
    the next tick.  [set_manual_array] drops the steps and puts the cursor at
    0 but leaves the playback flags and the pending callback alone; the
    callback then finds the (empty) sequence exhausted, clears [is_sorting],
    shows nothing and schedules nothing, and the new array stays in place. *)
Theorem new_array_during_playback (al : algorithm) (v : visualizer (step_of al))
    (a : list Z) (n : nat) :
  scheduled v = S n →
  ∃ v2,
    exec Tick (set_manual_array a v) = Ok v2 ∧
    is_sorting v2 = false ∧ steps v2 = [] ∧ current_step v2 = 0 ∧
    array v2 = a ∧ original_array v2 = a ∧ scheduled v2 = n.
Proof.
  intros Hsc. cbn [exec]. unfold set_manual_array at 1.
  cbn [scheduled]. rewrite Hsc.
  match goal with |- context [animate_sorting ?w] =>
    destruct (animate_sorting_cases w) as [(_ & Hlt & _)|[(_ & ->)|(_ & Hlt & _)]]
  end.
  - revert Hlt. unfold set_manual_array. unfold_setters. simpl. lia.
  - eexists. split; [done|]. rewrite restore_speed_shape.
    unfold set_manual_array. unfold_setters. done.
  - revert Hlt. unfold set_manual_array. unfold_setters. simpl. lia.
Qed.

Lemma new_array_during_playback_witness :
  ∃ v2,
    exec (T := step_of SelectionSortAlgorithm) Tick
      (set_manual_array [4; 7; 1]
         (Visualizer [2; 1] [2; 1]
            [SelectionSort.Step [2; 1] (-1) (-1) (-1) [] "a";
             SelectionSort.Step [1; 2] (-1) (-1) (-1) [] "b"]
            1 true true 1000 None 1%nat)) = Ok v2 ∧
    is_sorting v2 = false ∧ steps v2 = [] ∧ current_step v2 = 0 ∧
    array v2 = [4; 7; 1] ∧ original_array v2 = [4; 7; 1] ∧ scheduled v2 = 0%nat.
Proof.
  apply (new_array_during_playback SelectionSortAlgorithm
           (Visualizer [2; 1] [2; 1]
              [SelectionSort.Step [2; 1] (-1) (-1) (-1) [] "a";
               SelectionSort.Step [1; 2] (-1) (-1) (-1) [] "b"]
              1 true true 1000 None 1%nat)
           [4; 7; 1] 0).
  reflexivity.
Defined.

(** X22: a callback that fires after the run was paused or reset does
    nothing.  After a reset, in whatever state it was given, and after a
    pause before the end of the sequence, the pending [animate_sorting] call
    changes nothing but the count of pending callbacks: it shows no record,
    moves no cursor and schedules no successor. *)
Theorem stale_tick_is_noop (al : algorithm) (v : visualizer (step_of al)) (n : nat) :
  scheduled v = S n →
  exec Tick (reset_sorting v) = Ok (set_scheduled n (reset_sorting v)) ∧
  (current_step v < Z.of_nat (length (steps v)) →
   exec Tick (pause_sorting v) = Ok (set_scheduled n (pause_sorting v))).
Proof.
  intros Hsc. destruct v as [a o st c so pl sp sv sc].
  simpl in Hsc. subst sc.
  cbn [exec]. unfold pause_sorting, reset_sorting, restore_speed. split.
  - destruct sv; normalize_record;
      rewrite animate_sorting_finished by (simpl; lia); done.
  - simpl. intros Hlt.
    destruct sv; normalize_record; unfold animate_sorting; normalize_record;
      rewrite bool_decide_eq_false_2 by lia; done.
Qed.

(** The run that has played to its end (cursor 2 of 2 records) and a run
    in the middle, each with one callback pending. *)
Lemma stale_tick_is_noop_witness :
  (exec (T := step_of SelectionSortAlgorithm) Tick
     (reset_sorting
        (Visualizer [1; 2] [2; 1]
           [SelectionSort.Step [2; 1] (-1) (-1) (-1) [] "a";
            SelectionSort.Step [1; 2] (-1) (-1) (-1) [] "b"]
           2 true true 1000 None 1%nat))
   = Ok (set_scheduled 0
           (reset_sorting
              (Visualizer [1; 2] [2; 1]
                 [SelectionSort.Step [2; 1] (-1) (-1) (-1) [] "a";
                  SelectionSort.Step [1; 2] (-1) (-1) (-1) [] "b"]
                 2 true true 1000 None 1%nat)))) ∧
  (exec (T := step_of SelectionSortAlgorithm) Tick
     (reset_sorting
        (Visualizer [2; 1] [2; 1]
           [SelectionSort.Step [2; 1] (-1) (-1) (-1) [] "a";
            SelectionSort.Step [1; 2] (-1) (-1) (-1) [] "b"]
           1 true true 1000 None 1%nat))
   = Ok (set_scheduled 0
           (reset_sorting
              (Visualizer [2; 1] [2; 1]
                 [SelectionSort.Step [2; 1] (-1) (-1) (-1) [] "a";
                  SelectionSort.Step [1; 2] (-1) (-1) (-1) [] "b"]
                 1 true true 1000 None 1%nat))) ∧
   exec (T := step_of SelectionSortAlgorithm) Tick
     (pause_sorting
        (Visualizer [2; 1] [2; 1]
           [SelectionSort.Step [2; 1] (-1) (-1) (-1) [] "a";
            SelectionSort.Step [1; 2] (-1) (-1) (-1) [] "b"]
           1 true true 1000 None 1%nat))
   = Ok (set_scheduled 0
           (pause_sorting
              (Visualizer [2; 1] [2; 1]
                 [SelectionSort.Step [2; 1] (-1) (-1) (-1) [] "a";
                  SelectionSort.Step [1; 2] (-1) (-1) (-1) [] "b"]
                 1 true true 1000 None 1%nat)))).
Proof.
  split.
  - apply (stale_tick_is_noop SelectionSortAlgorithm
             (Visualizer [1; 2] [2; 1]
                [SelectionSort.Step [2; 1] (-1) (-1) (-1) [] "a";
                 SelectionSort.Step [1; 2] (-1) (-1) (-1) [] "b"]
                2 true true 1000 None 1%nat) 0).
    reflexivity.
  - destruct (stale_tick_is_noop SelectionSortAlgorithm
                (Visualizer [2; 1] [2; 1]
                   [SelectionSort.Step [2; 1] (-1) (-1) (-1) [] "a";
                    SelectionSort.Step [1; 2] (-1) (-1) (-1) [] "b"]
                   1 true true 1000 None 1%nat) 0 eq_refl) as [Hreset Hpause].
    split; [exact Hreset|]. apply Hpause. simpl. lia.
Defined.

(** * Playback with handlers that run inside one another *)

Section reentrant_invariants.
Context {T : Type} `{!Engine T}.
Hypothesis engine_ok : ∀ a : list Z, sort_run_ok (T := T) a.
Implicit Types v : visualizer T.
Implicit Types pumps : list (Reentrant.pump (T := T)).



(** The tick that shows a record: the cursor advances after the
    [update()] of [show_current_step]. *)
Lemma show_current_step_logs pumps v x :
  0 ≤ current_step v → steps v !! Z.to_nat (current_step v) = Some x →
  caption x ≠ EmptyString →
  Reentrant.show_current_step pumps v
  = Reentrant.update pumps (set_array (snapshot x) v).
Proof.
  intros Hc Hx Hcap. pose proof (lookup_lt_Some _ _ _ Hx) as Hlt.
  unfold Reentrant.show_current_step.
  destruct (steps v) eqn:Hst; [simpl in Hlt; lia|]. rewrite <- Hst in Hlt, Hx |- *.
  rewrite bool_decide_eq_true_2 by lia. rewrite Hx.
  by rewrite bool_decide_eq_true_2 by done.
Qed.

Lemma animate_sorting_shows pumps v x :
  is_playing v = true →
  0 ≤ current_step v → steps v !! Z.to_nat (current_step v) = Some x →
  caption x ≠ EmptyString →
  Reentrant.animate_sorting pumps v
  = match Reentrant.update pumps (set_array (snapshot x) v) with
    | Ok (v1, pumps1) =>
      Ok (let v2 := set_current_step (current_step v1 + 1) v1 in
          if is_playing v2 then set_scheduled (S (scheduled v2)) v2 else v2, pumps1)
    | Raise err => Raise err
    end.
Proof.
  intros Hpl Hc Hx Hcap. pose proof (lookup_lt_Some _ _ _ Hx) as Hlt.
  unfold Reentrant.animate_sorting. rewrite Hpl.
  rewrite bool_decide_eq_false_2 by lia. simpl.
  by rewrite (show_current_step_logs pumps v x).
Qed.

(** *** A paused run stays paused *)


(** *** The configured speed *)






End reentrant_invariants.






(** X23: a reset dispatched inside a tick leaves the cursor beyond the
    sequence.  When the [update()] of the tick that shows a record runs the
    handler of a Reset click, the reset empties the sequence and puts the
    cursor at 0, and the tick then advances the cursor all the same: the
    state is reset except that the cursor is 1, with no steps. *)
Theorem reset_inside_tick (al : algorithm) (v : visualizer (step_of al))
    (n : nat) (x : step_of al) :
  scheduled v = S n → is_playing v = true → 0 ≤ current_step v →
  steps v !! Z.to_nat (current_step v) = Some x →
  caption x ≠ EmptyString →
  ∃ v',
    Reentrant.handle (Reentrant.Event Tick [[Reentrant.atomic Reset]]) v = Ok v' ∧
    current_step v' = 1 ∧ steps v' = [] ∧
    array v' = original_array v ∧
    is_sorting v' = false ∧ is_playing v' = false ∧ scheduled v' = n.
Proof.
  intros Hsc Hpl Hc Hx Hcap.
  cbn [Reentrant.handle Reentrant.run map Reentrant.atomic]. rewrite Hsc.
  rewrite (animate_sorting_shows _ _ x) by done.
  unfold Reentrant.reset_sorting, Reentrant.log_message.
  cbn [Reentrant.update Reentrant.dispatch].
  unfold reset_sorting. rewrite restore_speed_shape. unfold_setters.
  eexists. split; [done|]. unfold_setters. done.
Qed.

Lemma reset_inside_tick_witness :
  ∃ v',
    Reentrant.handle (T := step_of SelectionSortAlgorithm)
      (Reentrant.Event Tick [[Reentrant.atomic Reset]])
      (Visualizer [1; 2] [2; 1]
         [SelectionSort.Step [2; 1] (-1) (-1) (-1) [] "a";
          SelectionSort.Step [1; 2] (-1) (-1) (-1) [] "b"]
         1 true true 1000 None 1%nat) = Ok v' ∧
    current_step v' = 1 ∧ steps v' = [] ∧
    array v' = [2; 1] ∧
    is_sorting v' = false ∧ is_playing v' = false ∧ scheduled v' = 0%nat.
Proof.
  apply (reset_inside_tick SelectionSortAlgorithm
           (Visualizer [1; 2] [2; 1]
              [SelectionSort.Step [2; 1] (-1) (-1) (-1) [] "a";
               SelectionSort.Step [1; 2] (-1) (-1) (-1) [] "b"]
              1 true true 1000 None 1%nat)
           0 (SelectionSort.Step [1; 2] (-1) (-1) (-1) [] "b"));
    [reflexivity|reflexivity|simpl; lia|reflexivity|simpl; discriminate].
Defined.

(** X24: a pause dispatched inside a tick does not stop that tick's
    advance.  When the [update()] of the tick that shows a record runs the
    handler of a Pause click, the tick still moves the cursor to the next
    position and only then finds [is_playing] cleared and schedules no
    successor.  Paused in that way at the last record, the run rests with
    the cursor at [N], the length of the sequence, and [is_sorting] still
    set. *)
Theorem pause_inside_tick (al : algorithm) (v : visualizer (step_of al))
    (n : nat) (x : step_of al) :
  scheduled v = S n → is_playing v = true → 0 ≤ current_step v →
  steps v !! Z.to_nat (current_step v) = Some x →
  caption x ≠ EmptyString →
  ∃ v',
    Reentrant.handle (Reentrant.Event Tick [[Reentrant.atomic Pause]]) v = Ok v' ∧
    current_step v' = current_step v + 1 ∧
    array v' = snapshot x ∧ steps v' = steps v ∧
    is_sorting v' = is_sorting v ∧ is_playing v' = false ∧ scheduled v' = n.
Proof.
  intros Hsc Hpl Hc Hx Hcap.
  cbn [Reentrant.handle Reentrant.run map Reentrant.atomic]. rewrite Hsc.
  rewrite (animate_sorting_shows _ _ x) by done.
  unfold Reentrant.pause_sorting, Reentrant.log_message.
  cbn [Reentrant.update Reentrant.dispatch].
  unfold pause_sorting. rewrite restore_speed_shape. unfold_setters.
  eexists. split; [done|]. unfold_setters. done.
Qed.

Lemma pause_inside_tick_witness :
  ∃ v',
    Reentrant.handle (T := step_of SelectionSortAlgorithm)
      (Reentrant.Event Tick [[Reentrant.atomic Pause]])
      (Visualizer [2; 1] [2; 1]
         [SelectionSort.Step [2; 1] (-1) (-1) (-1) [] "a";
          SelectionSort.Step [1; 2] (-1) (-1) (-1) [] "b"]
         1 true true 1000 None 1%nat) = Ok v' ∧
    current_step v' = 1 + 1 ∧
    array v' = [1; 2] ∧
    steps v' = [SelectionSort.Step [2; 1] (-1) (-1) (-1) [] "a";
                SelectionSort.Step [1; 2] (-1) (-1) (-1) [] "b"] ∧
    is_sorting v' = true ∧ is_playing v' = false ∧ scheduled v' = 0%nat.
Proof.
  apply (pause_inside_tick SelectionSortAlgorithm
           (Visualizer [2; 1] [2; 1]
              [SelectionSort.Step [2; 1] (-1) (-1) (-1) [] "a";
               SelectionSort.Step [1; 2] (-1) (-1) (-1) [] "b"]
              1 true true 1000 None 1%nat)
           0 (SelectionSort.Step [1; 2] (-1) (-1) (-1) [] "b"));
    [reflexivity|reflexivity|simpl; lia|reflexivity|simpl; discriminate].
Defined.

(** X25: a fast start dispatched inside a fast start loses the configured
    speed.  [fast_sort] logs, and so calls [update()], before it sets
    [is_sorting] and saves the speed.  When that [update()] runs the handler
    of a second Fast Sort click on a freshly installed array, the inner call
    saves the configured speed and sets 50 ms, and the outer call then saves
    the 50 ms over it: from then on 50 is the configured speed, and pausing
    or resetting restores 50. *)
Theorem fast_sort_inside_fast_sort (al : algorithm) (v : visualizer (step_of al)) :
  is_sorting v = false → original_speed v = None →
  steps v = [] → current_step v = 0 → array v ≠ [] →
  ∃ v',
    Reentrant.handle (Reentrant.Event FastStart [[Reentrant.atomic FastStart]]) v = Ok v' ∧
    configured_speed v' = 50 ∧
    animation_speed (pause_sorting v') = 50 ∧
    animation_speed (reset_sorting v') = 50.
Proof.
  intros Hso Hsv Hst Hc Ha.
  destruct (array v) as [|y a] eqn:Harr; [done|].
  destruct (every_sort_run_ok al (y :: a)) as (a' & st & first & ? & Hrun & Hh & _).
  assert (0 < Z.of_nat (length st)) as Hpos by (destruct st; [done|simpl; lia]).
  assert (∃ v2, Reentrant.handle (Reentrant.atomic FastStart) v = Ok v2 ∧
                steps v2 ≠ [] ∧ animation_speed v2 = 50 ∧
                original_speed v2 = Some (animation_speed v)) as (v2 & Hin & Hst2 & Hsp2 & Hsv2).
  { rewrite handle_atomic. cbn [exec]. unfold fast_sort. rewrite Hso, Harr.
    unfold ensure_steps, generate_steps. rewrite Hst, Harr, Hrun.
    eexists. split; [done|].
    match goal with |- context [animate_sorting ?w] =>
      destruct (animate_sorting_cases w) as [(Hp & _)|[(Hge & _)|(_ & _ & b & _ & ->)]]
    end.
    - revert Hp. unfold_setters. done.
    - revert Hge. unfold_setters. lia.
    - unfold_setters. split; [|done]. destruct st; [done|]. done. }
  cbn [Reentrant.handle Reentrant.run map]. unfold Reentrant.fast_sort at 1.
  rewrite Hso, Harr. unfold Reentrant.log_message. cbn [Reentrant.update].
  change (Reentrant.dispatch [Reentrant.handle (Reentrant.atomic FastStart)] v)
    with (match Reentrant.handle (Reentrant.atomic FastStart) v with
          | Ok v' => Ok v'
          | Raise err => Raise err
          end).
  rewrite Hin. unfold ensure_steps. destruct (steps v2) as [|z st2] eqn:Hst2'; [done|].
  rewrite animate_sorting_quiet.
  match goal with |- context [animate_sorting ?w] =>
    destruct (animate_sorting_speed_ok 50 w) as [Hsp _]
  end.
  { unfold speed_ok, configured_speed. unfold_setters. rewrite Hsp2. done. }
  eexists. split; [done|]. split; [done|].
  unfold pause_sorting, reset_sorting. rewrite !restore_speed_shape.
  revert Hsp. unfold configured_speed. unfold_setters. done.
Qed.

Lemma fast_sort_inside_fast_sort_witness :
  ∃ v',
    Reentrant.handle (T := step_of QuickSortAlgorithm)
      (Reentrant.Event FastStart [[Reentrant.atomic FastStart]])
      (on_speed_change "Slow" (set_manual_array [5; 2; 8; 1; 9] new)) = Ok v' ∧
    configured_speed v' = 50 ∧
    animation_speed (pause_sorting v') = 50 ∧
    animation_speed (reset_sorting v') = 50.
Proof.
  apply (fast_sort_inside_fast_sort QuickSortAlgorithm
           (on_speed_change "Slow" (set_manual_array [5; 2; 8; 1; 9] new)));
    [reflexivity|reflexivity|reflexivity|reflexivity|simpl; discriminate].
Defined.
